(** * Edmonds-Karp maximum flow on a logistics network

    A shallow embedding of [task1/modules/edmonds_karp.py],
    [task1/modules/logistics_network.py] and [main] of [task1.py] up to the
    call of the report generator, with the properties of the solver and of
    the analysis proved over it.

    Python integers are [Z]; a Python list is a [list]; an index expression
    [l[i]] follows Python: a negative index counts from the end and an index
    outside [-len, len) raises [IndexError].  Loops that Python runs with
    [while] take a fuel argument; every result about a returned value states
    the amount of fuel that is enough. *)

From stdpp Require Import base numbers list list_numbers option strings gmap pretty sorting.
From Stdlib Require Import ZArith Lia SpecFloat.

Local Open Scope Z_scope.

(** ** Outcomes of running Python code *)

Inductive exn : Type :=
  | IndexError   (* list index out of range *)
  | KeyError            (* missing dictionary key *)
  | ZeroDivisionError   (* division by zero *)
  | OverflowError       (* a float result too large, or round(inf) *)
  | ValueError          (* round(nan) *)
  | FloatInf.           (* float('Inf') reached integer arithmetic *)

Inductive res (A : Type) : Type :=
  | Ok (a : A)
  | Raise (e : exn)
  | OutOfFuel.
Arguments Ok {A} a.
Arguments Raise {A} e.
Arguments OutOfFuel {A}.

#[global] Instance res_ret : MRet res := fun A a => Ok a.
#[global] Instance res_bind : MBind res := fun A B f m =>
  match m with
  | Ok a => f a
  | Raise e => Raise e
  | OutOfFuel => OutOfFuel
  end.

(** ** Python lists *)

(** The position a Python index denotes in a list of length [len]. *)
Definition py_index (len : nat) (i : Z) : res nat :=
  if bool_decide (0 ≤ i < Z.of_nat len) then Ok (Z.to_nat i)
  else if bool_decide (- Z.of_nat len ≤ i < 0) then Ok (Z.to_nat (Z.of_nat len + i))
  else Raise IndexError.

(** [l[i]] *)
Definition py_get {A} (l : list A) (i : Z) : res A :=
  k ← py_index (length l) i;
  match l !! k with
  | Some x => Ok x
  | None => Raise IndexError
  end.

(** [l[i] = x] *)
Definition py_set {A} (l : list A) (i : Z) (x : A) : res (list A) :=
  k ← py_index (length l) i;
  Ok (<[k := x]> l).

(** [range(n)] *)
Definition py_range (n : nat) : list Z := seqZ 0 (Z.of_nat n).

Abbreviation Matrix := (list (list Z)).

(** [m[i][j]] *)
Definition mat_get (m : Matrix) (i j : Z) : res Z :=
  row ← py_get m i; py_get row j.

(** [m[i][j] = x]: the row object [m[i]] is updated in place.  The rows of
    the matrices written to are distinct objects (built by a comprehension),
    so writing the row back at its index is the same store update. *)
Definition mat_set (m : Matrix) (i j : Z) (x : Z) : res Matrix :=
  row ← py_get m i;
  row' ← py_set row j x;
  py_set m i row'.

(** [[[0] * n for _ in range(n)]] *)
Definition zero_matrix (n : nat) : Matrix := replicate n (replicate n 0).

(** ** [edmonds_karp.py] *)

Module EK.

(** The local state of [bfs]: [visited], [queue], and the caller's [parent]
    list, which [bfs] mutates. *)
Record bfs_state : Type := BfsState {
  visited : list bool;
  queue : list Z;
  parent : list Z;
}.

(** The body of [for neighbor in range(num_nodes)] for one dequeued
    [current_node]; the boolean tells whether [return True] was taken. *)
Fixpoint bfs_neighbors (capacity_matrix flow_matrix : Matrix) (sink current_node : Z)
    (neighbors : list Z) (st : bfs_state) : res (bool * bfs_state) :=
  match neighbors with
  | [] => Ok (false, st)
  | neighbor :: rest =>
      c ← mat_get capacity_matrix current_node neighbor;
      f ← mat_get flow_matrix current_node neighbor;
      let residual_capacity := c - f in
      v ← py_get (visited st) neighbor;
      if negb v && bool_decide (residual_capacity > 0) then
        parent' ← py_set (parent st) neighbor current_node;
        visited' ← py_set (visited st) neighbor true;
        if bool_decide (neighbor = sink) then
          Ok (true, BfsState visited' (queue st) parent')
        else
          bfs_neighbors capacity_matrix flow_matrix sink current_node rest
            (BfsState visited' (queue st ++ [neighbor]) parent')
      else
        bfs_neighbors capacity_matrix flow_matrix sink current_node rest st
  end.

(** [while queue: ...] *)
Fixpoint bfs_loop (fuel : nat) (capacity_matrix flow_matrix : Matrix) (sink : Z)
    (num_nodes : nat) (st : bfs_state) : res (bool * bfs_state) :=
  match fuel with
  | O => OutOfFuel
  | S fuel' =>
      match queue st with
      | [] => Ok (false, st)
      | current_node :: queue' =>
          '(found, st') ← bfs_neighbors capacity_matrix flow_matrix sink current_node
                (py_range num_nodes) (BfsState (visited st) queue' (parent st));
          if found : bool then Ok (true, st')
          else bfs_loop fuel' capacity_matrix flow_matrix sink num_nodes st'
      end
  end.

(** [bfs]: returns the boolean together with the final local state; the
    caller sees [parent] of that state. *)
Definition bfs_run (fuel : nat) (capacity_matrix flow_matrix : Matrix)
    (source sink : Z) (parent : list Z) : res (bool * bfs_state) :=
  let num_nodes := length capacity_matrix in
  let visited := replicate num_nodes false in
  let queue := [source] in
  visited ← py_set visited source true;
  bfs_loop fuel capacity_matrix flow_matrix sink num_nodes
    (BfsState visited queue parent).

Definition bfs (fuel : nat) (capacity_matrix flow_matrix : Matrix)
    (source sink : Z) (parent : list Z) : res (bool * list Z) :=
  '(found, st) ← bfs_run fuel capacity_matrix flow_matrix source sink parent;
  Ok (found, EK.parent st).

(** [path_flow]: [float('Inf')] or an integer. *)
Inductive path_flow_t : Type :=
  | Inf
  | Fin (z : Z).

(** [min(path_flow, residual_capacity)] *)
Definition min_flow (path_flow : path_flow_t) (residual_capacity : Z) : path_flow_t :=
  match path_flow with
  | Inf => Fin residual_capacity
  | Fin p => Fin (Z.min p residual_capacity)
  end.

(** The first [while current_node != source] loop: bottleneck and path. *)
Fixpoint find_bottleneck (fuel : nat) (capacity_matrix flow_matrix : Matrix)
    (parent : list Z) (source current_node : Z)
    (path_flow : path_flow_t) (path : list Z) : res (path_flow_t * list Z) :=
  if bool_decide (current_node ≠ source) then
    match fuel with
    | O => OutOfFuel
    | S fuel' =>
        previous_node ← py_get parent current_node;
        c ← mat_get capacity_matrix previous_node current_node;
        f ← mat_get flow_matrix previous_node current_node;
        let residual_capacity := c - f in
        find_bottleneck fuel' capacity_matrix flow_matrix parent source previous_node
          (min_flow path_flow residual_capacity) (path ++ [previous_node])
    end
  else Ok (path_flow, path).

(** The second [while current_node != source] loop: push the flow. *)
Fixpoint update_flow (fuel : nat) (flow_matrix : Matrix) (parent : list Z)
    (source current_node : Z) (path_flow : Z) : res Matrix :=
  if bool_decide (current_node ≠ source) then
    match fuel with
    | O => OutOfFuel
    | S fuel' =>
        previous_node ← py_get parent current_node;
        x ← mat_get flow_matrix previous_node current_node;
        flow_matrix ← mat_set flow_matrix previous_node current_node (x + path_flow);
        y ← mat_get flow_matrix current_node previous_node;
        flow_matrix ← mat_set flow_matrix current_node previous_node (y - path_flow);
        update_flow fuel' flow_matrix parent source previous_node path_flow
    end
  else Ok flow_matrix.

(** One entry of [path_history]. *)
Record path_record : Type := PathRecord {
  path : list Z;
  flow : Z;
}.

(** The variables of [edmonds_karp] that live across iterations. *)
Record state : Type := State {
  flow_matrix : Matrix;
  st_parent : list Z;
  max_flow : Z;
  path_history : list path_record;
}.

(** One evaluation of the [while bfs(...)] condition followed, when it holds,
    by the loop body.  [None]: the condition was false; [parent], which that
    last [bfs] still wrote to, is not read again. *)
Definition iteration (fuel : nat) (capacity_matrix : Matrix) (source sink : Z)
    (st : state) : res (option state) :=
  '(found, parent) ← bfs fuel capacity_matrix (flow_matrix st) source sink (st_parent st);
  if found : bool then
    '(path_flow, path) ← find_bottleneck fuel capacity_matrix (flow_matrix st) parent
                           source sink Inf [sink];
    let path := reverse path in
    match path_flow with
    | Inf => Raise FloatInf
    | Fin path_flow =>
        flow_matrix' ← update_flow fuel (flow_matrix st) parent source sink path_flow;
        Ok (Some (State flow_matrix' parent (max_flow st + path_flow)
                    (path_history st ++ [PathRecord path path_flow])))
    end
  else Ok None.

Fixpoint main_loop (fuel : nat) (fuel_inner : nat) (capacity_matrix : Matrix)
    (source sink : Z) (st : state) : res state :=
  match fuel with
  | O => OutOfFuel
  | S fuel' =>
      r ← iteration fuel_inner capacity_matrix source sink st;
      match r with
      | Some st' => main_loop fuel' fuel_inner capacity_matrix source sink st'
      | None => Ok st
      end
  end.

Definition initial_state (capacity_matrix : Matrix) : state :=
  let num_nodes := length capacity_matrix in
  State (zero_matrix num_nodes) (replicate num_nodes (-1)) 0 [].

(** [edmonds_karp]: every loop of the run may take at most [fuel] turns. *)
Definition edmonds_karp (fuel : nat) (capacity_matrix : Matrix) (source sink : Z)
    : res (Z * Matrix * list path_record) :=
  st ← main_loop fuel fuel capacity_matrix source sink (initial_state capacity_matrix);
  Ok (max_flow st, flow_matrix st, path_history st).

End EK.

(** ** Binary64 arithmetic of [round(a / b * 100)]

    Python divides two integers into a float rounded once from the exact
    quotient, multiplies floats as IEEE 754 binary64 does, and rounds a float
    to the nearest integer, ties to even.  [SpecFloat] is the Standard
    Library's executable specification of binary64. *)

Module Float.

Definition prec : Z := 53.
Definition emax : Z := 1024.

(** An integer as the operand of a division: sign and magnitude, scale 0. *)
Definition operand (z : Z) : spec_float :=
  match z with
  | Z0 => S754_zero false
  | Zpos m => S754_finite false m 0
  | Zneg m => S754_finite true m 0
  end.

(** [float(z)] *)
Definition of_int (z : Z) : spec_float := binary_normalize prec emax z 0 false.

(** [a / b] for integers [a] and [b]. *)
Definition true_div (a b : Z) : res spec_float :=
  if bool_decide (b = 0) then Raise ZeroDivisionError
  else
    match SFdiv prec emax (operand a) (operand b) with
    | S754_infinity _ => Raise OverflowError
    | q => Ok q
    end.

(** [x * y] for floats. *)
Definition mul (x y : spec_float) : spec_float := SFmul prec emax x y.

(** The integer nearest to [m * 2^e], ties to even. *)
Definition round_half_even (m e : Z) : Z :=
  if bool_decide (0 ≤ e) then m * 2 ^ e
  else
    let d := 2 ^ (- e) in
    let q := m `div` d in
    let r := m `mod` d in
    if bool_decide (2 * r < d) then q
    else if bool_decide (d < 2 * r) then q + 1
    else if Z.even q then q else q + 1.

(** [round(x)] for a float [x]. *)
Definition round (x : spec_float) : res Z :=
  match x with
  | S754_zero _ => Ok 0
  | S754_infinity _ => Raise OverflowError
  | S754_nan => Raise ValueError
  | S754_finite s m e =>
      let v := round_half_even (Zpos m) e in
      Ok (if s then - v else v)
  end.

(** An integer as the operand of a float operation: it is converted first,
    and too large an integer raises [OverflowError]. *)
Definition int_operand (z : Z) : res spec_float :=
  match of_int z with
  | S754_infinity _ => Raise OverflowError
  | x => Ok x
  end.

End Float.

(** ** Python loops and dictionaries *)

(** [for x in l: body], threading the variables the body assigns. *)
Fixpoint py_for {A S} (l : list A) (body : A → S → res S) (st : S) : res S :=
  match l with
  | [] => Ok st
  | x :: l' => st' ← body x st; py_for l' body st'
  end.

(** [d[k]] *)
Definition dict_get {V} (d : gmap string V) (k : string) : res V :=
  match d !! k with
  | Some v => Ok v
  | None => Raise KeyError
  end.

(** A dictionary whose order of insertion is observed, as a list of items.
    [d[k] = v] replaces the value of a key already present, where it stands,
    and appends a new key. *)
Fixpoint odict_set `{EqDecision K} {V} (d : list (K * V)) (k : K) (v : V)
    : list (K * V) :=
  match d with
  | [] => [(k, v)]
  | (k', v') :: d' =>
      if decide (k' = k) then (k', v) :: d' else (k', v') :: odict_set d' k v
  end.

(** [d[k]] on such a dictionary. *)
Fixpoint odict_get `{EqDecision K} {V} (d : list (K * V)) (k : K) : res V :=
  match d with
  | [] => Raise KeyError
  | (k', v) :: d' => if decide (k' = k) then Ok v else odict_get d' k
  end.

(** [{k: v for k, v in items}] *)
Definition dict_of_items `{EqDecision K} {V} (items : list (K * V)) : list (K * V) :=
  foldl (λ d p, odict_set d p.1 p.2) [] items.

(** [sum(l)] on a list of integers. *)
Definition py_sum (l : list Z) : Z := foldl Z.add 0 l.

(** [sorted(l, key=key)].  Python's sort is stable, which fixes its result:
    the ascending arrangement that keeps items of equal key in their original
    order.  Insertion from the right, each item placed before the first one
    whose key is not smaller, computes that arrangement. *)
Fixpoint insert_sorted {A} (key : A → Z) (x : A) (l : list A) : list A :=
  match l with
  | [] => [x]
  | y :: l' => if bool_decide (key y < key x) then y :: insert_sorted key x l' else x :: l
  end.
Definition py_sorted {A} (key : A → Z) (l : list A) : list A :=
  foldr (insert_sorted key) [] l.

(** ** [logistics_network.py] *)

Module Net.

Definition terminals : list string := ["Термінал 1"; "Термінал 2"].
Definition warehouses : list string := ["Склад 1"; "Склад 2"; "Склад 3"; "Склад 4"].
(** [[f"Магазин {i}" for i in range(1, 15)]] *)
Definition stores : list string := (λ i : Z, "Магазин " +:+ pretty i) <$> seqZ 1 14.

Definition edges : list (string * string * Z) :=
  [ ("Термінал 1", "Склад 1", 25);
    ("Термінал 1", "Склад 2", 20);
    ("Термінал 1", "Склад 3", 15);
    ("Термінал 2", "Склад 3", 15);
    ("Термінал 2", "Склад 4", 30);
    ("Термінал 2", "Склад 2", 10);
    ("Склад 1", "Магазин 1", 15);
    ("Склад 1", "Магазин 2", 10);
    ("Склад 1", "Магазин 3", 20);
    ("Склад 2", "Магазин 4", 15);
    ("Склад 2", "Магазин 5", 10);
    ("Склад 2", "Магазин 6", 25);
    ("Склад 3", "Магазин 7", 20);
    ("Склад 3", "Магазин 8", 15);
    ("Склад 3", "Магазин 9", 10);
    ("Склад 4", "Магазин 10", 20);
    ("Склад 4", "Магазин 11", 10);
    ("Склад 4", "Магазин 12", 15);
    ("Склад 4", "Магазин 13", 5);
    ("Склад 4", "Магазин 14", 10) ].

(** [{node: i for i, node in enumerate(nodes)}]: a later duplicate would
    overwrite an earlier one. *)
Definition index_nodes (nodes : list string) : gmap string Z :=
  foldl (λ d p, <[p.2 := p.1]> d) ∅ (zip (py_range (length nodes)) nodes).

Definition build_logistics_network : res (list string * gmap string Z * Matrix) :=
  let nodes := terminals ++ warehouses ++ stores in
  let node_indices := index_nodes nodes in
  let n := length nodes in
  let capacity_matrix := zero_matrix n in
  capacity_matrix ←
    py_for edges (λ '(from_node, to_node, capacity) capacity_matrix,
      from_idx ← dict_get node_indices from_node;
      to_idx ← dict_get node_indices to_node;
      mat_set capacity_matrix from_idx to_idx capacity) capacity_matrix;
  Ok (nodes, node_indices, capacity_matrix).

(** One value of [warehouse_utilization]. *)
Record utilization : Type := Utilization {
  inflow : Z;
  outflow : Z;
  in_capacity : Z;
  out_capacity : Z;
  in_utilization : Z;
  out_utilization : Z;
}.

(** [sum(m[i][w_idx] for i in range(n) if i != w_idx)] *)
Definition sum_into (m : Matrix) (n : nat) (w_idx : Z) : res Z :=
  py_for (py_range n) (λ i acc,
    if bool_decide (i ≠ w_idx) then x ← mat_get m i w_idx; Ok (acc + x)
    else Ok acc) 0.

(** [sum(m[w_idx][j] for j in range(n) if j != w_idx)] *)
Definition sum_out_of (m : Matrix) (n : nat) (w_idx : Z) : res Z :=
  py_for (py_range n) (λ j acc,
    if bool_decide (j ≠ w_idx) then x ← mat_get m w_idx j; Ok (acc + x)
    else Ok acc) 0.

(** [round(amount / total * 100) if total > 0 else 0] *)
Definition utilization_percent (amount total : Z) : res Z :=
  if bool_decide (total > 0) then
    q ← Float.true_div amount total;
    Float.round (Float.mul q (Float.of_int 100))
  else Ok 0.

(** The body of [for w in [...]] in [analyze_network], after [w_idx] is
    looked up. *)
Definition warehouse_record (capacity_matrix flow_matrix : Matrix) (n : nat)
    (w_idx : Z) : res utilization :=
  inflow ← sum_into flow_matrix n w_idx;
  outflow ← sum_out_of flow_matrix n w_idx;
  total_in_capacity ← sum_into capacity_matrix n w_idx;
  total_out_capacity ← sum_out_of capacity_matrix n w_idx;
  in_utilization ← utilization_percent inflow total_in_capacity;
  out_utilization ← utilization_percent outflow total_out_capacity;
  Ok (Utilization inflow outflow total_in_capacity total_out_capacity
        in_utilization out_utilization).

(** The [warehouse_utilization] dictionary of [analyze_network]; the blocks
    of the function before it only read the matrices. *)
Definition warehouse_utilization (capacity_matrix flow_matrix : Matrix)
    (nodes : list string) (node_indices : gmap string Z)
    : res (gmap string utilization) :=
  py_for warehouses (λ w warehouse_utilization,
    w_idx ← dict_get node_indices w;
    r ← warehouse_record capacity_matrix flow_matrix (length nodes) w_idx;
    Ok (<[w := r]> warehouse_utilization)) ∅.

(** The [bottlenecks] list of [analyze_network]: [and] reads the flow entry
    only where the capacity is positive. *)
Definition find_bottlenecks (capacity_matrix flow_matrix : Matrix)
    (nodes : list string) : res (list (string * string * Z)) :=
  py_for (py_range (length nodes)) (λ i bottlenecks,
    py_for (py_range (length nodes)) (λ j bottlenecks,
      c ← mat_get capacity_matrix i j;
      if bool_decide (c > 0) then
        f ← mat_get flow_matrix i j;
        c ← mat_get capacity_matrix i j;
        if bool_decide (f = c) then
          from_node ← py_get nodes i;
          to_node ← py_get nodes j;
          c ← mat_get capacity_matrix i j;
          Ok (bottlenecks ++ [(from_node, to_node, c)])
        else Ok bottlenecks
      else Ok bottlenecks) bottlenecks) [].

(** The [terminal_outflows] dictionary: [sum(flow_matrix[t_idx])]. *)
Definition sum_terminal_outflows (flow_matrix : Matrix) (node_indices : gmap string Z)
    : res (list (string * Z)) :=
  py_for terminals (λ t terminal_outflows,
    t_idx ← dict_get node_indices t;
    row ← py_get flow_matrix t_idx;
    let outflow := py_sum row in
    Ok (odict_set terminal_outflows t outflow)) [].

(** The [store_inflows] dictionary before it is sorted:
    [sum(flow_matrix[i][s_idx] for i in range(len(nodes)))]. *)
Definition sum_store_inflows (flow_matrix : Matrix) (nodes : list string)
    (node_indices : gmap string Z) : res (list (string * Z)) :=
  py_for stores (λ s store_inflows,
    s_idx ← dict_get node_indices s;
    inflow ← py_for (py_range (length nodes)) (λ i acc,
               x ← mat_get flow_matrix i s_idx; Ok (acc + x)) 0;
    Ok (odict_set store_inflows s inflow)) [].

(** The dictionary that [analyze_network] returns, one field per key;
    [warehouse_records] is the value of the key "warehouse_utilization". *)
Record analysis : Type := Analysis {
  bottlenecks : list (string * string * Z);
  terminal_outflows : list (string * Z);
  store_inflows : list (string * Z);
  warehouse_records : gmap string utilization;
  paths : list EK.path_record;
}.

Definition analyze_network (capacity_matrix flow_matrix : Matrix)
    (nodes : list string) (node_indices : gmap string Z)
    (path_history : list EK.path_record) : res analysis :=
  bottlenecks ← find_bottlenecks capacity_matrix flow_matrix nodes;
  terminal_outflows ← sum_terminal_outflows flow_matrix node_indices;
  store_inflows ← sum_store_inflows flow_matrix nodes node_indices;
  let sorted_inflows := dict_of_items (py_sorted snd store_inflows) in
  warehouse_utilization ←
    warehouse_utilization capacity_matrix flow_matrix nodes node_indices;
  Ok (Analysis bottlenecks terminal_outflows sorted_inflows warehouse_utilization
        path_history).

(** [{(t, s): 0 for t in terminals for s in stores}] *)
Definition zero_flows : list (string * string * Z) :=
  dict_of_items ((λ p, (p, 0)) <$> list_prod terminals stores).

(** The first loop of [calculate_terminal_to_store_flow]: for every
    warehouse, the terminals that send it flow. *)
Definition warehouse_inflows (flow_matrix : Matrix) (node_indices : gmap string Z)
    : res (list (string * list (string * Z))) :=
  py_for warehouses (λ w warehouse_inflows,
    w_idx ← dict_get node_indices w;
    let warehouse_inflows := odict_set warehouse_inflows w [] in
    py_for terminals (λ t warehouse_inflows,
      t_idx ← dict_get node_indices t;
      x ← mat_get flow_matrix t_idx w_idx;
      if bool_decide (x > 0) then
        x ← mat_get flow_matrix t_idx w_idx;
        inflows ← odict_get warehouse_inflows w;
        Ok (odict_set warehouse_inflows w (odict_set inflows t x))
      else Ok warehouse_inflows) warehouse_inflows) [].

(** The body of [for t, terminal_flow in warehouse_inflows[w].items()]. *)
Definition attribute (s : string) (store_flow total_outflow : Z)
    (item : string * Z) (terminal_store_flows : list (string * string * Z))
    : res (list (string * string * Z)) :=
  let '(t, terminal_flow) := item in
  proportion ← Float.true_div store_flow total_outflow;
  terminal_flow ← Float.int_operand terminal_flow;
  t_to_s_flow ← Float.round (Float.mul proportion terminal_flow);
  if bool_decide (t_to_s_flow > 0) then
    old ← odict_get terminal_store_flows (t, s);
    Ok (odict_set terminal_store_flows (t, s) (old + t_to_s_flow))
  else Ok terminal_store_flows.

(** The second loop: each warehouse's flow to a store is split among the
    terminals in proportion. *)
Definition distribute (flow_matrix : Matrix) (node_indices : gmap string Z)
    (warehouse_inflows : list (string * list (string * Z)))
    (terminal_store_flows : list (string * string * Z))
    : res (list (string * string * Z)) :=
  py_for warehouses (λ w terminal_store_flows,
    w_idx ← dict_get node_indices w;
    total_outflow ← py_for stores (λ s acc,
                      row ← py_get flow_matrix w_idx;
                      s_idx ← dict_get node_indices s;
                      x ← py_get row s_idx;
                      Ok (acc + x)) 0;
    if bool_decide (total_outflow > 0) then
      py_for stores (λ s terminal_store_flows,
        s_idx ← dict_get node_indices s;
        store_flow ← mat_get flow_matrix w_idx s_idx;
        if bool_decide (store_flow > 0) then
          inflows ← odict_get warehouse_inflows w;
          py_for inflows (attribute s store_flow total_outflow) terminal_store_flows
        else Ok terminal_store_flows) terminal_store_flows
    else Ok terminal_store_flows) terminal_store_flows.

Definition calculate_terminal_to_store_flow (flow_matrix : Matrix)
    (node_indices : gmap string Z) : res (list (string * string * Z)) :=
  let terminal_store_flows := zero_flows in
  warehouse_inflows ← warehouse_inflows flow_matrix node_indices;
  terminal_store_flows ←
    distribute flow_matrix node_indices warehouse_inflows terminal_store_flows;
  Ok (filter (λ item, item.2 > 0) terminal_store_flows).

(** [get_edges_from_matrix] *)
Definition get_edges_from_matrix (capacity_matrix : Matrix) (nodes : list string)
    : res (list (string * string * Z)) :=
  py_for (py_range (length nodes)) (λ i edges,
    py_for (py_range (length nodes)) (λ j edges,
      c ← mat_get capacity_matrix i j;
      if bool_decide (c > 0) then
        from_node ← py_get nodes i;
        to_node ← py_get nodes j;
        c ← mat_get capacity_matrix i j;
        Ok (edges ++ [(from_node, to_node, c)])
      else Ok edges) edges) [].

End Net.

(** ** [task1.py]: wiring the super-source and the super-sink *)

Module Task1.

(** The zero matrix of size [n + 2] with the original entries copied in. *)
Definition extend_capacity (n : nat) (capacity_matrix : Matrix) : res Matrix :=
  let extended_capacity := zero_matrix (n + 2) in
  py_for (py_range n) (λ i extended_capacity,
    py_for (py_range n) (λ j extended_capacity,
      x ← mat_get capacity_matrix i j;
      mat_set extended_capacity i j x) extended_capacity) extended_capacity.

(** [for t in [...]: extended_capacity[super_source][t_idx] = 100] *)
Definition connect_super_source (node_indices : gmap string Z) (super_source : Z)
    (extended_capacity : Matrix) : res Matrix :=
  py_for Net.terminals (λ t extended_capacity,
    t_idx ← dict_get node_indices t;
    mat_set extended_capacity super_source t_idx 100) extended_capacity.

(** [for s in [...]: extended_capacity[s_idx][super_sink] = 100] *)
Definition connect_super_sink (node_indices : gmap string Z) (super_sink : Z)
    (extended_capacity : Matrix) : res Matrix :=
  py_for Net.stores (λ s extended_capacity,
    s_idx ← dict_get node_indices s;
    mat_set extended_capacity s_idx super_sink 100) extended_capacity.

(** Lines 31 to 52 of [main], as a function of the three values that
    [build_logistics_network] returned. *)
Definition augment (nodes : list string) (node_indices : gmap string Z)
    (capacity_matrix : Matrix) : res (Matrix * Z * Z) :=
  let n := length nodes in
  let super_source := Z.of_nat n in
  let super_sink := Z.of_nat n + 1 in
  extended_capacity ← extend_capacity n capacity_matrix;
  extended_capacity ← connect_super_source node_indices super_source extended_capacity;
  extended_capacity ← connect_super_sink node_indices super_sink extended_capacity;
  Ok (extended_capacity, super_source, super_sink).

(** [[row[:n] for row in flow_matrix[:n]]] *)
Definition trim (n : nat) (flow_matrix : Matrix) : Matrix :=
  (λ row : list Z, take n row) <$> take n flow_matrix.

(** [main] up to the solver's result and the trimmed flow matrix. *)
Definition solve (fuel : nat) : res (Z * Matrix * list EK.path_record * Matrix) :=
  '(nodes, node_indices, capacity_matrix) ← Net.build_logistics_network;
  '(extended_capacity, super_source, super_sink) ←
    augment nodes node_indices capacity_matrix;
  '(max_flow, flow_matrix, path_history) ←
    EK.edmonds_karp fuel extended_capacity super_source super_sink;
  let original_flow_matrix := trim (length nodes) flow_matrix in
  Ok (max_flow, flow_matrix, path_history, original_flow_matrix).

(** What [main] hands to [generate_report]. *)
Record report_inputs : Type := ReportInputs {
  max_flow : Z;
  analysis : Net.analysis;
  terminal_to_store_flows : list (string * string * Z);
  edges : list (string * string * Z);
}.

(** Lines 29 to 64 of [main], as a function of the three values that
    [build_logistics_network] returned. *)
Definition analyse (fuel : nat) (nodes : list string) (node_indices : gmap string Z)
    (capacity_matrix : Matrix) : res report_inputs :=
  edges ← Net.get_edges_from_matrix capacity_matrix nodes;
  '(extended_capacity, super_source, super_sink) ←
    augment nodes node_indices capacity_matrix;
  '(max_flow, flow_matrix, path_history) ←
    EK.edmonds_karp fuel extended_capacity super_source super_sink;
  let original_flow_matrix := trim (length nodes) flow_matrix in
  terminal_to_store_flows ←
    Net.calculate_terminal_to_store_flow original_flow_matrix node_indices;
  analysis ←
    Net.analyze_network capacity_matrix original_flow_matrix nodes node_indices
      path_history;
  Ok (ReportInputs max_flow analysis terminal_to_store_flows edges).

(** [main] up to the call of [generate_report]. *)
Definition main (fuel : nat) : res report_inputs :=
  '(nodes, node_indices, capacity_matrix) ← Net.build_logistics_network;
  analyse fuel nodes node_indices capacity_matrix.

End Task1.

(** ** Vocabulary of the specification *)

(** Total readings of a list and of a matrix at non-negative positions,
    used to state properties; they agree with [py_get] and [mat_get]
    wherever those return. *)
Definition nthZ {A} (d : A) (l : list A) (i : Z) : A := default d (l !! Z.to_nat i).
Definition entry (m : Matrix) (i j : Z) : Z := nthZ 0 (nthZ [] m i) j.

(** [m] is an [n] by [n] matrix. *)
Definition square (n : nat) (m : Matrix) : Prop :=
  length m = n ∧ Forall (λ row, length row = n) m.

(** All entries of [m] are non-negative. *)
Definition nonneg (m : Matrix) : Prop :=
  Forall (Forall (λ x, 0 ≤ x)) m.

(** [Σ_{v ∈ l} f v] *)
Definition sum_over (l : list Z) (f : Z → Z) : Z := foldr (λ v acc, f v + acc) 0 l.

(** The matrix after [m[i][j] = x]. *)
Definition mat_upd (m : Matrix) (i j x : Z) : Matrix :=
  <[Z.to_nat i := <[Z.to_nat j := x]> (nthZ [] m i)]> m.

(** [Σ_{i ∈ S} Σ_{j ∉ S} h i j] *)
Definition across (nodes : list Z) (S : Z → bool) (h : Z → Z → Z) : Z :=
  sum_over nodes (λ i,
    if S i then sum_over nodes (λ j, if S j then 0 else h i j) else 0).

(** [v] is a node index of an [n]-node graph. *)
Definition node (n : nat) (v : Z) : Prop := 0 ≤ v < Z.of_nat n.

(** [capacity[u][v] - flow[u][v]] *)
Definition residual (cap flow : Matrix) (u v : Z) : Z := entry cap u v - entry flow u v.

(** [p] continues a walk that stands at [u] along edges of positive residual
    capacity. *)
Fixpoint residual_chain (n : nat) (cap flow : Matrix) (u : Z) (p : list Z) : Prop :=
  match p with
  | [] => True
  | v :: p' => node n v ∧ residual cap flow u v > 0 ∧ residual_chain n cap flow v p'
  end.

(** [p] lists the nodes of a walk from [s] to [t] whose every edge has
    positive residual capacity; it has [length p - 1] edges. *)
Definition augmenting_path (n : nat) (cap flow : Matrix) (s t : Z) (p : list Z) : Prop :=
  ∃ p', p = s :: p' ∧ node n s ∧ residual_chain n cap flow s p' ∧ last p = Some t.

(** The number of [false] entries of [visited]. *)
Fixpoint count_false (l : list bool) : nat :=
  match l with
  | [] => 0
  | b :: l' => (if b then 0 else 1) + count_false l'
  end.

(** The queue is ordered by the depth [d]. *)
Fixpoint sorted_by (d : Z → nat) (q : list Z) : Prop :=
  match q with
  | [] => True
  | x :: q' => (∀ y, y ∈ q' → (d x ≤ d y)%nat) ∧ sorted_by d q'
  end.

(** *** What [bfs] maintains

    [bfs] is run on square matrices with [s] and [t] in range and distinct.
    The search keeps a tree of parent links rooted at the source; [d] is the
    depth of a visited node in that tree and [c] the depth of the node being
    expanded. *)

(** [k] residual edges lead from the source [s] to [x]. *)
Inductive walk (n : nat) (cap flow : Matrix) (s : Z) : nat → Z → Prop :=
  | walk_source : walk n cap flow s 0 s
  | walk_step k y x :
      walk n cap flow s k y → node n x → residual cap flow y x > 0 →
      walk n cap flow s (S k) x.

(** [l] follows the parent links from [v] back to the source. *)
Inductive tree_path (n : nat) (cap flow : Matrix) (s : Z) (par : list Z)
    : Z → list Z → Prop :=
  | tree_path_source : tree_path n cap flow s par s [s]
  | tree_path_step v l :
      v ≠ s → node n v → residual cap flow (nthZ 0 par v) v > 0 →
      tree_path n cap flow s par (nthZ 0 par v) l →
      tree_path n cap flow s par v (v :: l).

(** [v] is a node marked in [visited]. *)
Definition vis (n : nat) (visited : list bool) (v : Z) : Prop :=
  node n v ∧ nthZ false visited v = true.

(** Every residual edge out of [x] ends at a visited node at most one level
    deeper. *)
Definition closed (n : nat) (cap flow : Matrix) (d : Z → nat)
    (visited : list bool) (x : Z) : Prop :=
  ∀ v, node n v → residual cap flow x v > 0 →
       vis n visited v ∧ (d v ≤ S (d x))%nat.

Record base_inv (n : nat) (cap flow : Matrix) (s t : Z)
    (d : Z → nat) (c : nat) (st : EK.bfs_state) : Prop := {
  bi_len_vis : length (EK.visited st) = n;
  bi_len_par : length (EK.parent st) = n;
  bi_source : vis n (EK.visited st) s;
  bi_source_depth : d s = O;
  bi_sink : ¬ vis n (EK.visited st) t;
  bi_queue : ∀ q, q ∈ EK.queue st →
    vis n (EK.visited st) q ∧ (c ≤ d q ≤ S c)%nat;
  bi_sorted : sorted_by d (EK.queue st);
  bi_done_depth : ∀ x, vis n (EK.visited st) x → x ∉ EK.queue st → (d x ≤ c)%nat;
  bi_tree : ∀ v, vis n (EK.visited st) v →
    ∃ l, tree_path n cap flow s (EK.parent st) v l ∧ length l = S (d v) ∧ NoDup l
         ∧ ∀ x, x ∈ l → vis n (EK.visited st) x;
}.

(** At the head of [while queue]. *)
Definition outer_inv (n : nat) (cap flow : Matrix) (s t : Z)
    (d : Z → nat) (c : nat) (st : EK.bfs_state) : Prop :=
  base_inv n cap flow s t d c st
  ∧ ∀ x, vis n (EK.visited st) x → x ∉ EK.queue st →
         closed n cap flow d (EK.visited st) x.

(** Inside [for neighbor in range(num_nodes)] for the dequeued [u], with
    the neighbours in [rest] still to come. *)
Definition inner_inv (n : nat) (cap flow : Matrix) (s t : Z)
    (d : Z → nat) (c : nat) (u : Z) (rest : list Z) (st : EK.bfs_state) : Prop :=
  base_inv n cap flow s t d c st
  ∧ vis n (EK.visited st) u ∧ d u = c
  ∧ (∀ x, vis n (EK.visited st) x → x ∉ EK.queue st → x ≠ u →
          closed n cap flow d (EK.visited st) x)
  ∧ (∀ v, node n v → v ∉ rest → residual cap flow u v > 0 →
          vis n (EK.visited st) v ∧ (d v ≤ S c)%nat).

(** What [bfs] has established when it returns [True] ... *)
Definition found_post (n : nat) (cap flow : Matrix) (s t : Z) (par : list Z) : Prop :=
  ∃ l, tree_path n cap flow s par t l ∧ NoDup l
       ∧ ∀ k, walk n cap flow s k t → (length l ≤ S k)%nat.

(** ... and when it returns [False]. *)
Definition not_found_post (n : nat) (cap flow : Matrix) (s t : Z)
    (visited : list bool) : Prop :=
  length visited = n ∧ vis n visited s ∧ ¬ vis n visited t
  ∧ ∀ x v, vis n visited x → node n v → residual cap flow x v > 0 → vis n visited v.

(** Unvisited nodes plus queued nodes: the turns [while queue] has left. *)
Definition bfs_measure (st : EK.bfs_state) : nat :=
  (count_false (EK.visited st) + length (EK.queue st))%nat.

(** How often the edge [i → j] occurs on the path whose nodes, from its end
    back to the source, are [l]. *)
Fixpoint cnt (l : list Z) (i j : Z) : Z :=
  match l with
  | [] => 0
  | x :: l' =>
      match l' with
      | [] => 0
      | u :: _ => (if decide (i = u ∧ j = x) then 1 else 0) + cnt l' i j
      end
  end.

(** The value of [path_flow] after the first walk over [l]. *)
Fixpoint min_residual (cap flow : Matrix) (pf : EK.path_flow_t) (l : list Z)
    : EK.path_flow_t :=
  match l with
  | [] => pf
  | x :: l' =>
      match l' with
      | [] => pf
      | u :: _ => min_residual cap flow (EK.min_flow pf (residual cap flow u x)) l'
      end
  end.

(** [u → v] is an edge of the path [p]. *)
Definition edge_of (p : list Z) (u v : Z) : Prop := ∃ p1 p2, p = p1 ++ u :: v :: p2.

(** [b] is the minimum residual capacity over the edges of [p]. *)
Definition is_bottleneck (cap flow : Matrix) (p : list Z) (b : Z) : Prop :=
  (∃ u v, edge_of p u v ∧ b = residual cap flow u v)
  ∧ ∀ u v, edge_of p u v → b ≤ residual cap flow u v.

(** Total outflow recorded in row [i] and total inflow recorded in column
    [j] of an [n] by [n] matrix. *)
Definition row_sum (n : nat) (m : Matrix) (i : Z) : Z :=
  sum_over (py_range n) (entry m i).
Definition col_sum (n : nat) (m : Matrix) (j : Z) : Z :=
  sum_over (py_range n) (λ i, entry m i j).

(** What holds of the solver's variables between iterations. *)
Record flow_inv (n : nat) (cap : Matrix) (s t : Z) (st : EK.state) : Prop := {
  fi_square : square n (EK.flow_matrix st);
  fi_parent : length (EK.st_parent st) = n;
  fi_antisym : ∀ i j, node n i → node n j →
    entry (EK.flow_matrix st) i j = - entry (EK.flow_matrix st) j i;
  fi_bounded : ∀ i j, node n i → node n j →
    entry (EK.flow_matrix st) i j ≤ entry cap i j;
  fi_conserve : ∀ i, node n i → i ≠ s → i ≠ t →
    row_sum n (EK.flow_matrix st) i = 0;
  fi_value : row_sum n (EK.flow_matrix st) s = EK.max_flow st;
}.

(** One turn of the loop from [st] to [st']: the record appended to the
    trace, its bottleneck, and the shortest-path property. *)
Definition step_post (n : nat) (cap : Matrix) (s t : Z) (st st' : EK.state) : Prop :=
  ∃ p b,
    EK.path_history st' = EK.path_history st ++ [EK.PathRecord p b]
    ∧ EK.max_flow st' = EK.max_flow st + b
    ∧ 1 ≤ b
    ∧ is_bottleneck cap (EK.flow_matrix st) p b
    ∧ augmenting_path n cap (EK.flow_matrix st) s t p
    ∧ ∀ q, augmenting_path n cap (EK.flow_matrix st) s t q →
           (length p ≤ length q)%nat.

(** The loop is left at [st]: the nodes [bfs] visited are closed under
    residual edges and do not contain the sink. *)
Definition exit_post (n : nat) (cap : Matrix) (s t : Z) (st : EK.state) : Prop :=
  ∃ visited, not_found_post n cap (EK.flow_matrix st) s t visited.

(** The contract of [edmonds_karp]: a square matrix of non-negative
    capacities and two distinct node indices in range. *)
Definition valid_input (n : nat) (cap : Matrix) (s t : Z) : Prop :=
  square n cap ∧ nonneg cap ∧ node n s ∧ node n t ∧ s ≠ t.

(** Loop turns that are always enough: [bfs] needs at most [n], the path
    walks at most [n], and the main loop at most the capacity leaving the
    source. *)
Definition enough_fuel (n : nat) (cap : Matrix) (s : Z) : nat :=
  S (n + Z.to_nat (row_sum n cap s)).

(** The states of the solver's variables at the head of its loop. *)
Inductive reachable (cap : Matrix) (s t : Z) : EK.state → Prop :=
  | reachable_init : reachable cap s t (EK.initial_state cap)
  | reachable_step fuel st st' :
      reachable cap s t st →
      EK.iteration fuel cap s t st = Ok (Some st') →
      reachable cap s t st'.

(** A cut is a set of nodes holding the source and not the sink; its
    capacity is that of the edges leaving it. *)
Definition separates (s t : Z) (S : Z → bool) : Prop := S s = true ∧ S t = false.
Definition cut_capacity (n : nat) (cap : Matrix) (S : Z → bool) : Z :=
  across (py_range n) S (entry cap).

(** A flow in the textbook sense, and its value. *)
Definition feasible_flow (n : nat) (cap : Matrix) (s t : Z) (f : Matrix) : Prop :=
  square n f
  ∧ (∀ i j, node n i → node n j → 0 ≤ entry f i j ≤ entry cap i j)
  ∧ (∀ v, node n v → v ≠ s → v ≠ t → col_sum n f v = row_sum n f v).
Definition flow_value (n : nat) (f : Matrix) (s : Z) : Z :=
  row_sum n f s - col_sum n f s.

(** The units actually shipped: the positive entries of the solver's
    antisymmetric matrix. *)
Definition positive_part (g : Matrix) : Matrix :=
  (λ row : list Z, Z.max 0 <$> row) <$> g.
Definition inflow (n : nat) (g : Matrix) (v : Z) : Z := col_sum n (positive_part g) v.
Definition outflow (n : nat) (g : Matrix) (v : Z) : Z := row_sum n (positive_part g) v.

Fixpoint capacity_chain (n : nat) (cap : Matrix) (u : Z) (p : list Z) : Prop :=
  match p with
  | [] => True
  | v :: p' => node n v ∧ entry cap u v > 0 ∧ capacity_chain n cap v p'
  end.

(** [p] lists the nodes of a walk from [s] to [t] over edges of positive
    capacity. *)
Definition capacity_path (n : nat) (cap : Matrix) (s t : Z) (p : list Z) : Prop :=
  ∃ p', p = s :: p' ∧ capacity_chain n cap s p' ∧ last p = Some t.

(** ** Concrete networks used as instances *)

(** One edge of capacity 1 from node 0 to node 1. *)
Definition single_edge : Matrix := [[0; 1]; [0; 0]].

(** The diamond of the specification: S=0, A=1, B=2, T=3 with edges
    S→A 10, S→B 5, A→T 5, B→T 10. *)
Definition diamond : Matrix :=
  [[0; 10; 5; 0]; [0; 0; 0; 5]; [0; 0; 0; 10]; [0; 0; 0; 0]].

#[global] Instance valid_input_dec n cap s t : Decision (valid_input n cap s t).
Proof. unfold valid_input, square, nonneg, node. apply _. Defined.

(** Run one bind whose left side has returned. *)
Ltac step_ok := change (Ok ?x ≫= ?k) with (k x); cbv beta.

(** Decide a closed proposition by evaluation. *)
Ltac by_decide := apply (bool_decide_unpack _); vm_compute; exact I.

(** The state after the only augmentation on [single_edge]. *)
Definition single_edge_final : EK.state :=
  EK.State [[0; 1]; [-1; 0]] [-1; 0] 1 [EK.PathRecord [0; 1] 1].

(** [Σ_{i ≠ w} f i] over the nodes: a sum over all other nodes. *)
Definition sum_others (n : nat) (w : Z) (f : Z → Z) : Z :=
  sum_over (py_range n) (λ i, if decide (i = w) then 0 else f i).

(** The capacity matrix of the program's network, the solver's flow on it
    restricted to the original nodes, and the node list and index. *)
Definition logistics_nodes : list string :=
  Net.terminals ++ Net.warehouses ++ Net.stores.
Definition logistics_indices : gmap string Z := Net.index_nodes logistics_nodes.
Definition logistics_capacity : Matrix :=
  Eval vm_compute in
    match Net.build_logistics_network with
    | Ok (_, _, capacity_matrix) => capacity_matrix
    | _ => []
    end.
Definition logistics_flow : Matrix :=
  Eval vm_compute in
    match Task1.solve 300 with
    | Ok (_, _, _, original_flow_matrix) => original_flow_matrix
    | _ => []
    end.
Definition logistics_utilization : gmap string Net.utilization :=
  match Net.warehouse_utilization logistics_capacity logistics_flow
          logistics_nodes logistics_indices with
  | Ok m => m
  | _ => ∅
  end.

(** [i] is an index Python accepts for a list of length [len]. *)
Definition in_py_range (len : nat) (i : Z) : Prop := - Z.of_nat len ≤ i < Z.of_nat len.

(** The index that [node_indices] gives [name] lies within a list of length
    [N]. *)
Definition indexed_in_range (N : nat) (ni : gmap string Z) (name : string) : Prop :=
  match ni !! name with
  | Some i => in_py_range N i
  | None => False
  end.

#[global] Instance indexed_in_range_dec N ni name : Decision (indexed_in_range N ni name).
Proof. unfold indexed_in_range, in_py_range. destruct (ni !! name); apply _. Defined.

(** The program's index with the store "Магазин 1" given the index of the
    terminal "Термінал 1": the source and sink sets overlap. *)
Definition overlapping_indices : gmap string Z :=
  <["Магазин 1" := 0]> logistics_indices.

(** The program's index with "Термінал 1" given index 20, which is none of
    the 20 original nodes but the super-source itself. *)
Definition stray_indices : gmap string Z :=
  <["Термінал 1" := 20]> logistics_indices.

(** [r] is a returned value. *)
Definition succeeds {A} (r : res A) : bool :=
  match r with
  | Ok _ => true
  | _ => false
  end.

(** The extended matrix that [main] hands to the solver, and what the solver
    returns for it. *)
Definition logistics_extended : Matrix :=
  Eval vm_compute in
    match Task1.augment logistics_nodes logistics_indices logistics_capacity with
    | Ok (extended_capacity, _, _) => extended_capacity
    | _ => []
    end.
Definition logistics_result : Z * Matrix * list EK.path_record :=
  Eval vm_compute in
    match EK.edmonds_karp 300 logistics_extended 20 21 with
    | Ok r => r
    | _ => (0, [], [])
    end.

(** [Q] holds of the index of every name in [names]. *)
Definition indexed_all (ni : gmap string Z) (names : list string) (Q : Z → Prop) : Prop :=
  Forall (λ name, from_option Q False (ni !! name)) names.

#[global] Instance from_option_dec {A} (Q : A → Prop) (o : option A) :
  (∀ x, Decision (Q x)) → Decision (from_option Q False o).
Proof. intros HQ. destruct o; simpl; apply _. Defined.

#[global] Instance indexed_all_dec ni names (Q : Z → Prop) :
  (∀ x, Decision (Q x)) → Decision (indexed_all ni names Q).
Proof. intros HQ. unfold indexed_all. apply _. Defined.

(** [r] is no exception other than [IndexError]. *)
Definition only_index_error {A} (r : res A) : Prop :=
  ∀ e, r = Raise e → e = IndexError.

(** ** Vocabulary for the trace, the analysis and the report inputs *)

(** [p] lists distinct nodes, the first of them [s] and the last [t]. *)
Definition simple_path (n : nat) (s t : Z) (p : list Z) : Prop :=
  head p = Some s ∧ last p = Some t ∧ NoDup p ∧ Forall (node n) p.

(** The flow recorded in a trace: the sum of its [flow] fields. *)
Definition trace_flow (hist : list EK.path_record) : Z :=
  foldr (λ r acc, EK.flow r + acc) 0 hist.

(** The edges of the [n] by [n] matrix [cap] that [keep] selects, named after
    [nodes], in row-major order. *)
Definition selected (n : nat) (cap : Matrix) (nodes : list string)
    (keep : Z → Z → bool) : list (string * string * Z) :=
  i ← py_range n; j ← py_range n;
  if keep i j then [(nthZ "" nodes i, nthZ "" nodes j, entry cap i j)] else [].

(** The index that [node_indices] gives [name]; 0 stands in for a missing
    name wherever the name is known to be present. *)
Definition index_of (ni : gmap string Z) (name : string) : Z := default 0 (ni !! name).

(** [Q] holds of the index of every name in [names] that [node_indices]
    holds. *)
Definition indexed_present (ni : gmap string Z) (names : list string)
    (Q : Z → Prop) : Prop :=
  Forall (λ name, from_option Q True (ni !! name)) names.

#[global] Instance indexed_present_dec ni names (Q : Z → Prop) :
  (∀ x, Decision (Q x)) → Decision (indexed_present ni names Q).
Proof.
  intros HQ. unfold indexed_present. apply Forall_dec. intros name.
  destruct (ni !! name); simpl; apply _.
Defined.

#[global] Instance node_dec n v : Decision (node n v).
Proof. unfold node. apply _. Defined.

#[global] Instance in_py_range_dec len i : Decision (in_py_range len i).
Proof. unfold in_py_range. apply _. Defined.

(** The indices that [node_indices] gives a list of names. *)
Definition indices_of (ni : gmap string Z) (names : list string) : list Z :=
  index_of ni <$> names.

(** The names that [task1.py] and [logistics_network.py] look up. *)
Definition network_names : list string := Net.terminals ++ Net.warehouses ++ Net.stores.

(** The sum of the values of a dictionary. *)
Definition dict_total (d : list (string * Z)) : Z := foldr (λ p acc, p.2 + acc) 0 d.

(** The entry that the wiring of [main] leaves at row [a], column [b] of the
    extended matrix: the original entry, 100 from the super-source [n] to a
    terminal and from a store to the super-sink [n + 1], and 0 elsewhere. *)
Definition wired_entry (n : nat) (ni : gmap string Z) (cap : Matrix) (a b : Z) : Z :=
  if decide (b = Z.of_nat n + 1 ∧ a ∈ indices_of ni Net.stores) then 100
  else if decide (a = Z.of_nat n ∧ b ∈ indices_of ni Net.terminals) then 100
  else if decide (a < Z.of_nat n ∧ b < Z.of_nat n) then entry cap a b
  else 0.

(** Flow passes from terminal [t] to some warehouse and from that warehouse
    to store [s]: both entries of the flow matrix are positive. *)
Definition routed (flow : Matrix) (ni : gmap string Z) (t s : string) : Prop :=
  ∃ w t_idx w_idx s_idx x y,
    w ∈ Net.warehouses
    ∧ ni !! t = Some t_idx ∧ ni !! w = Some w_idx ∧ ni !! s = Some s_idx
    ∧ mat_get flow t_idx w_idx = Ok x ∧ 0 < x
    ∧ mat_get flow w_idx s_idx = Ok y ∧ 0 < y.

(** Every recorded inflow of a warehouse is a positive entry of the flow
    matrix, from a terminal to that warehouse. *)
Definition inflows_sound (flow : Matrix) (ni : gmap string Z)
    (wi : list (string * list (string * Z))) : Prop :=
  ∀ w inflows t x, (w, inflows) ∈ wi → (t, x) ∈ inflows →
    ∃ t_idx w_idx, ni !! t = Some t_idx ∧ ni !! w = Some w_idx
                   ∧ mat_get flow t_idx w_idx = Ok x ∧ 0 < x.

(** The table keeps its keys, and a positive entry has a route behind it. *)
Definition table_sound (flow : Matrix) (ni : gmap string Z)
    (tsf : list (string * string * Z)) : Prop :=
  tsf.*1 = list_prod Net.terminals Net.stores
  ∧ ∀ t s f, (t, s, f) ∈ tsf → 0 ≤ f ∧ (0 < f → routed flow ni t s).

(** The table that the program's run hands to the report. *)
Definition logistics_table : list (string * string * Z) :=
  Eval vm_compute in
    match Net.calculate_terminal_to_store_flow logistics_flow logistics_indices with
    | Ok results => results
    | _ => []
    end.

(** What the program's run hands to [generate_report]. *)
Definition logistics_edges : list (string * string * Z) :=
  Eval vm_compute in
    match Net.get_edges_from_matrix logistics_capacity logistics_nodes with
    | Ok edges => edges
    | _ => []
    end.
Definition logistics_analysis : Net.analysis :=
  Eval vm_compute in
    match Net.analyze_network logistics_capacity logistics_flow logistics_nodes
            logistics_indices logistics_result.2 with
    | Ok a => a
    | _ => Net.Analysis [] [] [] ∅ []
    end.
Definition logistics_report : Task1.report_inputs :=
  Task1.ReportInputs 115 logistics_analysis logistics_table logistics_edges.

(** ** Vocabulary for the table of flows *)

(** A float that is zero, or finite with magnitude below [2 ^ D] and
    exponent at most [E]. *)
Definition float_within (D E : Z) (x : spec_float) : Prop :=
  match x with
  | S754_zero _ => True
  | S754_finite _ m e => Zdigits2 (Z.pos m) + e ≤ D ∧ e ≤ E
  | _ => False
  end.

(** [round(a / b * c)], counted when it is positive. *)
Definition rounded_share (a b c : Z) : Z :=
  match (proportion ← Float.true_div a b;
         x ← Float.int_operand c;
         Float.round (Float.mul proportion x)) with
  | Ok z => Z.max 0 z
  | _ => 0
  end.

(** What warehouse [w] passes on from terminal [t] to store [s]: the part
    of the terminal's flow into the warehouse, in the proportion of the
    store in the warehouse's flow to the stores. *)
Definition share (flow : Matrix) (store_ids : list Z) (t w s : Z) : Z :=
  let total_outflow := sum_over store_ids (entry flow w) in
  if bool_decide (0 < total_outflow ∧ 0 < entry flow w s ∧ 0 < entry flow t w)
  then rounded_share (entry flow w s) total_outflow (entry flow t w)
  else 0.

(** The table of the shares, summed over the warehouses. *)
Definition shares_table (flow : Matrix) (ni : gmap string Z)
    : list (string * string * Z) :=
  (λ k, (k, sum_over (indices_of ni Net.warehouses)
              (λ w, share flow (indices_of ni Net.stores)
                      (index_of ni k.1) w (index_of ni k.2))))
  <$> list_prod Net.terminals Net.stores.

(** The terminals with a positive flow into warehouse [w], with that flow. *)
Definition inflow_items (flow : Matrix) (ni : gmap string Z) (w : string)
    : list (string * Z) :=
  (λ t, (t, entry flow (index_of ni t) (index_of ni w)))
  <$> filter (λ t, 0 < entry flow (index_of ni t) (index_of ni w)) Net.terminals.

(** Dictionary [d] has the keys [keys], in this order, with the values [g]. *)
Definition table_is {K V} `{EqDecision K} (keys : list K) (d : list (K * V))
    (g : K → V) : Prop :=
  d.*1 = keys ∧ ∀ k, k ∈ keys → odict_get d k = Ok (g k).

(** * Lemmas *)

(** ** Reading and writing lists in range *)

Section py_lists.
  Context {A : Type}.
  Implicit Types (l : list A) (i j : Z) (x d : A).

Lemma py_index_ok (len : nat) i :
  0 ≤ i < Z.of_nat len → py_index len i = Ok (Z.to_nat i).
Proof. intros H. unfold py_index. by rewrite bool_decide_eq_true_2. Qed.

Lemma py_index_high (len : nat) i :
  Z.of_nat len ≤ i → py_index len i = Raise IndexError.
Proof.
  intros H. unfold py_index.
  rewrite !bool_decide_eq_false_2; [done | lia | lia].
Qed.

Lemma py_get_ok d l i :
  0 ≤ i < Z.of_nat (length l) → py_get l i = Ok (nthZ d l i).
Proof.
  intros H. unfold py_get, nthZ. rewrite py_index_ok by done. simpl.
  destruct (lookup_lt_is_Some_2 l (Z.to_nat i)) as [x ->]; [lia | done].
Qed.

Lemma py_set_ok l i x :
  0 ≤ i < Z.of_nat (length l) → py_set l i x = Ok (<[Z.to_nat i := x]> l).
Proof. intros H. unfold py_set. by rewrite py_index_ok. Qed.

Lemma nthZ_insert d l i j x :
  0 ≤ i < Z.of_nat (length l) → 0 ≤ j →
  nthZ d (<[Z.to_nat i := x]> l) j = if decide (j = i) then x else nthZ d l j.
Proof.
  intros Hi Hj. unfold nthZ. case_decide as Hij.
  - subst j. rewrite list_lookup_insert_eq; [done | lia].
  - rewrite list_lookup_insert_ne; [done | lia].
Qed.

Lemma nthZ_elem_of d l i :
  0 ≤ i < Z.of_nat (length l) → nthZ d l i ∈ l.
Proof.
  intros H. unfold nthZ.
  destruct (lookup_lt_is_Some_2 l (Z.to_nat i)) as [x Hx]; [lia |].
  rewrite Hx. simpl. by eapply list_elem_of_lookup_2.
Qed.

Lemma nthZ_replicate d (n : nat) x i :
  0 ≤ i < Z.of_nat n → nthZ d (replicate n x) i = x.
Proof.
  intros H. unfold nthZ. rewrite lookup_replicate_2; [done | lia].
Qed.

End py_lists.

Lemma elem_of_py_range (n : nat) v : v ∈ py_range n ↔ 0 ≤ v < Z.of_nat n.
Proof. unfold py_range. rewrite elem_of_seqZ. lia. Qed.

Lemma NoDup_py_range (n : nat) : NoDup (py_range n).
Proof. apply NoDup_seqZ. Qed.

(** ** Reading and writing square matrices in range *)

Section matrices.
  Variable n : nat.
  Implicit Types (m : Matrix) (i j a b x : Z).

Lemma square_row m i :
  square n m → 0 ≤ i < Z.of_nat n → length (nthZ [] m i) = n.
Proof.
  intros [Hl Hr] Hi. rewrite Forall_forall in Hr. apply Hr, nthZ_elem_of. lia.
Qed.

Lemma mat_get_ok m i j :
  square n m → 0 ≤ i < Z.of_nat n → 0 ≤ j < Z.of_nat n →
  mat_get m i j = Ok (entry m i j).
Proof.
  intros Hsq Hi Hj. unfold mat_get, entry.
  rewrite (py_get_ok []) by (destruct Hsq; lia). simpl.
  rewrite (py_get_ok 0); [done |]. rewrite square_row; done.
Qed.

Lemma mat_set_ok m i j x :
  square n m → 0 ≤ i < Z.of_nat n → 0 ≤ j < Z.of_nat n →
  mat_set m i j x = Ok (mat_upd m i j x).
Proof.
  intros Hsq Hi Hj. unfold mat_set, mat_upd.
  rewrite (py_get_ok []) by (destruct Hsq; lia). simpl.
  rewrite py_set_ok by (rewrite square_row; done). simpl.
  rewrite py_set_ok by (destruct Hsq; lia). done.
Qed.

Lemma square_mat_upd m i j x : square n m → square n (mat_upd m i j x).
Proof.
  intros [Hl Hr]. unfold mat_upd. split; [by rewrite length_insert |].
  rewrite Forall_forall in Hr. apply Forall_forall. intros row Hrow. apply list_elem_of_lookup in Hrow as [k Hk].
  destruct (decide (k = Z.to_nat i)) as [-> | Hne].
  - assert (Hlt : (Z.to_nat i < length m)%nat) by
      (apply lookup_lt_Some in Hk; by rewrite length_insert in Hk).
    rewrite list_lookup_insert_eq in Hk by done. injection Hk as <-.
    rewrite length_insert. apply Hr. unfold nthZ.
    destruct (lookup_lt_is_Some_2 m (Z.to_nat i)) as [r Hr']; [done |].
    rewrite Hr'. simpl. by eapply list_elem_of_lookup_2.
  - rewrite list_lookup_insert_ne in Hk by done.
    apply Hr. by eapply list_elem_of_lookup_2.
Qed.

Lemma entry_mat_upd m i j x a b :
  square n m → 0 ≤ i < Z.of_nat n → 0 ≤ j < Z.of_nat n → 0 ≤ a → 0 ≤ b →
  entry (mat_upd m i j x) a b
  = if decide (a = i ∧ b = j) then x else entry m a b.
Proof.
  intros Hsq Hi Hj Ha Hb. unfold entry, mat_upd.
  rewrite nthZ_insert by (destruct Hsq; lia).
  destruct (decide (a = i)) as [-> | Hai].
  - rewrite nthZ_insert by (rewrite ?(square_row m) by done; done).
    repeat case_decide; (done || lia).
  - case_decide; (done || lia).
Qed.

Lemma square_zero_matrix : square n (zero_matrix n).
Proof.
  unfold zero_matrix. split; [by rewrite length_replicate |].
  apply Forall_forall. intros row Hrow. apply elem_of_replicate in Hrow as [-> _].
  by rewrite length_replicate.
Qed.

Lemma entry_zero_matrix i j :
  0 ≤ i < Z.of_nat n → 0 ≤ j < Z.of_nat n → entry (zero_matrix n) i j = 0.
Proof.
  intros Hi Hj. unfold entry, zero_matrix. by rewrite !nthZ_replicate.
Qed.

Lemma nonneg_entry m i j :
  square n m → nonneg m → 0 ≤ i < Z.of_nat n → 0 ≤ j < Z.of_nat n →
  0 ≤ entry m i j.
Proof.
  intros Hsq Hnn Hi Hj. unfold entry, nonneg in *.
  rewrite Forall_forall in Hnn.
  assert (Hrow : nthZ [] m i ∈ m) by (apply nthZ_elem_of; destruct Hsq; lia).
  specialize (Hnn _ Hrow). rewrite Forall_forall in Hnn. apply Hnn.
  apply nthZ_elem_of. rewrite (square_row m); done.
Qed.

End matrices.

(** ** Finite sums over node lists *)

Section sums.
  Implicit Types (l : list Z) (f g : Z → Z).

Lemma sum_over_ext l f g :
  (∀ v, v ∈ l → f v = g v) → sum_over l f = sum_over l g.
Proof.
  induction l as [| a l IH]; intros H; simpl; [done |].
  rewrite H by left. rewrite IH; [done |]. intros v Hv. apply H. by right.
Qed.

Lemma sum_over_add l f g :
  sum_over l (λ v, f v + g v) = sum_over l f + sum_over l g.
Proof. induction l as [| a l IH]; simpl; lia. Qed.

Lemma sum_over_sub l f g :
  sum_over l (λ v, f v - g v) = sum_over l f - sum_over l g.
Proof. induction l as [| a l IH]; simpl; lia. Qed.

Lemma sum_over_opp l f : sum_over l (λ v, - f v) = - sum_over l f.
Proof. induction l as [| a l IH]; simpl; lia. Qed.

Lemma sum_over_scale l f k : sum_over l (λ v, k * f v) = k * sum_over l f.
Proof. induction l as [| a l IH]; simpl; lia. Qed.

Lemma sum_over_zero l f : (∀ v, v ∈ l → f v = 0) → sum_over l f = 0.
Proof.
  induction l as [| a l IH]; intros H; simpl; [done |].
  rewrite H by left. rewrite IH; [done |]. intros v Hv. apply H. by right.
Qed.

Lemma sum_over_le l f g :
  (∀ v, v ∈ l → f v ≤ g v) → sum_over l f ≤ sum_over l g.
Proof.
  induction l as [| a l IH]; intros H; simpl; [done |].
  assert (f a ≤ g a) by (apply H; left).
  assert (sum_over l f ≤ sum_over l g) by (apply IH; intros v Hv; apply H; by right).
  lia.
Qed.

Lemma sum_over_nonneg l f : (∀ v, v ∈ l → 0 ≤ f v) → 0 ≤ sum_over l f.
Proof.
  intros H. rewrite <- (sum_over_zero l (λ _, 0)) by done. by apply sum_over_le.
Qed.

Lemma sum_over_swap l1 l2 (h : Z → Z → Z) :
  sum_over l1 (λ a, sum_over l2 (λ b, h a b))
  = sum_over l2 (λ b, sum_over l1 (λ a, h a b)).
Proof.
  induction l1 as [| a l1 IH]; simpl.
  - symmetry. by apply sum_over_zero.
  - rewrite IH. by rewrite sum_over_add.
Qed.

(** A sum with a single non-zero term. *)
Lemma sum_over_single l x k :
  NoDup l → x ∈ l → sum_over l (λ v, if decide (v = x) then k else 0) = k.
Proof.
  induction l as [| a l IH]; intros Hnd Hx; [by apply elem_of_nil in Hx |].
  apply NoDup_cons in Hnd as [Ha Hnd]. simpl.
  apply elem_of_cons in Hx as [-> | Hx].
  - rewrite decide_True by done. rewrite sum_over_zero; [lia |].
    intros v Hv. rewrite decide_False; [done |]. by intros ->.
  - rewrite decide_False by (by intros ->). rewrite IH by done. lia.
Qed.

Lemma sum_over_single_at l x f :
  NoDup l → x ∈ l → (∀ v, v ∈ l → v ≠ x → f v = 0) → sum_over l f = f x.
Proof.
  intros Hnd Hx H0.
  rewrite <- (sum_over_single l x (f x)) by done.
  apply sum_over_ext. intros v Hv. case_decide as Hvx; [by subst |].
  by apply H0.
Qed.

End sums.

(** ** Flows and cuts over an abstract node list

    [f] is a net flow: antisymmetric, bounded by the capacity [c], and
    conserved at every node but [s] and [t].  Its value, the net outflow of
    [s], crosses every cut that separates [s] from [t]. *)

Section cuts.
  Variables (nodes : list Z) (c f : Z → Z → Z) (s t : Z).
  Hypothesis nodes_nodup : NoDup nodes.
  Hypothesis s_node : s ∈ nodes.
  Hypothesis antisym : ∀ i j, i ∈ nodes → j ∈ nodes → f i j = - f j i.
  Hypothesis bounded : ∀ i j, i ∈ nodes → j ∈ nodes → f i j ≤ c i j.
  Hypothesis conserve :
    ∀ i, i ∈ nodes → i ≠ s → i ≠ t → sum_over nodes (f i) = 0.

Lemma inside_cancels (S : Z → bool) :
  sum_over nodes (λ i, sum_over nodes (λ j, if S i && S j then f i j else 0)) = 0.
Proof.
  set (A := sum_over nodes _).
  assert (HA : A = - A); [| lia].
  unfold A at 1. rewrite sum_over_swap. unfold A.
  rewrite <- sum_over_opp. apply sum_over_ext. intros i Hi.
  rewrite <- sum_over_opp. apply sum_over_ext. intros j Hj.
  rewrite (antisym i j) by done. destruct (S i), (S j); simpl; lia.
Qed.

Lemma value_across (S : Z → bool) :
  S s = true → S t = false → sum_over nodes (f s) = across nodes S f.
Proof.
  intros Hs Ht.
  transitivity (sum_over nodes (λ i, if S i then sum_over nodes (f i) else 0)).
  - rewrite (sum_over_single_at nodes s
               (λ i, if S i then sum_over nodes (f i) else 0));
      [by rewrite Hs | done | done |].
    intros v Hv Hvs. destruct (S v) eqn:HSv; [| done].
    apply conserve; [done | done | congruence].
  - pose proof (inside_cancels S) as Hin.
    assert (Hsplit :
      sum_over nodes (λ i, sum_over nodes (λ j, if S i && S j then f i j else 0))
      + across nodes S f
      = sum_over nodes (λ i, if S i then sum_over nodes (f i) else 0)); [| lia].
    unfold across. rewrite <- sum_over_add.
    apply sum_over_ext. intros i Hi. destruct (S i); simpl.
    + rewrite <- sum_over_add. apply sum_over_ext. intros j Hj.
      destruct (S j); lia.
    + rewrite sum_over_zero; done.
Qed.

(** Weak duality: the value is at most the capacity of any cut. *)
Lemma value_le_cut (S : Z → bool) :
  S s = true → S t = false → sum_over nodes (f s) ≤ across nodes S c.
Proof.
  intros Hs Ht. rewrite (value_across S) by done. unfold across.
  apply sum_over_le. intros i Hi. destruct (S i); [| done].
  apply sum_over_le. intros j Hj. destruct (S j); [done |]. by apply bounded.
Qed.

(** A cut with no residual capacity left is met with equality. *)
Lemma value_eq_saturated_cut (S : Z → bool) :
  S s = true → S t = false →
  (∀ i j, i ∈ nodes → j ∈ nodes → S i = true → S j = false → c i j ≤ f i j) →
  sum_over nodes (f s) = across nodes S c.
Proof.
  intros Hs Ht Hsat. rewrite (value_across S) by done. unfold across.
  apply sum_over_ext. intros i Hi. destruct (S i) eqn:HSi; [| done].
  apply sum_over_ext. intros j Hj. destruct (S j) eqn:HSj; [done |].
  pose proof (bounded i j Hi Hj). pose proof (Hsat i j Hi Hj HSi HSj). lia.
Qed.

End cuts.

(** ** The residual graph *)

Lemma count_false_replicate (k : nat) : count_false (replicate k false) = k.
Proof. induction k as [| k IH]; simpl; [done | by rewrite IH]. Qed.

Lemma count_false_insert (l : list bool) (k : nat) :
  l !! k = Some false → S (count_false (<[k := true]> l)) = count_false l.
Proof.
  revert k. induction l as [| b l IH]; intros [| k] H; simpl in *; try done.
  - by injection H as ->.
  - rewrite <- (IH k H). lia.
Qed.

Lemma sorted_by_ext (d d' : Z → nat) (q : list Z) :
  (∀ y, y ∈ q → d' y = d y) → sorted_by d q → sorted_by d' q.
Proof.
  induction q as [| x q IH]; simpl; [done |]. intros Heq [Hx Hq]. split.
  - intros y Hy. rewrite !Heq; [by apply Hx | by right | by left].
  - apply IH; [| done]. intros y Hy. apply Heq. by right.
Qed.

Lemma sorted_by_snoc (d : Z → nat) (q : list Z) (x : Z) :
  sorted_by d q → (∀ y, y ∈ q → (d y ≤ d x)%nat) → sorted_by d (q ++ [x]).
Proof.
  induction q as [| a q IH]; simpl; intros Hs Hle.
  - split; [| done]. intros y Hy. by apply elem_of_nil in Hy.
  - destruct Hs as [Ha Hq]. split.
    + intros y Hy. apply elem_of_app in Hy as [Hy | Hy]; [by apply Ha |].
      apply list_elem_of_singleton in Hy as ->. apply Hle. by left.
    + apply IH; [done |]. intros y Hy. apply Hle. by right.
Qed.

(** ** Breadth-first search *)

Section bfs_proof.
  Variables (n : nat) (cap flow : Matrix) (s t : Z).
  Hypothesis cap_square : square n cap.
  Hypothesis flow_square : square n flow.
  Hypothesis s_node : node n s.
  Hypothesis t_node : node n t.
  Hypothesis s_ne_t : s ≠ t.

Local Abbreviation resid := (residual cap flow).

Local Abbreviation walk := (walk n cap flow s).
Local Abbreviation tree_path := (tree_path n cap flow s).
Local Abbreviation vis := (vis n).
Local Abbreviation closed := (closed n cap flow).
Local Abbreviation base_inv := (base_inv n cap flow s t).
Local Abbreviation outer_inv := (outer_inv n cap flow s t).
Local Abbreviation inner_inv := (inner_inv n cap flow s t).
Local Abbreviation found_post := (found_post n cap flow s t).
Local Abbreviation not_found_post := (not_found_post n cap flow s t).
Local Abbreviation bi_len_vis := (bi_len_vis n cap flow s t).
Local Abbreviation bi_len_par := (bi_len_par n cap flow s t).
Local Abbreviation bi_source := (bi_source n cap flow s t).
Local Abbreviation bi_source_depth := (bi_source_depth n cap flow s t).
Local Abbreviation bi_sink := (bi_sink n cap flow s t).
Local Abbreviation bi_queue := (bi_queue n cap flow s t).
Local Abbreviation bi_sorted := (bi_sorted n cap flow s t).
Local Abbreviation bi_done_depth := (bi_done_depth n cap flow s t).
Local Abbreviation bi_tree := (bi_tree n cap flow s t).

Lemma tree_path_ext par par' v l :
  tree_path par v l → (∀ x, x ∈ l → nthZ 0 par' x = nthZ 0 par x) →
  tree_path par' v l.
Proof.
  induction 1 as [| v l Hv Hn Hr Hp IH]; intros Heq; [constructor |].
  assert (Hpar : nthZ 0 par' v = nthZ 0 par v) by (apply Heq; left).
  constructor; [done | done | by rewrite Hpar |].
  rewrite Hpar. apply IH. intros x Hx. apply Heq. by right.
Qed.

Lemma tree_path_head par v l : tree_path par v l → ∃ l', l = v :: l'.
Proof. destruct 1; eauto. Qed.

Lemma vis_dec st v : vis (EK.visited st) v ∨ (node n v → nthZ false (EK.visited st) v = false).
Proof.
  unfold vis. destruct (nthZ false (EK.visited st) v) eqn:Hv.
  - destruct (decide (node n v)) as [Hn | Hn]; [by left | right; done].
  - by right.
Qed.

Lemma depth_bound d c st x : base_inv d c st → vis (EK.visited st) x → (d x ≤ S c)%nat.
Proof.
  intros Hb Hx. destruct (decide (x ∈ EK.queue st)) as [Hq | Hq].
  - apply (bi_queue _ _ _ Hb) in Hq. lia.
  - pose proof (bi_done_depth _ _ _ Hb x Hx Hq). lia.
Qed.

(** Every node within [c] residual edges of the source has been visited. *)
Lemma walk_visited d c u rest st k x :
  inner_inv d c u rest st → walk k x → (k ≤ c)%nat →
  vis (EK.visited st) x ∧ (d x ≤ k)%nat.
Proof.
  intros (Hb & Hu & Hdu & Hcl & _) Hw. induction Hw as [| k y x Hw IH Hx Hr].
  - intros _. split; [apply Hb |]. rewrite (bi_source_depth _ _ _ Hb). lia.
  - intros Hk. destruct IH as [Hy Hdy]; [lia |].
    assert (Hyq : y ∉ EK.queue st).
    { intros Hq. apply (bi_queue _ _ _ Hb) in Hq. lia. }
    assert (Hyu : y ≠ u) by (intros ->; lia).
    destruct (Hcl y Hy Hyq Hyu x Hx Hr) as [Hvx Hdx]. split; [done | lia].
Qed.

Lemma vis_insert (vl : list bool) w x :
  length vl = n → node n w →
  vis (<[Z.to_nat w := true]> vl) x ↔ vis vl x ∨ x = w.
Proof.
  intros Hlen Hw. unfold vis, node in *.
  split.
  - intros [Hx Hv]. rewrite nthZ_insert in Hv by lia.
    case_decide; [by right | by left].
  - intros [[Hx Hv] | ->]; (split; [done |]); rewrite nthZ_insert by lia;
      case_decide; done.
Qed.

Lemma bfs_visit d c u w rest st :
  inner_inv d c u (w :: rest) st → node n w →
  nthZ false (EK.visited st) w = false → resid u w > 0 →
  (w = t → found_post (<[Z.to_nat w := u]> (EK.parent st)))
  ∧ (w ≠ t →
     inner_inv (λ x, if decide (x = w) then S c else d x) c u rest
       (EK.BfsState (<[Z.to_nat w := true]> (EK.visited st))
          (EK.queue st ++ [w]) (<[Z.to_nat w := u]> (EK.parent st)))).
Proof.
  intros (Hb & Hu & Hdu & Hcl & Hcur) Hw Hunv Hres.
  pose proof (bi_len_vis _ _ _ Hb) as Hlv.
  pose proof (bi_len_par _ _ _ Hb) as Hlp.
  assert (Hnw : ¬ vis (EK.visited st) w) by (intros [_ Hv]; congruence).
  assert (Hpar : ∀ x, vis (EK.visited st) x →
            nthZ 0 (<[Z.to_nat w := u]> (EK.parent st)) x = nthZ 0 (EK.parent st) x).
  { intros x Hx. rewrite nthZ_insert by (destruct Hx as [Hx _]; unfold node in *; lia).
    rewrite decide_False; [done |]. by intros ->. }
  assert (Hparw : nthZ 0 (<[Z.to_nat w := u]> (EK.parent st)) w = u).
  { rewrite nthZ_insert by (unfold node in *; lia). by rewrite decide_True. }
  destruct (bi_tree _ _ _ Hb u Hu) as (lu & Htu & Hlenu & Hndu & Hvisu).
  assert (Htw : w ≠ s →
            tree_path (<[Z.to_nat w := u]> (EK.parent st)) w (w :: lu)).
  { intros Hws. constructor; [done | done | by rewrite Hparw |].
    rewrite Hparw. eapply tree_path_ext; [done |].
    intros x Hx. apply Hpar. by apply Hvisu. }
  assert (Hws : w ≠ s) by (intros ->; apply Hnw, Hb).
  assert (Hndw : NoDup (w :: lu)).
  { apply NoDup_cons. split; [| done]. intros Hin. by apply Hnw, Hvisu. }
  split.
  - intros ->. exists (t :: lu). split; [by apply Htw |]. split; [done |].
    intros k Hk. simpl. rewrite Hlenu.
    destruct (decide (k ≤ c)%nat) as [Hle | Hgt]; [| lia].
    exfalso. apply Hnw.
    destruct (walk_visited d c u (t :: rest) st k t) as [Hv _]; [| done | done | done].
    exact (conj Hb (conj Hu (conj Hdu (conj Hcl Hcur)))).
  - intros Hwt.
    set (d' := λ x, if decide (x = w) then S c else d x).
    assert (Hd' : ∀ x, vis (EK.visited st) x → d' x = d x).
    { intros x Hx. unfold d'. rewrite decide_False; [done |]. by intros ->. }
    assert (Hd'w : d' w = S c) by (unfold d'; by rewrite decide_True).
    assert (Hmono : ∀ x, vis (EK.visited st) x →
              vis (<[Z.to_nat w := true]> (EK.visited st)) x).
    { intros x Hx. apply vis_insert; [done | done | by left]. }
    assert (Hinv : ∀ x, vis (<[Z.to_nat w := true]> (EK.visited st)) x →
              vis (EK.visited st) x ∨ x = w).
    { intros x Hx. by apply vis_insert in Hx. }
    assert (Hvw : vis (<[Z.to_nat w := true]> (EK.visited st)) w).
    { apply vis_insert; [done | done | by right]. }
    split; [| split; [by apply Hmono | split; [by rewrite Hd' | split]]].
    + constructor; simpl.
      * by rewrite length_insert.
      * by rewrite length_insert.
      * apply Hmono, Hb.
      * rewrite Hd' by apply Hb. apply Hb.
      * intros Ht. apply Hinv in Ht as [Ht | Ht]; [by apply (bi_sink _ _ _ Hb) | done].
      * intros q Hq. apply elem_of_app in Hq as [Hq | Hq].
        -- apply (bi_queue _ _ _ Hb) in Hq as [Hq1 Hq2].
           split; [by apply Hmono |]. by rewrite Hd'.
        -- apply list_elem_of_singleton in Hq as ->. split; [apply Hvw |]. lia.
      * apply sorted_by_snoc.
        -- eapply sorted_by_ext; [| apply Hb]. intros y Hy. apply Hd'.
           by apply (bi_queue _ _ _ Hb).
        -- intros y Hy. apply (bi_queue _ _ _ Hb) in Hy as [Hy1 Hy2].
           rewrite Hd' by done. lia.
      * intros x Hx Hxq. apply Hinv in Hx as [Hx | ->].
        -- rewrite Hd' by done. apply (bi_done_depth _ _ _ Hb); [done |].
           intros Hq. apply Hxq, elem_of_app. by left.
        -- exfalso. apply Hxq, elem_of_app. right. by apply list_elem_of_singleton.
      * intros v Hv. apply Hinv in Hv as [Hv | ->].
        -- destruct (bi_tree _ _ _ Hb v Hv) as (l & Hl1 & Hl2 & Hl3 & Hl4).
           exists l. split; [| split; [by rewrite Hd' | split; [done |]]].
           ++ eapply tree_path_ext; [done |]. intros x Hx. apply Hpar. by apply Hl4.
           ++ intros x Hx. by apply Hmono, Hl4.
        -- exists (w :: lu). split; [by apply Htw |]. split; [simpl; lia |].
           split; [done |]. intros x Hx. apply elem_of_cons in Hx as [-> | Hx].
           ++ apply Hvw.
           ++ by apply Hmono, Hvisu.
    + intros x Hx Hxq Hxu v Hv Hr.
      apply Hinv in Hx as [Hx | ->].
      * destruct (Hcl x Hx) with (v := v) as [Hv1 Hv2]; [| done | done | done |].
        { intros Hq. apply Hxq, elem_of_app. by left. }
        split; [by apply Hmono |]. rewrite !Hd' by done. done.
      * exfalso. apply Hxq, elem_of_app. right. by apply list_elem_of_singleton.
    + intros v Hv Hvr Hr. destruct (decide (v = w)) as [-> | Hvw'].
      * split; [apply Hvw | lia].
      * destruct (Hcur v Hv) as [Hv1 Hv2]; [| done |].
        { intros Hin. apply elem_of_cons in Hin as [? | ?]; done. }
        split; [by apply Hmono |]. by rewrite Hd'.
Qed.

Lemma lookup_unvisited (vl : list bool) w :
  length vl = n → node n w → nthZ false vl w = false →
  vl !! Z.to_nat w = Some false.
Proof.
  intros Hlen Hw Hv. unfold nthZ, node in *.
  destruct (lookup_lt_is_Some_2 vl (Z.to_nat w)) as [b Hb]; [lia |].
  rewrite Hb in Hv. simpl in Hv. by subst.
Qed.

(** The [for] loop over the neighbours of the dequeued node [u]. *)
Lemma bfs_neighbors_spec rest : ∀ d c u st,
  inner_inv d c u rest st → (∀ v, v ∈ rest → node n v) →
  ∃ found st',
    EK.bfs_neighbors cap flow t u rest st = Ok (found, st')
    ∧ length (EK.parent st') = n
    ∧ if found then found_post (EK.parent st')
      else (∃ d', inner_inv d' c u [] st') ∧ bfs_measure st' = bfs_measure st.
Proof.
  induction rest as [| w rest IH]; intros d c u st Hinv Hrest.
  - exists false, st. simpl. split; [done |].
    split; [apply Hinv | split; [by exists d | done]].
  - pose proof Hinv as (Hb & Hu & Hdu & Hcl & Hcur).
    assert (Hw : node n w) by (apply Hrest; left).
    assert (Hrest' : ∀ v, v ∈ rest → node n v) by (intros v Hv; apply Hrest; by right).
    assert (Hun : node n u) by apply Hu.
    pose proof (bi_len_vis _ _ _ Hb) as Hlv.
    pose proof (bi_len_par _ _ _ Hb) as Hlp.
    simpl. rewrite !(mat_get_ok n) by done. simpl.
    rewrite (py_get_ok false) by (unfold node in *; lia). simpl.
    fold (residual cap flow u w).
    destruct (nthZ false (EK.visited st) w) eqn:Hv; simpl.
    { apply (IH d c); [| done]. split; [done |]. split; [done |]. split; [done |].
      split; [done |]. intros v Hvn Hvr Hr.
      destruct (decide (v = w)) as [-> | Hne].
      - assert (vis (EK.visited st) w) by done.
        split; [done |]. by eapply depth_bound.
      - apply Hcur; [done | | done]. intros Hin.
        apply elem_of_cons in Hin as [? | ?]; done. }
    case_bool_decide as Hr; simpl.
    + rewrite !py_set_ok by (unfold node in *; lia). simpl.
      destruct (bfs_visit d c u w rest st Hinv Hw Hv Hr) as [Hfound Hnext].
      case_bool_decide as Hwt.
      * exists true. eexists. split; [done |]. simpl.
        split; [by rewrite length_insert | by apply Hfound].
      * destruct (IH _ _ _ _ (Hnext Hwt) Hrest') as (found & st' & Hrun & Hlen & Hpost).
        exists found, st'. split; [done |]. split; [done |].
        destruct found; [done |]. destruct Hpost as [Hd' Hm]. split; [done |].
        rewrite Hm. unfold bfs_measure. simpl. rewrite length_app. simpl.
        pose proof (count_false_insert (EK.visited st) (Z.to_nat w)
                      (lookup_unvisited _ _ Hlv Hw Hv)). lia.
    + apply (IH d c); [| done]. split; [done |]. split; [done |]. split; [done |].
      split; [done |]. intros v Hvn Hvr Hr'.
      destruct (decide (v = w)) as [-> | Hne]; [done |].
      apply Hcur; [done | | done]. intros Hin.
      apply elem_of_cons in Hin as [? | ?]; done.
Qed.

(** The [while queue] loop. *)
Lemma bfs_loop_spec fuel : ∀ d c st,
  outer_inv d c st → (bfs_measure st < fuel)%nat →
  ∃ found st',
    EK.bfs_loop fuel cap flow t n st = Ok (found, st')
    ∧ length (EK.parent st') = n
    ∧ if found then found_post (EK.parent st')
      else not_found_post (EK.visited st').
Proof.
  induction fuel as [| fuel IH]; intros d c st [Hb Hcl] Hfuel; [lia |].
  simpl. destruct (EK.queue st) as [| u q'] eqn:Hq.
  - exists false, st. split; [done |]. split; [apply Hb |].
    split; [apply Hb |]. split; [apply Hb |]. split; [apply Hb |].
    intros x v Hx Hv Hr.
    by destruct (Hcl x Hx (not_elem_of_nil x) v Hv Hr).
  - assert (Huq : u ∈ EK.queue st) by (rewrite Hq; left).
    destruct (bi_queue _ _ _ Hb u Huq) as [Hu Hdu].
    pose proof (bi_sorted _ _ _ Hb) as Hsorted. rewrite Hq in Hsorted.
    destruct Hsorted as [Hhead Hsorted].
    assert (Hin : inner_inv d (d u) u (py_range n)
                    (EK.BfsState (EK.visited st) q' (EK.parent st))).
    { split; [| split; [done | split; [done | split]]].
      - constructor; simpl; try apply Hb.
        + intros q Hq'. assert (q ∈ EK.queue st) as Hqq by (rewrite Hq; by right).
          destruct (bi_queue _ _ _ Hb q Hqq) as [Hq1 Hq2]. split; [done |].
          pose proof (Hhead q Hq'). lia.
        + done.
        + intros x Hx Hxq. destruct (decide (x = u)) as [-> | Hne]; [lia |].
          assert (d x ≤ c)%nat; [| lia].
          apply (bi_done_depth _ _ _ Hb); [done |]. rewrite Hq.
          intros Hin. apply elem_of_cons in Hin as [? | ?]; done.
      - simpl. intros x Hx Hxq Hxu. apply Hcl; [done |].
        intros Hin. apply elem_of_cons in Hin as [? | ?]; done.
      - simpl. intros v Hv Hvr. exfalso. apply Hvr. by apply elem_of_py_range. }
    destruct (bfs_neighbors_spec _ _ _ _ _ Hin) as (found & st' & Hrun & Hlen & Hpost).
    { intros v Hv. by apply elem_of_py_range. }
    rewrite Hrun. simpl. destruct found.
    + exists true, st'. done.
    + destruct Hpost as [[d' (Hb' & Hu' & Hdu' & Hcl' & Hcur')] Hm].
      apply (IH d' (d u)).
      * split; [done |]. intros x Hx Hxq.
        destruct (decide (x = u)) as [-> | Hne].
        -- intros v Hv Hr. rewrite Hdu'. apply Hcur'; [done | | done].
           apply not_elem_of_nil.
        -- by apply Hcl'.
      * rewrite Hm. unfold bfs_measure in *. simpl. rewrite Hq in Hfuel.
        simpl in Hfuel. lia.
Qed.

(** [bfs] never raises and needs at most [n] turns of its loop. *)
Lemma bfs_spec fuel par :
  length par = n → (n < fuel)%nat →
  ∃ found par',
    EK.bfs fuel cap flow s t par = Ok (found, par')
    ∧ length par' = n
    ∧ if found then found_post par'
      else ∃ visited, not_found_post visited.
Proof.
  intros Hpar Hfuel. unfold EK.bfs, EK.bfs_run.
  assert (Hlen : length cap = n) by apply cap_square. rewrite Hlen.
  rewrite py_set_ok by (rewrite length_replicate; apply s_node). simpl.
  set (vl := <[Z.to_nat s := true]> (replicate n false)).
  assert (Hvis : ∀ x, vis vl x ↔ x = s).
  { intros x. unfold vl. rewrite vis_insert by (by rewrite ?length_replicate).
    split; [| by right]. intros [[Hx Hv] | ->]; [| done].
    rewrite nthZ_replicate in Hv by done. done. }
  destruct (bfs_loop_spec fuel (λ _, O) O (EK.BfsState vl [s] par))
    as (found & st' & Hrun & Hlen' & Hpost).
  - split.
    + constructor; simpl.
      * unfold vl. by rewrite length_insert, length_replicate.
      * done.
      * by apply Hvis.
      * done.
      * rewrite Hvis. by intros <-.
      * intros q Hq. apply list_elem_of_singleton in Hq as ->.
        split; [by apply Hvis | lia].
      * split; [| done]. intros y Hy. by apply elem_of_nil in Hy.
      * lia.
      * intros v Hv. apply Hvis in Hv as ->. exists [s].
        split; [constructor |]. split; [done |]. split; [apply NoDup_singleton |].
        intros x Hx. apply list_elem_of_singleton in Hx as ->. by apply Hvis.
    + simpl. intros x Hx Hxq. apply Hvis in Hx as ->.
      exfalso. apply Hxq. by apply list_elem_of_singleton.
  - unfold bfs_measure. simpl.
    assert (S (count_false vl) = n); [| lia].
    unfold vl. rewrite count_false_insert; [apply count_false_replicate |].
    apply lookup_replicate_2. unfold node in *. lia.
  - rewrite Hrun. simpl. exists found, (EK.parent st'). split; [done |].
    split; [done |]. destruct found; [done |]. by exists (EK.visited st').
Qed.

End bfs_proof.

(** ** Pushing flow along the path of parent links *)

Section cnt_facts.
  Implicit Types (l : list Z) (i j : Z).

Lemma cnt_cons2 x u l i j :
  cnt (x :: u :: l) i j
  = (if decide (i = u ∧ j = x) then 1 else 0) + cnt (u :: l) i j.
Proof. done. Qed.

Lemma cnt_nonneg l i j : 0 ≤ cnt l i j.
Proof.
  induction l as [| x l IH]; [done |]. destruct l as [| u l]; [done |].
  rewrite cnt_cons2. case_decide; lia.
Qed.

Lemma cnt_pos_elem l i j : 0 < cnt l i j → i ∈ l ∧ j ∈ l.
Proof.
  induction l as [| x l IH]; [simpl; lia |]. destruct l as [| u l]; [simpl; lia |].
  rewrite cnt_cons2. intros H. case_decide as Hd.
  - destruct Hd as [-> ->]. split; [right; left | left].
  - destruct IH as [Hi Hj]; [lia |]. split; by right.
Qed.

Lemma cnt_le_1 l i j : NoDup l → cnt l i j ≤ 1.
Proof.
  induction l as [| x l IH]; [simpl; lia |]. destruct l as [| u l]; [simpl; lia |].
  rewrite cnt_cons2. intros Hnd. apply NoDup_cons in Hnd as [Hx Hnd].
  specialize (IH Hnd). case_decide as Hd; [| lia].
  destruct Hd as [-> ->].
  destruct (decide (0 < cnt (u :: l) u x)) as [Hpos | Hz]; [| lia].
  apply cnt_pos_elem in Hpos as [_ Hin]. done.
Qed.

Lemma cnt_exclusive l i j : NoDup l → 0 < cnt l i j → cnt l j i = 0.
Proof.
  induction l as [| x l IH]; [simpl; lia |]. destruct l as [| u l]; [simpl; lia |].
  rewrite !cnt_cons2. intros Hnd Hpos. apply NoDup_cons in Hnd as [Hx Hnd].
  specialize (IH Hnd).
  assert (Hxu : x ≠ u) by (intros ->; apply Hx; left).
  pose proof (cnt_nonneg (u :: l) j i) as Hnn.
  case_decide as Hd.
  - destruct Hd as [-> ->]. rewrite decide_False by (intros [? ?]; done).
    destruct (decide (0 < cnt (u :: l) x u)) as [Hp | Hz]; [| lia].
    apply cnt_pos_elem in Hp as [Hin _]. done.
  - assert (Hp : 0 < cnt (u :: l) i j) by lia.
    rewrite IH by done. case_decide as Hd'; [| lia].
    destruct Hd' as [-> ->]. apply cnt_pos_elem in Hp as [Hin _]. done.
Qed.

Lemma cnt_singleton x i j : cnt [x] i j = 0.
Proof. done. Qed.

End cnt_facts.

Arguments cnt : simpl never.
Arguments min_residual : simpl never.

Section augment_proof.
  Variables (n : nat) (cap flow : Matrix) (s t : Z).
  Hypothesis cap_square : square n cap.
  Hypothesis flow_square : square n flow.
  Hypothesis s_node : node n s.

Local Abbreviation resid := (residual cap flow).
Local Abbreviation tpath := (tree_path n cap flow s).

Lemma min_residual_cons2 pf x u l :
  min_residual cap flow pf (x :: u :: l)
  = min_residual cap flow (EK.min_flow pf (resid u x)) (u :: l).
Proof. done. Qed.

Lemma tree_path_node par v l : tpath par v l → node n v.
Proof. destruct 1; done. Qed.

Lemma tree_path_nodes par v l : tpath par v l → ∀ x, x ∈ l → node n x.
Proof.
  induction 1 as [| v l Hv Hn Hr Hp IH]; intros x Hx.
  - by apply list_elem_of_singleton in Hx as ->.
  - apply elem_of_cons in Hx as [-> | Hx]; [done | by apply IH].
Qed.

(** The first backward walk: no error, bottleneck and node list. *)
Lemma find_bottleneck_spec par v l :
  length par = n → tpath par v l →
  ∀ fuel pf path, (length l ≤ S fuel)%nat →
    EK.find_bottleneck fuel cap flow par s v pf path
    = Ok (min_residual cap flow pf l, path ++ tail l).
Proof.
  intros Hpar. induction 1 as [| v l Hv Hn Hr Hp IH]; intros fuel pf path Hfuel.
  - destruct fuel; simpl; rewrite bool_decide_eq_false_2 by (by intros []);
      by rewrite app_nil_r.
  - destruct (tree_path_head _ _ _ _ _ _ _ Hp) as [l' ->].
    simpl in Hfuel. destruct fuel as [| fuel]; [lia |].
    pose proof (tree_path_node _ _ _ Hp) as Hu.
    simpl EK.find_bottleneck. rewrite bool_decide_eq_true_2 by done.
    rewrite (py_get_ok 0) by (unfold node in *; lia). simpl.
    rewrite !(mat_get_ok n) by done. simpl.
    rewrite IH by (simpl; lia). rewrite min_residual_cons2.
    by rewrite <- app_assoc.
Qed.

(** Along a path of parent links the bottleneck is a positive integer, no
    larger than the residual capacity of any edge of the path and equal to
    that of one of them. *)
Lemma min_residual_Fin par v l p :
  tpath par v l → 0 < p →
  ∃ b, min_residual cap flow (EK.Fin p) l = EK.Fin b ∧ 0 < b ≤ p
       ∧ (∀ i j, 0 < cnt l i j → b ≤ resid i j)
       ∧ (b = p ∨ ∃ i j, 0 < cnt l i j ∧ b = resid i j).
Proof.
  intros Hp. revert p. induction Hp as [| v l Hv Hn Hr Hp IH]; intros p Hpos.
  - exists p. split; [done |]. split; [lia |]. split; [| by left]. intros i j.
    rewrite cnt_singleton. lia.
  - destruct (tree_path_head _ _ _ _ _ _ _ Hp) as [l' ->].
    rewrite min_residual_cons2. simpl EK.min_flow.
    set (u := nthZ 0 par v) in *.
    destruct (IH (Z.min p (resid u v))) as (b & Hb & Hbp & Hedges & Hatt); [lia |].
    pose proof (cnt_nonneg (u :: l') u v) as Hnn.
    exists b. split; [done |]. split; [lia |]. split.
    + intros i j. rewrite cnt_cons2. case_decide as Hd.
      * destruct Hd as [-> ->]. lia.
      * intros Hc. apply Hedges. lia.
    + destruct Hatt as [Hmin | (i & j & Hc & Hbr)].
      * destruct (decide (p ≤ resid u v)) as [Hle | Hgt]; [left; lia |].
        right. exists u, v. rewrite cnt_cons2, decide_True by done. lia.
      * right. exists i, j. rewrite cnt_cons2. split; [| done].
        case_decide; lia.
Qed.

Lemma min_residual_Inf par v l :
  tpath par v l → v ≠ s →
  ∃ b, min_residual cap flow EK.Inf l = EK.Fin b ∧ 0 < b
       ∧ (∀ i j, 0 < cnt l i j → b ≤ resid i j)
       ∧ (∃ i j, 0 < cnt l i j ∧ b = resid i j).
Proof.
  intros Hp Hvs. destruct Hp as [| v l Hv Hn Hr Hp]; [done |].
  destruct (tree_path_head _ _ _ _ _ _ _ Hp) as [l' ->].
  rewrite min_residual_cons2. simpl EK.min_flow.
  set (u := nthZ 0 par v) in *.
  destruct (min_residual_Fin _ _ _ (resid u v) Hp)
    as (b & Hb & Hbp & Hedges & Hatt); [lia |].
  pose proof (cnt_nonneg (u :: l') u v) as Hnn.
  exists b. split; [done |]. split; [lia |]. split.
  - intros i j. rewrite cnt_cons2. case_decide as Hd.
    + destruct Hd as [-> ->]. lia.
    + intros Hc. apply Hedges. lia.
  - destruct Hatt as [Hmin | (i & j & Hc & Hbr)].
    + exists u, v. rewrite cnt_cons2, decide_True by done. lia.
    + exists i, j. rewrite cnt_cons2. split; [| done]. case_decide; lia.
Qed.

(** The second backward walk adds [b] to every edge of the path and
    subtracts it from the reverse entry. *)
Lemma update_flow_spec par v l b :
  length par = n → tpath par v l →
  ∀ fuel g, (length l ≤ S fuel)%nat → square n g →
    ∃ g', EK.update_flow fuel g par s v b = Ok g' ∧ square n g'
      ∧ ∀ i j, node n i → node n j →
          entry g' i j = entry g i j + b * cnt l i j - b * cnt l j i.
Proof.
  intros Hpar. induction 1 as [| v l Hv Hn Hr Hp IH]; intros fuel g Hfuel Hg.
  - exists g. split; [| split; [done |]].
    + destruct fuel; simpl; by rewrite bool_decide_eq_false_2 by (by intros []).
    + intros i j _ _. rewrite !cnt_singleton. lia.
  - destruct (tree_path_head _ _ _ _ _ _ _ Hp) as [l' ->].
    simpl in Hfuel. destruct fuel as [| fuel]; [lia |].
    pose proof (tree_path_node _ _ _ Hp) as Hu.
    set (u := nthZ 0 par v) in *.
    set (g1 := mat_upd g u v (entry g u v + b)).
    set (g2 := mat_upd g1 v u (entry g1 v u - b)).
    assert (Hg1 : square n g1) by by apply square_mat_upd.
    assert (Hg2 : square n g2) by by apply square_mat_upd.
    destruct (IH fuel g2) as (g' & Hrun & Hg' & Hentry); [simpl; lia | done |].
    exists g'. split; [| split; [done |]].
    + simpl EK.update_flow. rewrite bool_decide_eq_true_2 by done.
      rewrite (py_get_ok 0) by (unfold node in *; lia). simpl. fold u.
      rewrite (mat_get_ok n) by done. simpl.
      rewrite (mat_set_ok n) by done. simpl. fold g1.
      rewrite (mat_get_ok n) by done. simpl.
      rewrite (mat_set_ok n) by done. simpl. fold g2.
      done.
    + intros i j Hi Hj. rewrite Hentry by done. rewrite !cnt_cons2.
      unfold g2. rewrite (entry_mat_upd n) by (unfold node in *; done || lia).
      unfold g1. rewrite !(entry_mat_upd n) by (unfold node in *; done || lia).
      clear Hentry Hrun Hg1 Hg2 IH. clearbody u.
      repeat case_decide; destruct_and?; subst; lia.
Qed.

(** Out-degree minus in-degree along the path, for every node. *)
Lemma cnt_degree par v l i :
  tpath par v l → node n i →
  sum_over (py_range n) (cnt l i) - sum_over (py_range n) (λ j, cnt l j i)
  = (if decide (i = s) then 1 else 0) - (if decide (i = v) then 1 else 0).
Proof.
  intros Hp Hi. induction Hp as [| v l Hv Hn Hr Hp IH].
  - rewrite !sum_over_zero by (intros; apply cnt_singleton). case_decide; lia.
  - destruct (tree_path_head _ _ _ _ _ _ _ Hp) as [l' ->].
    pose proof (tree_path_node _ _ _ Hp) as Hu.
    set (u := nthZ 0 par v) in *.
    rewrite (sum_over_ext _ (cnt (v :: u :: l') i)
               (λ j, (if decide (j = v) then if decide (i = u) then 1 else 0 else 0)
                     + cnt (u :: l') i j)).
    2: { intros j _. rewrite cnt_cons2. repeat case_decide; lia. }
    rewrite (sum_over_ext _ (λ j, cnt (v :: u :: l') j i)
               (λ j, (if decide (j = u) then if decide (i = v) then 1 else 0 else 0)
                     + cnt (u :: l') j i)).
    2: { intros j _. rewrite cnt_cons2. repeat case_decide; lia. }
    rewrite !sum_over_add.
    rewrite !sum_over_single by (apply NoDup_py_range || by apply elem_of_py_range).
    lia.
Qed.

End augment_proof.

(** ** More fuel never changes a result *)

Section fuel_monotone.
  Variables (cap : Matrix) (s t : Z).

Lemma bind_Ok_inv {A B} (m : res A) (k : A → res B) (b : B) :
  m ≫= k = Ok b → ∃ a, m = Ok a ∧ k a = Ok b.
Proof. destruct m as [a | e |]; simpl; [eauto | done | done]. Qed.

Lemma bfs_loop_mono fuel : ∀ fuel' flow st r,
  EK.bfs_loop fuel cap flow t (length cap) st = Ok r → (fuel ≤ fuel')%nat →
  EK.bfs_loop fuel' cap flow t (length cap) st = Ok r.
Proof.
  induction fuel as [| fuel IH]; intros fuel' flow st r Hrun Hle; [done |].
  destruct fuel' as [| fuel']; [lia |]. simpl in *.
  destruct (EK.queue st) as [| u q]; [done |].
  apply bind_Ok_inv in Hrun as ([found st'] & -> & Hk). simpl.
  destruct found; [done |]. apply IH; [done | lia].
Qed.

Lemma bfs_mono fuel fuel' flow par r :
  EK.bfs fuel cap flow s t par = Ok r → (fuel ≤ fuel')%nat →
  EK.bfs fuel' cap flow s t par = Ok r.
Proof.
  unfold EK.bfs, EK.bfs_run. intros Hrun Hle.
  apply bind_Ok_inv in Hrun as ([found st'] & Hrun & Hk).
  apply bind_Ok_inv in Hrun as (vl & -> & Hrun). simpl.
  by rewrite (bfs_loop_mono _ _ _ _ _ Hrun Hle).
Qed.

Lemma find_bottleneck_mono fuel : ∀ fuel' flow par v pf path r,
  EK.find_bottleneck fuel cap flow par s v pf path = Ok r → (fuel ≤ fuel')%nat →
  EK.find_bottleneck fuel' cap flow par s v pf path = Ok r.
Proof.
  induction fuel as [| fuel IH]; intros fuel' flow par v pf path r Hrun Hle.
  - simpl in Hrun. case_bool_decide as Hv; [done |].
    destruct fuel'; simpl; by rewrite bool_decide_eq_false_2 by (by intros []).
  - destruct fuel' as [| fuel']; [lia |]. simpl in *.
    case_bool_decide as Hv; [| done].
    apply bind_Ok_inv in Hrun as (u & -> & Hrun). simpl.
    apply bind_Ok_inv in Hrun as (c & -> & Hrun). simpl.
    apply bind_Ok_inv in Hrun as (f & -> & Hrun). simpl.
    apply IH; [done | lia].
Qed.

Lemma update_flow_mono fuel : ∀ fuel' g par v b r,
  EK.update_flow fuel g par s v b = Ok r → (fuel ≤ fuel')%nat →
  EK.update_flow fuel' g par s v b = Ok r.
Proof.
  induction fuel as [| fuel IH]; intros fuel' g par v b r Hrun Hle.
  - simpl in Hrun. case_bool_decide as Hv; [done |].
    destruct fuel'; simpl; by rewrite bool_decide_eq_false_2 by (by intros []).
  - destruct fuel' as [| fuel']; [lia |]. simpl in *.
    case_bool_decide as Hv; [| done].
    apply bind_Ok_inv in Hrun as (u & -> & Hrun). simpl.
    apply bind_Ok_inv in Hrun as (x & -> & Hrun). simpl.
    apply bind_Ok_inv in Hrun as (g1 & -> & Hrun). simpl.
    apply bind_Ok_inv in Hrun as (y & -> & Hrun). simpl.
    apply bind_Ok_inv in Hrun as (g2 & -> & Hrun). simpl.
    apply IH; [done | lia].
Qed.

Lemma iteration_mono fuel fuel' st r :
  EK.iteration fuel cap s t st = Ok r → (fuel ≤ fuel')%nat →
  EK.iteration fuel' cap s t st = Ok r.
Proof.
  unfold EK.iteration. intros Hrun Hle.
  apply bind_Ok_inv in Hrun as ([found par] & Hbfs & Hrun).
  rewrite (bfs_mono _ _ _ _ _ Hbfs Hle). simpl.
  destruct found; [| done].
  apply bind_Ok_inv in Hrun as ([pf path] & Hfb & Hrun).
  rewrite (find_bottleneck_mono _ _ _ _ _ _ _ _ Hfb Hle). simpl.
  destruct pf as [| b]; [done |].
  apply bind_Ok_inv in Hrun as (g' & Hup & Hrun).
  by rewrite (update_flow_mono _ _ _ _ _ _ _ Hup Hle).
Qed.

Lemma main_loop_mono fuel : ∀ fuel' inner inner' st r,
  EK.main_loop fuel inner cap s t st = Ok r →
  (fuel ≤ fuel')%nat → (inner ≤ inner')%nat →
  EK.main_loop fuel' inner' cap s t st = Ok r.
Proof.
  induction fuel as [| fuel IH]; intros fuel' inner inner' st r Hrun Hle Hle'; [done |].
  destruct fuel' as [| fuel']; [lia |]. simpl in *.
  apply bind_Ok_inv in Hrun as (o & Hit & Hrun).
  rewrite (iteration_mono _ _ _ _ Hit Hle'). simpl.
  destruct o as [st' |]; [| done]. eapply IH; [done | lia | done].
Qed.

Lemma edmonds_karp_mono fuel fuel' r :
  EK.edmonds_karp fuel cap s t = Ok r → (fuel ≤ fuel')%nat →
  EK.edmonds_karp fuel' cap s t = Ok r.
Proof.
  unfold EK.edmonds_karp. intros Hrun Hle.
  apply bind_Ok_inv in Hrun as (st & Hloop & Hrun).
  by rewrite (main_loop_mono _ _ _ _ _ _ Hloop Hle Hle).
Qed.

End fuel_monotone.

(** ** Paths as recorded in the trace *)

Section paths.
  Variables (n : nat) (cap flow : Matrix) (s : Z).
  Hypothesis s_node : node n s.

Local Abbreviation resid := (residual cap flow).
Local Abbreviation tpath := (tree_path n cap flow s).
Local Abbreviation chain := (residual_chain n cap flow).

Lemma cnt_pos_back l i j : 0 < cnt l i j ↔ ∃ l1 l2, l = l1 ++ j :: i :: l2.
Proof.
  split.
  - induction l as [| x l IH]; [rewrite (eq_refl : cnt [] i j = 0); lia |].
    destruct l as [| u l]; [rewrite cnt_singleton; lia |].
    rewrite cnt_cons2. case_decide as Hd.
    + destruct Hd as [-> ->]. intros _. by exists [], l.
    + intros Hc. destruct IH as (l1 & l2 & Heq); [lia |].
      exists (x :: l1), l2. by rewrite Heq.
  - intros (l1 & l2 & ->). induction l1 as [| a l1 IH].
    + simpl. rewrite cnt_cons2, decide_True by done.
      pose proof (cnt_nonneg (i :: l2) i j). lia.
    + destruct l1 as [| b l1]; simpl in *; rewrite cnt_cons2; case_decide; lia.
Qed.

Lemma edge_of_reverse l i j :
  edge_of (reverse l) i j ↔ ∃ l1 l2, l = l1 ++ j :: i :: l2.
Proof.
  unfold edge_of. split.
  - intros (p1 & p2 & Heq). exists (reverse p2), (reverse p1).
    rewrite <- (reverse_involutive l), Heq.
    rewrite reverse_app, !reverse_cons, <- !app_assoc. done.
  - intros (l1 & l2 & ->). exists (reverse l2), (reverse l1).
    rewrite reverse_app, !reverse_cons, <- !app_assoc. done.
Qed.

Lemma cnt_pos_edge l i j : 0 < cnt l i j ↔ edge_of (reverse l) i j.
Proof. by rewrite cnt_pos_back, edge_of_reverse. Qed.

Lemma chain_snoc p : ∀ u y v,
  chain u p → last (u :: p) = Some y → node n v → resid y v > 0 →
  chain u (p ++ [v]).
Proof.
  induction p as [| a p IH]; intros u y v Hc Hl Hv Hr; simpl in *.
  - injection Hl as ->. done.
  - destruct Hc as (Ha & Hra & Hc). split; [done |]. split; [done |].
    by apply (IH a y).
Qed.

(** The reversed list of parent links is a walk from the source. *)
Lemma tree_path_chain par v l :
  tpath par v l →
  ∃ p, reverse l = s :: p ∧ chain s p ∧ last (reverse l) = Some v.
Proof.
  induction 1 as [| v l Hv Hn Hr Hp IH].
  - by exists [].
  - destruct IH as (p & Heq & Hc & Hl). exists (p ++ [v]).
    rewrite reverse_cons, Heq. split; [done |]. split.
    + eapply chain_snoc; [done | | done | done]. by rewrite <- Heq.
    + by rewrite last_snoc.
Qed.

Lemma chain_walk p : ∀ k u x,
  walk n cap flow s k u → chain u p → last (u :: p) = Some x →
  walk n cap flow s (k + length p) x.
Proof.
  induction p as [| a p IH]; intros k u x Hw Hc Hl; simpl in *.
  - injection Hl as ->. by rewrite Nat.add_0_r.
  - destruct Hc as (Ha & Hra & Hc).
    replace (k + S (length p))%nat with (S k + length p)%nat by lia.
    apply (IH (S k) a); [| done | done]. by econstructor.
Qed.

Lemma augmenting_path_walk t p :
  augmenting_path n cap flow s t p →
  ∃ k, walk n cap flow s k t ∧ length p = S k.
Proof.
  intros (p' & -> & _ & Hc & Hl). exists (length p'). split; [| done].
  apply (chain_walk p' 0%nat s); [constructor | done | done].
Qed.

End paths.

(** ** The main loop of [edmonds_karp] *)

Section main_proof.
  Variables (n : nat) (cap : Matrix) (s t : Z).
  Hypothesis cap_square : square n cap.
  Hypothesis s_node : node n s.
  Hypothesis t_node : node n t.
  Hypothesis s_ne_t : s ≠ t.

Lemma path_length_le (l : list Z) :
  NoDup l → (∀ x, x ∈ l → node n x) → (length l ≤ n)%nat.
Proof.
  intros Hnd Hin.
  assert (Hsub : l ⊆+ py_range n).
  { apply NoDup_submseteq; [done |]. intros x Hx. by apply elem_of_py_range, Hin. }
  apply submseteq_length in Hsub. unfold py_range in Hsub.
  rewrite length_seqZ in Hsub. lia.
Qed.

Lemma augment_inv st par l b g' hist :
  flow_inv n cap s t st →
  tree_path n cap (EK.flow_matrix st) s par t l → NoDup l → length par = n →
  0 < b →
  (∀ i j, 0 < cnt l i j → b ≤ residual cap (EK.flow_matrix st) i j) →
  square n g' →
  (∀ i j, node n i → node n j →
     entry g' i j = entry (EK.flow_matrix st) i j + b * cnt l i j - b * cnt l j i) →
  flow_inv n cap s t (EK.State g' par (EK.max_flow st + b) hist).
Proof.
  intros Hinv Hp Hnd Hpar Hb Hedges Hg' Hentry.
  assert (Hrow : ∀ i, node n i →
    row_sum n g' i = row_sum n (EK.flow_matrix st) i
      + b * ((if decide (i = s) then 1 else 0) - (if decide (i = t) then 1 else 0))).
  { intros i Hi. unfold row_sum.
    rewrite <- (cnt_degree n cap (EK.flow_matrix st) s s_node par t l i Hp Hi).
    rewrite (sum_over_ext _ (entry g' i)
               (λ j, entry (EK.flow_matrix st) i j + b * cnt l i j - b * cnt l j i)).
    2: { intros j Hj. apply Hentry; [done | by apply elem_of_py_range]. }
    rewrite sum_over_sub, sum_over_add, !sum_over_scale. lia. }
  constructor; simpl.
  - done.
  - done.
  - intros i j Hi Hj. rewrite !Hentry by done.
    rewrite (fi_antisym _ _ _ _ _ Hinv i j) by done. lia.
  - intros i j Hi Hj. rewrite Hentry by done.
    pose proof (fi_bounded _ _ _ _ _ Hinv i j Hi Hj) as Hbd.
    pose proof (cnt_nonneg l i j) as Hij. pose proof (cnt_nonneg l j i) as Hji.
    pose proof (cnt_le_1 l i j Hnd) as Hij1.
    destruct (decide (cnt l i j = 0)) as [Hz | Hnz].
    + rewrite Hz. assert (0 ≤ b * cnt l j i) by (apply Z.mul_nonneg_nonneg; lia).
      lia.
    + assert (Hone : cnt l i j = 1) by lia.
      rewrite (cnt_exclusive l i j) by (done || lia). rewrite Hone.
      pose proof (Hedges i j) as He. unfold residual in He. lia.
  - intros i Hi His Hit. rewrite Hrow by done.
    rewrite (fi_conserve _ _ _ _ _ Hinv) by done.
    rewrite !decide_False by done. lia.
  - rewrite Hrow by done. rewrite (fi_value _ _ _ _ _ Hinv).
    rewrite decide_True, decide_False by done. lia.
Qed.

(** One evaluation of the loop condition and, if it holds, of the body. *)
Lemma iteration_spec st fuel :
  flow_inv n cap s t st → (n < fuel)%nat →
  ∃ r, EK.iteration fuel cap s t st = Ok r
    ∧ match r with
      | Some st' => flow_inv n cap s t st' ∧ step_post n cap s t st st'
      | None => exit_post n cap s t st
      end.
Proof.
  intros Hinv Hfuel. unfold EK.iteration.
  pose proof (fi_square _ _ _ _ _ Hinv) as Hsq.
  destruct (bfs_spec n cap (EK.flow_matrix st) s t cap_square Hsq s_node t_node s_ne_t
              fuel (EK.st_parent st) (fi_parent _ _ _ _ _ Hinv) Hfuel)
    as (found & par & Hbfs & Hpar & Hpost).
  rewrite Hbfs. simpl. destruct found; [| by exists None].
  destruct Hpost as (l & Hp & Hnd & Hshort).
  assert (Hlen : (length l ≤ S fuel)%nat).
  { pose proof (path_length_le l Hnd
                  (tree_path_nodes n cap (EK.flow_matrix st) s s_node par t l Hp)). lia. }
  rewrite (find_bottleneck_spec n cap (EK.flow_matrix st) s cap_square Hsq s_node
             par t l Hpar Hp) by done.
  simpl.
  destruct (min_residual_Inf n cap (EK.flow_matrix st) s par t l Hp)
    as (b & -> & Hb & Hedges & (i & j & Hcij & Hbij)); [done |].
  destruct (update_flow_spec n cap (EK.flow_matrix st) s cap_square Hsq s_node
              par t l b Hpar Hp fuel (EK.flow_matrix st) Hlen Hsq)
    as (g' & -> & Hg' & Hentry).
  simpl. eexists. split; [done |].
  destruct (tree_path_head _ _ _ _ _ _ _ Hp) as [l' ->]. simpl tail.
  split.
  - eapply augment_inv; done.
  - exists (reverse (t :: l')), b. simpl.
    split; [done |]. split; [done |]. split; [lia |]. split; [| split].
    + split.
      * exists i, j. split; [by apply cnt_pos_edge | done].
      * intros u v Huv. apply Hedges. by apply cnt_pos_edge.
    + destruct (tree_path_chain n cap (EK.flow_matrix st) s par t (t :: l') Hp)
        as (p & Heq & Hc & Hl).
      exists p. done.
    + intros q Hq. rewrite length_reverse.
      destruct (augmenting_path_walk n cap (EK.flow_matrix st) s t q Hq)
        as (k & Hk & ->).
      by apply Hshort.
Qed.

(** The loop terminates: the flow value grows by at least one per turn and
    never exceeds the capacity of the edges leaving the source. *)
Lemma main_loop_spec fuel : ∀ st inner,
  flow_inv n cap s t st → (n < inner)%nat →
  (Z.to_nat (row_sum n cap s - EK.max_flow st) < fuel)%nat →
  ∃ st', EK.main_loop fuel inner cap s t st = Ok st'
    ∧ flow_inv n cap s t st' ∧ exit_post n cap s t st'.
Proof.
  induction fuel as [| fuel IH]; intros st inner Hinv Hinner Hfuel; [lia |].
  simpl. destruct (iteration_spec st inner Hinv Hinner) as (r & -> & Hr). simpl.
  destruct r as [st' |]; [| by exists st].
  destruct Hr as [Hinv' (p & b & _ & Hmf & Hb & _)].
  apply IH; [done | done |].
  assert (EK.max_flow st' ≤ row_sum n cap s).
  { rewrite <- (fi_value _ _ _ _ _ Hinv'). apply sum_over_le.
    intros j Hj. apply (fi_bounded _ _ _ _ _ Hinv'); [done |].
    by apply elem_of_py_range. }
  lia.
Qed.

End main_proof.

(** ** Inputs, runs and results *)

Section results.
  Variables (n : nat) (cap : Matrix) (s t : Z).
  Hypothesis valid : valid_input n cap s t.

Lemma initial_inv : flow_inv n cap s t (EK.initial_state cap).
Proof.
  destruct valid as (Hsq & Hnn & Hs & Ht & Hst).
  unfold EK.initial_state. destruct Hsq as [Hlen Hrows]. rewrite Hlen.
  constructor; simpl.
  - apply square_zero_matrix.
  - by rewrite length_replicate.
  - intros i j Hi Hj. by rewrite !entry_zero_matrix.
  - intros i j Hi Hj. rewrite entry_zero_matrix by done.
    by apply (nonneg_entry n).
  - intros i Hi _ _. apply sum_over_zero. intros j Hj.
    apply entry_zero_matrix; [done | by apply elem_of_py_range].
  - apply sum_over_zero. intros j Hj.
    apply entry_zero_matrix; [done | by apply elem_of_py_range].
Qed.

Lemma reachable_inv st : reachable cap s t st → flow_inv n cap s t st.
Proof.
  destruct valid as (Hsq & Hnn & Hs & Ht & Hst).
  induction 1 as [| fuel st st' Hreach IH Hit]; [apply initial_inv |].
  destruct (iteration_spec n cap s t Hsq Hs Ht Hst st (fuel `max` S n) IH)
    as (r & Hr & Hpost); [lia |].
  rewrite (iteration_mono _ _ _ _ _ _ _ Hit) in Hr by lia.
  injection Hr as <-. apply Hpost.
Qed.

Lemma reachable_step_post st st' fuel :
  reachable cap s t st → EK.iteration fuel cap s t st = Ok (Some st') →
  step_post n cap s t st st'.
Proof.
  destruct valid as (Hsq & Hnn & Hs & Ht & Hst). intros Hreach Hit.
  destruct (iteration_spec n cap s t Hsq Hs Ht Hst st (fuel `max` S n)
              (reachable_inv st Hreach)) as (r & Hr & Hpost); [lia |].
  rewrite (iteration_mono _ _ _ _ _ _ _ Hit) in Hr by lia.
  injection Hr as <-. apply Hpost.
Qed.

(** The run ends, with the same result for every sufficient fuel. *)
Lemma edmonds_karp_total :
  ∃ st, (∀ fuel, (enough_fuel n cap s ≤ fuel)%nat →
           EK.edmonds_karp fuel cap s t
           = Ok (EK.max_flow st, EK.flow_matrix st, EK.path_history st))
        ∧ flow_inv n cap s t st ∧ exit_post n cap s t st.
Proof.
  destruct valid as (Hsq & Hnn & Hs & Ht & Hst).
  set (N := enough_fuel n cap s).
  destruct (main_loop_spec n cap s t Hsq Hs Ht Hst N (EK.initial_state cap) N
              initial_inv) as (st & Hrun & Hinv & Hexit).
  { unfold N, enough_fuel. lia. }
  { unfold N, enough_fuel. simpl. rewrite Z.sub_0_r. lia. }
  exists st. split; [| done]. intros fuel Hfuel.
  apply (edmonds_karp_mono _ _ _ N); [| done].
  unfold EK.edmonds_karp. by rewrite Hrun.
Qed.

Lemma chain_closed flow visited p : ∀ u x,
  not_found_post n cap flow s t visited →
  vis n visited u → residual_chain n cap flow u p → last (u :: p) = Some x →
  vis n visited x.
Proof.
  induction p as [| a p IH]; intros u x Hpost Hu Hc Hl; simpl in *.
  - by injection Hl as <-.
  - destruct Hc as (Ha & Hr & Hc). apply (IH a); [done | | done | done].
    destruct Hpost as (_ & _ & _ & Hcl). by apply (Hcl u).
Qed.

(** When the loop is left, no augmenting path remains. *)
Lemma exit_no_path st p :
  exit_post n cap s t st → ¬ augmenting_path n cap (EK.flow_matrix st) s t p.
Proof.
  intros [visited Hpost] (p' & -> & _ & Hc & Hl).
  pose proof Hpost as (_ & Hs & Ht & _). apply Ht.
  by apply (chain_closed (EK.flow_matrix st) visited p' s).
Qed.

Lemma nodes_facts :
  NoDup (py_range n) ∧ s ∈ py_range n ∧ t ∈ py_range n.
Proof.
  destruct valid as (Hsq & Hnn & Hs & Ht & Hst).
  split; [apply NoDup_py_range |]. split; by apply elem_of_py_range.
Qed.

(** Weak duality for the solver's matrix ... *)
Lemma inv_value_le_cut st S :
  flow_inv n cap s t st → separates s t S →
  EK.max_flow st ≤ cut_capacity n cap S.
Proof.
  intros Hinv [HSs HSt]. destruct nodes_facts as (Hnd & Hs & Ht).
  rewrite <- (fi_value _ _ _ _ _ Hinv). unfold row_sum, cut_capacity.
  apply (value_le_cut _ _ _ s t); try done.
  - intros i j Hi Hj. apply (fi_antisym _ _ _ _ _ Hinv); by apply elem_of_py_range.
  - intros i j Hi Hj. apply (fi_bounded _ _ _ _ _ Hinv); by apply elem_of_py_range.
  - intros i Hi His Hit. apply (fi_conserve _ _ _ _ _ Hinv); [| done | done].
    by apply elem_of_py_range.
Qed.

(** ... and for every flow in the textbook sense. *)
Lemma feasible_value_le_cut f S :
  feasible_flow n cap s t f → separates s t S →
  flow_value n f s ≤ cut_capacity n cap S.
Proof.
  intros (Hsq & Hbd & Hcons) [HSs HSt]. destruct nodes_facts as (Hnd & Hs & Ht).
  set (h := λ i j, entry f i j - entry f j i).
  assert (Hrow : ∀ i, sum_over (py_range n) (h i) = row_sum n f i - col_sum n f i).
  { intros i. unfold h, row_sum, col_sum. by rewrite sum_over_sub. }
  unfold flow_value, cut_capacity. rewrite <- Hrow.
  apply (value_le_cut _ _ _ s t); try done.
  - intros i j Hi Hj. unfold h. lia.
  - intros i j Hi Hj. unfold h. apply elem_of_py_range in Hi, Hj.
    pose proof (Hbd i j Hi Hj). pose proof (Hbd j i Hj Hi). lia.
  - intros i Hi His Hit. rewrite Hrow. apply elem_of_py_range in Hi.
    rewrite (Hcons i) by done. lia.
Qed.

(** The nodes visited by the last search form a cut that the flow fills. *)
Lemma inv_saturated_cut st :
  flow_inv n cap s t st → exit_post n cap s t st →
  ∃ S, separates s t S ∧ cut_capacity n cap S = EK.max_flow st.
Proof.
  intros Hinv [visited (Hlen & Hvs & Hvt & Hcl)].
  destruct valid as (Hsq & Hnn & Hsn & Htn & Hst).
  destruct nodes_facts as (Hnd & Hs & Ht).
  exists (nthZ false visited). split.
  - split; [apply Hvs |]. destruct (nthZ false visited t) eqn:Hv; [| done].
    exfalso. by apply Hvt.
  - rewrite <- (fi_value _ _ _ _ _ Hinv). unfold row_sum, cut_capacity. symmetry.
    apply (value_eq_saturated_cut _ _ _ s t); try done.
    + intros i j Hi Hj. apply (fi_antisym _ _ _ _ _ Hinv); by apply elem_of_py_range.
    + intros i j Hi Hj. apply (fi_bounded _ _ _ _ _ Hinv); by apply elem_of_py_range.
    + intros i Hi His Hit. apply (fi_conserve _ _ _ _ _ Hinv); [| done | done].
      by apply elem_of_py_range.
    + apply Hvs.
    + destruct (nthZ false visited t) eqn:Hv; [| done]. exfalso. by apply Hvt.
    + intros i j Hi Hj HSi HSj. apply elem_of_py_range in Hi, Hj.
      destruct (decide (residual cap (EK.flow_matrix st) i j > 0)) as [Hr | Hr].
      * assert (Hvj : vis n visited j) by (by apply (Hcl i j)).
        destruct Hvj as [_ Hvj]. congruence.
      * unfold residual in Hr. lia.
Qed.

Lemma entry_positive_part g i j :
  square n g → node n i → node n j →
  entry (positive_part g) i j = Z.max 0 (entry g i j).
Proof.
  intros [Hlen Hrows] Hi Hj. rewrite Forall_forall in Hrows.
  unfold entry, positive_part, nthZ, node in *.
  rewrite list_lookup_fmap.
  destruct (lookup_lt_is_Some_2 g (Z.to_nat i)) as [row Hrow]; [lia |].
  rewrite Hrow. simpl. rewrite list_lookup_fmap.
  assert (length row = n) by (eapply Hrows, list_elem_of_lookup_2; done).
  destruct (lookup_lt_is_Some_2 row (Z.to_nat j)) as [x Hx]; [lia |].
  by rewrite Hx.
Qed.

Lemma square_positive_part g : square n g → square n (positive_part g).
Proof.
  intros [Hlen Hrows]. unfold positive_part. split; [by rewrite length_fmap |].
  apply Forall_fmap. eapply Forall_impl; [done |].
  intros row Hrow. simpl. by rewrite length_fmap.
Qed.

(** Shipped units leaving a node minus those entering it is the row sum of
    the antisymmetric matrix. *)
Lemma outflow_minus_inflow st v :
  flow_inv n cap s t st → node n v →
  outflow n (EK.flow_matrix st) v - inflow n (EK.flow_matrix st) v
  = row_sum n (EK.flow_matrix st) v.
Proof.
  intros Hinv Hv. unfold outflow, inflow, row_sum, col_sum.
  rewrite <- sum_over_sub. apply sum_over_ext. intros j Hj.
  apply elem_of_py_range in Hj.
  rewrite !entry_positive_part by (done || apply Hinv).
  rewrite (fi_antisym _ _ _ _ _ Hinv j v) by done. lia.
Qed.

(** The shipped units are a flow in the textbook sense, of the value the
    solver reports. *)
Lemma positive_part_feasible st :
  flow_inv n cap s t st →
  feasible_flow n cap s t (positive_part (EK.flow_matrix st))
  ∧ flow_value n (positive_part (EK.flow_matrix st)) s = EK.max_flow st.
Proof.
  intros Hinv. destruct valid as (Hsq & Hnn & Hsn & Htn & Hst).
  split; [split; [| split] |].
  - apply square_positive_part, Hinv.
  - intros i j Hi Hj. rewrite entry_positive_part by (done || apply Hinv).
    pose proof (fi_bounded _ _ _ _ _ Hinv i j Hi Hj).
    pose proof (nonneg_entry n cap i j Hsq Hnn Hi Hj). lia.
  - intros v Hv Hvs Hvt.
    pose proof (outflow_minus_inflow st v Hinv Hv) as Hd.
    rewrite (fi_conserve _ _ _ _ _ Hinv) in Hd by done.
    unfold outflow, inflow in Hd. lia.
  - rewrite <- (fi_value _ _ _ _ _ Hinv).
    by rewrite <- outflow_minus_inflow.
Qed.

End results.

(** ** Structure of the main loop *)

Lemma main_loop_exit fuel : ∀ inner cap s t st st',
  EK.main_loop fuel inner cap s t st = Ok st' →
  EK.iteration inner cap s t st' = Ok None.
Proof.
  induction fuel as [| fuel IH]; intros inner cap s t st st' Hrun; [done |].
  simpl in Hrun. apply bind_Ok_inv in Hrun as (r & Hit & Hrun).
  destruct r as [st1 |]; [by eapply IH |]. by injection Hrun as <-.
Qed.

Lemma main_loop_reachable fuel : ∀ inner cap s t st st',
  EK.main_loop fuel inner cap s t st = Ok st' →
  reachable cap s t st → reachable cap s t st'.
Proof.
  induction fuel as [| fuel IH]; intros inner cap s t st st' Hrun Hreach; [done |].
  simpl in Hrun. apply bind_Ok_inv in Hrun as (r & Hit & Hrun).
  destruct r as [st1 |]; [| by injection Hrun as <-].
  eapply IH; [done |]. by eapply reachable_step.
Qed.

Lemma iteration_None_bfs fuel cap s t st :
  EK.iteration fuel cap s t st = Ok None →
  ∃ par, EK.bfs fuel cap (EK.flow_matrix st) s t (EK.st_parent st) = Ok (false, par).
Proof.
  unfold EK.iteration. intros Hrun.
  apply bind_Ok_inv in Hrun as ([found par] & Hbfs & Hrun).
  destruct found; [| by exists par].
  apply bind_Ok_inv in Hrun as ([pf path] & _ & Hrun).
  destruct pf as [| b]; [done |].
  apply bind_Ok_inv in Hrun as (g' & _ & Hrun). done.
Qed.

(** ** Reachability along edges of positive capacity *)

Lemma residual_chain_zero n cap p : ∀ u,
  node n u → residual_chain n cap (zero_matrix n) u p → capacity_chain n cap u p.
Proof.
  induction p as [| v p IH]; intros u Hu Hc; simpl in *; [done |].
  destruct Hc as (Hv & Hr & Hc). split; [done |]. split; [| by apply IH].
  unfold residual in Hr. rewrite entry_zero_matrix in Hr by done. lia.
Qed.

Lemma single_edge_step :
  EK.iteration 5 single_edge 0 1 (EK.initial_state single_edge)
  = Ok (Some single_edge_final).
Proof. reflexivity. Qed.

(** ** Per-hub utilization in [analyze_network] *)

Lemma py_for_cons {A S} (x : A) (l : list A) (body : A → S → res S) (st : S) :
  py_for (x :: l) body st = body x st ≫= py_for l body.
Proof. done. Qed.

Section utilization.
  Variables (n : nat) (cap flow : Matrix).
  Hypothesis cap_square : square n cap.
  Hypothesis flow_square : square n flow.

Lemma py_for_sum_others (f : Z → Z) (get : Z → res Z) (w : Z) (l : list Z) :
  (∀ i, i ∈ l → i ≠ w → get i = Ok (f i)) →
  ∀ acc,
    py_for l (λ i acc,
      if bool_decide (i ≠ w) then x ← get i; Ok (acc + x) else Ok acc) acc
    = Ok (acc + sum_over l (λ i, if decide (i = w) then 0 else f i)).
Proof.
  induction l as [| a l IH]; intros Hget acc.
  - simpl. by rewrite Z.add_0_r.
  - rewrite py_for_cons. cbv beta.
    assert (Hl : ∀ i, i ∈ l → i ≠ w → get i = Ok (f i))
      by (intros i Hi; apply Hget; by right).
    case_bool_decide as Ha.
    + rewrite Hget by (done || left).
      change (Ok (f a) ≫= ?k) with (k (f a)). cbv beta.
      change (Ok ?x ≫= ?k) with (k x). cbv beta.
      rewrite (IH Hl). simpl sum_over.
      rewrite decide_False by done. f_equal; lia.
    + change (Ok ?x ≫= ?k) with (k x). cbv beta.
      rewrite (IH Hl). simpl sum_over.
      rewrite decide_True by done. f_equal; lia.
Qed.

Lemma sum_into_spec (m : Matrix) (w : Z) :
  square n m → node n w →
  Net.sum_into m n w = Ok (sum_others n w (λ i, entry m i w)).
Proof.
  intros Hm Hw. unfold Net.sum_into, sum_others.
  rewrite (py_for_sum_others (λ i, entry m i w)); [done |].
  intros i Hi _. apply (mat_get_ok n); [done | by apply elem_of_py_range | done].
Qed.

Lemma sum_out_of_spec (m : Matrix) (w : Z) :
  square n m → node n w →
  Net.sum_out_of m n w = Ok (sum_others n w (entry m w)).
Proof.
  intros Hm Hw. unfold Net.sum_out_of, sum_others.
  rewrite (py_for_sum_others (entry m w)); [done |].
  intros i Hi _. apply (mat_get_ok n); [done | done | by apply elem_of_py_range].
Qed.

(** One hub: the four sums never fail, only the float percentages may. *)
Lemma warehouse_record_spec (w : Z) :
  node n w →
  Net.warehouse_record cap flow n w
  = (in_u ← Net.utilization_percent (sum_others n w (λ i, entry flow i w))
              (sum_others n w (λ i, entry cap i w));
     out_u ← Net.utilization_percent (sum_others n w (entry flow w))
               (sum_others n w (entry cap w));
     Ok (Net.Utilization
           (sum_others n w (λ i, entry flow i w)) (sum_others n w (entry flow w))
           (sum_others n w (λ i, entry cap i w)) (sum_others n w (entry cap w))
           in_u out_u)).
Proof.
  intros Hw. unfold Net.warehouse_record.
  rewrite !sum_into_spec, !sum_out_of_spec by done. done.
Qed.

Lemma utilization_percent_inv (amount total u : Z) :
  Net.utilization_percent amount total = Ok u →
  if decide (0 < total)
  then ∃ q, Float.true_div amount total = Ok q
            ∧ Float.round (Float.mul q (Float.of_int 100)) = Ok u
  else u = 0.
Proof.
  unfold Net.utilization_percent. intros Hrun.
  case_bool_decide as Ht.
  - rewrite decide_True by lia.
    apply bind_Ok_inv in Hrun as (q & Hq & Hr). by exists q.
  - rewrite decide_False by lia. by injection Hrun as <-.
Qed.

End utilization.

Lemma warehouse_loop_lookup (cap flow : Matrix) (n : nat) (ni : gmap string Z)
    (names : list string) : ∀ (m0 result : gmap string Net.utilization),
  NoDup names →
  py_for names (λ w warehouse_utilization,
    w_idx ← dict_get ni w;
    r ← Net.warehouse_record cap flow n w_idx;
    Ok (<[w := r]> warehouse_utilization)) m0 = Ok result →
  (∀ name, name ∈ names →
     ∃ w r, ni !! name = Some w ∧ Net.warehouse_record cap flow n w = Ok r
            ∧ result !! name = Some r)
  ∧ (∀ k, k ∉ names → result !! k = m0 !! k).
Proof.
  induction names as [| a names IH]; intros m0 result Hnd Hrun.
  - simpl in Hrun. injection Hrun as <-. split; [| done].
    intros name Hin. by apply elem_of_nil in Hin.
  - apply NoDup_cons in Hnd as [Ha Hnd].
    rewrite py_for_cons in Hrun.
    apply bind_Ok_inv in Hrun as (m1 & Hbody & Hrun).
    apply bind_Ok_inv in Hbody as (w & Hw & Hbody).
    apply bind_Ok_inv in Hbody as (r & Hr & Hm1). injection Hm1 as <-.
    destruct (IH _ _ Hnd Hrun) as [Hin Hout].
    unfold dict_get in Hw. destruct (ni !! a) as [w' |] eqn:Hlook; [| done].
    injection Hw as ->. split.
    + intros name Hname. apply elem_of_cons in Hname as [-> | Hname]; [| by apply Hin].
      exists w, r. split; [done |]. split; [done |].
      rewrite Hout by done. by rewrite lookup_insert_eq.
    + intros k Hk. apply not_elem_of_cons in Hk as [Hka Hk].
      rewrite Hout by done. by rewrite lookup_insert_ne.
Qed.

(** ** Python indices anywhere in [-len, len) *)

Section py_range_lists.
  Context {A : Type}.
  Implicit Types (l : list A) (i : Z) (x : A).

Lemma py_index_in (len : nat) i :
  in_py_range len i → ∃ k, py_index len i = Ok k ∧ (k < len)%nat.
Proof.
  unfold in_py_range, py_index. intros Hi.
  case_bool_decide as H0; [exists (Z.to_nat i); split; [done | lia] |].
  rewrite bool_decide_eq_true_2 by lia.
  exists (Z.to_nat (Z.of_nat len + i)). split; [done | lia].
Qed.

Lemma py_index_out (len : nat) i :
  ¬ in_py_range len i → py_index len i = Raise IndexError.
Proof.
  unfold in_py_range, py_index. intros Hi.
  rewrite !bool_decide_eq_false_2; [done | lia | lia].
Qed.

Lemma py_get_in l i :
  in_py_range (length l) i → ∃ x, py_get l i = Ok x ∧ x ∈ l.
Proof.
  intros Hi. destruct (py_index_in _ _ Hi) as (k & Hk & Hlt).
  unfold py_get. rewrite Hk. simpl.
  destruct (lookup_lt_is_Some_2 l k Hlt) as [x Hx]. rewrite Hx.
  exists x. split; [done |]. by eapply list_elem_of_lookup_2.
Qed.

Lemma py_get_out l i : ¬ in_py_range (length l) i → py_get l i = Raise IndexError.
Proof. intros Hi. unfold py_get. by rewrite py_index_out. Qed.

Lemma py_set_in l i x :
  in_py_range (length l) i → ∃ k, py_set l i x = Ok (<[k := x]> l).
Proof.
  intros Hi. destruct (py_index_in _ _ Hi) as (k & Hk & Hlt).
  unfold py_set. rewrite Hk. by exists k.
Qed.

Lemma py_set_out l i x : ¬ in_py_range (length l) i → py_set l i x = Raise IndexError.
Proof. intros Hi. unfold py_set. by rewrite py_index_out. Qed.

End py_range_lists.

Section matrix_writes.
  Variable N : nat.
  Implicit Types (m : Matrix) (i j x : Z).

Lemma mat_set_in m i j x :
  square N m → in_py_range N i → in_py_range N j →
  ∃ m', mat_set m i j x = Ok m' ∧ square N m'.
Proof.
  intros [Hlen Hrows] Hi Hj. unfold mat_set.
  destruct (py_get_in m i) as (row & -> & Hrow); [by rewrite Hlen |]. simpl.
  assert (Hrl : length row = N) by (rewrite Forall_forall in Hrows; by apply Hrows).
  destruct (py_set_in row j x) as (k & ->); [by rewrite Hrl |]. simpl.
  destruct (py_set_in m i (<[k := x]> row)) as (k' & ->); [by rewrite Hlen |].
  eexists. split; [done |]. split; [by rewrite length_insert |].
  apply Forall_insert; [done |]. by rewrite length_insert.
Qed.

Lemma mat_set_out_row m i j x :
  square N m → ¬ in_py_range N i → mat_set m i j x = Raise IndexError.
Proof.
  intros [Hlen Hrows] Hi. unfold mat_set.
  by rewrite py_get_out by (by rewrite Hlen).
Qed.

Lemma mat_set_out_col m i j x :
  square N m → in_py_range N i → ¬ in_py_range N j →
  mat_set m i j x = Raise IndexError.
Proof.
  intros [Hlen Hrows] Hi Hj. unfold mat_set.
  destruct (py_get_in m i) as (row & -> & Hrow); [by rewrite Hlen |]. simpl.
  assert (Hrl : length row = N) by (rewrite Forall_forall in Hrows; by apply Hrows).
  by rewrite py_set_out by (by rewrite Hrl).
Qed.

End matrix_writes.

(** ** The wiring loops of [main] *)

Lemma py_for_inv {A S} (P : S → Prop) (l : list A) (body : A → S → res S) :
  (∀ x st, x ∈ l → P st → ∃ st', body x st = Ok st' ∧ P st') →
  ∀ st, P st → ∃ st', py_for l body st = Ok st' ∧ P st'.
Proof.
  induction l as [| a l IH]; intros Hbody st Hst; [by exists st |].
  rewrite py_for_cons.
  destruct (Hbody a st) as (st1 & -> & Hst1); [left | done |].
  apply IH; [| done]. intros x st' Hx. apply Hbody. by right.
Qed.

Section wiring.
  Variables (N : nat) (ni : gmap string Z) (set : Matrix → Z → res Matrix).
  Hypothesis set_in : ∀ e i,
    square N e → in_py_range N i → ∃ e', set e i = Ok e' ∧ square N e'.
  Hypothesis set_out : ∀ e i,
    square N e → ¬ in_py_range N i → set e i = Raise IndexError.

(** A loop that looks up each name and writes at its index. *)
Lemma wire_loop (names : list string) : ∀ e,
  square N e → Forall (λ name, is_Some (ni !! name)) names →
  if decide (Forall (indexed_in_range N ni) names)
  then ∃ e', py_for names (λ name e, idx ← dict_get ni name; set e idx) e = Ok e'
             ∧ square N e'
  else py_for names (λ name e, idx ← dict_get ni name; set e idx) e
       = Raise IndexError.
Proof.
  induction names as [| a names IH]; intros e He Hpresent.
  - rewrite decide_True by constructor. by exists e.
  - apply Forall_cons in Hpresent as [[i Hi] Hpresent].
    assert (Hget : dict_get ni a = Ok i) by (unfold dict_get; by rewrite Hi).
    rewrite py_for_cons, Hget. simpl.
    destruct (decide (in_py_range N i)) as [Hin | Hout].
    + destruct (set_in e i He Hin) as (e1 & -> & He1). simpl.
      specialize (IH e1 He1 Hpresent).
      destruct (decide (Forall (indexed_in_range N ni) names)) as [Hall | Hnot].
      * rewrite decide_True; [done |]. constructor; [| done].
        unfold indexed_in_range. by rewrite Hi.
      * rewrite decide_False; [done |]. intros Hall.
        by apply Forall_cons in Hall as [_ Hall].
    + rewrite set_out by done. simpl.
      rewrite decide_False; [done |]. intros Hall.
      apply Forall_cons in Hall as [Ha _]. unfold indexed_in_range in Ha.
      by rewrite Hi in Ha.
Qed.

End wiring.

Lemma extend_capacity_ok (n : nat) (cap : Matrix) :
  square n cap →
  ∃ ext, Task1.extend_capacity n cap = Ok ext ∧ square (n + 2) ext.
Proof.
  intros Hsq. unfold Task1.extend_capacity.
  apply (py_for_inv (square (n + 2))); [| apply square_zero_matrix].
  intros i ext Hi Hext. apply elem_of_py_range in Hi.
  apply (py_for_inv (square (n + 2))); [| done].
  intros j ext' Hj Hext'. apply elem_of_py_range in Hj.
  rewrite (mat_get_ok n) by done. simpl.
  rewrite (mat_set_ok (n + 2)) by (done || lia).
  eexists. split; [done |]. by apply square_mat_upd.
Qed.

(** ** The program's own solve *)

Lemma indexed_all_lookup ni names (Q : Z → Prop) name idx :
  indexed_all ni names Q → name ∈ names → ni !! name = Some idx → Q idx.
Proof.
  unfold indexed_all. rewrite Forall_forall. intros Hall Hname Hidx.
  specialize (Hall name Hname). by rewrite Hidx in Hall.
Qed.

Lemma nodes_forall (n : nat) (P : Z → Z → Prop) :
  Forall (λ i, Forall (P i) (py_range n)) (py_range n) →
  ∀ i j, node n i → node n j → P i j.
Proof.
  rewrite Forall_forall. intros Hall i j Hi Hj.
  apply elem_of_py_range in Hi, Hj. specialize (Hall i Hi).
  rewrite Forall_forall in Hall. by apply Hall.
Qed.

(** The maximum flow of the program's network. *)
Example logistics_max_flow : logistics_result.1.1 = 115.
Proof. reflexivity. Qed.

(** ** What the solver can raise

    On any input whatsoever the solver raises nothing but [IndexError]: in
    particular [path_flow] never reaches the flow matrix as [float('Inf')],
    because [bfs] returns [True] only for a sink other than the source. *)

Lemma only_index_error_bind {A B} (m : res A) (k : A → res B) :
  only_index_error m → (∀ a, m = Ok a → only_index_error (k a)) →
  only_index_error (m ≫= k).
Proof.
  intros Hm Hk e. destruct m as [a | e' |]; simpl.
  - by apply Hk.
  - intros [= <-]. by apply Hm.
  - done.
Qed.

Lemma py_index_lt (len : nat) (i : Z) (k : nat) :
  py_index len i = Ok k → (k < len)%nat.
Proof.
  unfold py_index. repeat case_bool_decide; intros [= <-]; lia.
Qed.

Lemma only_index_error_py_index (len : nat) (i : Z) :
  only_index_error (py_index len i).
Proof. unfold py_index. intros e. repeat case_bool_decide; congruence. Qed.

Lemma only_index_error_py_get {A} (l : list A) (i : Z) :
  only_index_error (py_get l i).
Proof.
  apply only_index_error_bind; [apply only_index_error_py_index |].
  intros k _ e. destruct (l !! k); congruence.
Qed.

Lemma only_index_error_py_set {A} (l : list A) (i : Z) (x : A) :
  only_index_error (py_set l i x).
Proof.
  apply only_index_error_bind; [apply only_index_error_py_index | done].
Qed.

Lemma only_index_error_mat_get (m : Matrix) (i j : Z) :
  only_index_error (mat_get m i j).
Proof.
  apply only_index_error_bind; intros; apply only_index_error_py_get.
Qed.

Lemma only_index_error_mat_set (m : Matrix) (i j x : Z) :
  only_index_error (mat_set m i j x).
Proof.
  apply only_index_error_bind; [apply only_index_error_py_get |]. intros row _.
  apply only_index_error_bind; intros; apply only_index_error_py_set.
Qed.

Lemma py_get_set_eq {A} (l l' : list A) (i : Z) (x : A) :
  py_set l i x = Ok l' → py_get l' i = Ok x.
Proof.
  unfold py_set, py_get. intros Hset.
  apply bind_Ok_inv in Hset as (k & Hk & [= <-]).
  rewrite length_insert, Hk. simpl.
  by rewrite list_lookup_insert_eq by by eapply py_index_lt.
Qed.

Lemma py_get_set_true (l l' : list bool) (i j : Z) :
  py_set l i true = Ok l' → py_get l j = Ok true → py_get l' j = Ok true.
Proof.
  unfold py_set, py_get. intros Hset Hget.
  apply bind_Ok_inv in Hset as (k & Hk & [= <-]).
  apply bind_Ok_inv in Hget as (k' & Hk' & Hget).
  rewrite length_insert, Hk'. simpl.
  destruct (decide (k = k')) as [-> | Hne].
  - by rewrite list_lookup_insert_eq by by eapply py_index_lt.
  - by rewrite list_lookup_insert_ne.
Qed.

Section solver_raises.
Variables (cap flow : Matrix) (s t : Z).

Lemma bfs_neighbors_source u rest : ∀ st found st',
  py_get (EK.visited st) s = Ok true →
  EK.bfs_neighbors cap flow t u rest st = Ok (found, st') →
  py_get (EK.visited st') s = Ok true ∧ (found = true → t ≠ s).
Proof.
  induction rest as [| w rest IH]; intros st found st' Hs Hrun; simpl in Hrun.
  - injection Hrun as <- <-. done.
  - apply bind_Ok_inv in Hrun as (c & _ & Hrun).
    apply bind_Ok_inv in Hrun as (f & _ & Hrun).
    apply bind_Ok_inv in Hrun as (v & Hv & Hrun).
    destruct (negb v && bool_decide (c - f > 0)) eqn:Hcond; [| by eapply IH].
    apply andb_true_iff in Hcond as [Hnv _]. destruct v; [done |].
    apply bind_Ok_inv in Hrun as (par' & _ & Hrun).
    apply bind_Ok_inv in Hrun as (vis' & Hvis' & Hrun).
    pose proof (py_get_set_true _ _ _ _ Hvis' Hs) as Hs'.
    case_bool_decide as Hwt.
    + injection Hrun as <- <-. split; [done |]. intros _ <-. subst w. congruence.
    + exact (IH (EK.BfsState vis' (EK.queue st ++ [w]) par') _ _ Hs' Hrun).
Qed.

Lemma bfs_loop_source fuel num_nodes : ∀ st found st',
  py_get (EK.visited st) s = Ok true →
  EK.bfs_loop fuel cap flow t num_nodes st = Ok (found, st') →
  found = true → t ≠ s.
Proof.
  induction fuel as [| fuel IH]; intros st found st' Hs Hrun; [done |].
  simpl in Hrun. destruct (EK.queue st) as [| u q]; [by injection Hrun as <- |].
  apply bind_Ok_inv in Hrun as ([found1 st1] & Hn & Hrun).
  destruct (bfs_neighbors_source u (py_range num_nodes)
              (EK.BfsState (EK.visited st) q (EK.parent st)) _ _ Hs Hn) as [Hs1 Hne].
  destruct found1; [intros _; by apply Hne | by eapply IH].
Qed.

(** [bfs] returns [True] only when the sink is not the source. *)
Lemma bfs_true_sink_ne_source fuel par par' :
  EK.bfs fuel cap flow s t par = Ok (true, par') → t ≠ s.
Proof.
  unfold EK.bfs, EK.bfs_run. intros Hrun.
  apply bind_Ok_inv in Hrun as ([found st] & Hrun & [= -> <-]).
  apply bind_Ok_inv in Hrun as (vl & Hset & Hrun).
  eapply bfs_loop_source; [| done | done]. simpl. by eapply py_get_set_eq.
Qed.

Lemma only_index_error_bfs_neighbors u rest : ∀ st,
  only_index_error (EK.bfs_neighbors cap flow t u rest st).
Proof.
  induction rest as [| w rest IH]; intros st; simpl; [done |].
  apply only_index_error_bind; [apply only_index_error_mat_get |]. intros c _.
  apply only_index_error_bind; [apply only_index_error_mat_get |]. intros f _.
  apply only_index_error_bind; [apply only_index_error_py_get |]. intros v _.
  destruct (negb v && bool_decide (c - f > 0)); [| apply IH].
  apply only_index_error_bind; [apply only_index_error_py_set |]. intros par' _.
  apply only_index_error_bind; [apply only_index_error_py_set |]. intros vis' _.
  case_bool_decide; [done | apply IH].
Qed.

Lemma only_index_error_bfs fuel par :
  only_index_error (EK.bfs fuel cap flow s t par).
Proof.
  unfold EK.bfs, EK.bfs_run.
  apply only_index_error_bind; [| by intros [found st] _].
  apply only_index_error_bind; [apply only_index_error_py_set |]. intros vl _.
  generalize (EK.BfsState vl [s] par). generalize (length cap).
  induction fuel as [| fuel IH]; intros num_nodes st; simpl; [done |].
  destruct (EK.queue st) as [| u q]; [done |].
  apply only_index_error_bind; [apply only_index_error_bfs_neighbors |].
  intros [found st'] _. destruct found; [done | apply IH].
Qed.

Lemma only_index_error_find_bottleneck fuel par : ∀ v pf path,
  only_index_error (EK.find_bottleneck fuel cap flow par s v pf path).
Proof.
  induction fuel as [| fuel IH]; intros v pf path; simpl;
    case_bool_decide; try done.
  apply only_index_error_bind; [apply only_index_error_py_get |]. intros u _.
  apply only_index_error_bind; [apply only_index_error_mat_get |]. intros c _.
  apply only_index_error_bind; [apply only_index_error_mat_get |]. intros f _.
  apply IH.
Qed.

Lemma only_index_error_update_flow fuel par b : ∀ g v,
  only_index_error (EK.update_flow fuel g par s v b).
Proof.
  induction fuel as [| fuel IH]; intros g v; simpl; case_bool_decide; try done.
  apply only_index_error_bind; [apply only_index_error_py_get |]. intros u _.
  apply only_index_error_bind; [apply only_index_error_mat_get |]. intros x _.
  apply only_index_error_bind; [apply only_index_error_mat_set |]. intros g1 _.
  apply only_index_error_bind; [apply only_index_error_mat_get |]. intros y _.
  apply only_index_error_bind; [apply only_index_error_mat_set |]. intros g2 _.
  apply IH.
Qed.

(** Once [path_flow] is an integer it stays one. *)
Lemma find_bottleneck_Fin fuel par : ∀ v p path pf' path',
  EK.find_bottleneck fuel cap flow par s v (EK.Fin p) path = Ok (pf', path') →
  ∃ b, pf' = EK.Fin b.
Proof.
  induction fuel as [| fuel IH]; intros v p path pf' path' Hrun; simpl in Hrun;
    case_bool_decide; try done; try (injection Hrun as <- <-; by eexists).
  apply bind_Ok_inv in Hrun as (u & _ & Hrun).
  apply bind_Ok_inv in Hrun as (c & _ & Hrun).
  apply bind_Ok_inv in Hrun as (f & _ & Hrun).
  by eapply IH.
Qed.

Lemma find_bottleneck_not_Inf fuel par v path pf' path' :
  v ≠ s →
  EK.find_bottleneck fuel cap flow par s v EK.Inf path = Ok (pf', path') →
  ∃ b, pf' = EK.Fin b.
Proof.
  intros Hv Hrun. destruct fuel as [| fuel]; simpl in Hrun;
    rewrite bool_decide_eq_true_2 in Hrun by done; [done |].
  apply bind_Ok_inv in Hrun as (u & _ & Hrun).
  apply bind_Ok_inv in Hrun as (c & _ & Hrun).
  apply bind_Ok_inv in Hrun as (f & _ & Hrun).
  by eapply find_bottleneck_Fin.
Qed.
End solver_raises.

Lemma only_index_error_iteration fuel cap s t st :
  only_index_error (EK.iteration fuel cap s t st).
Proof.
  unfold EK.iteration.
  apply only_index_error_bind; [apply only_index_error_bfs |].
  intros [found par] Hbfs. destruct found; [| done].
  apply bfs_true_sink_ne_source in Hbfs.
  apply only_index_error_bind; [apply only_index_error_find_bottleneck |].
  intros [pf path] Hfb.
  destruct (find_bottleneck_not_Inf _ _ _ _ _ _ _ _ _ Hbfs Hfb) as [b ->].
  apply only_index_error_bind; [apply only_index_error_update_flow | done].
Qed.

(** Whatever its arguments, [edmonds_karp] raises nothing but [IndexError]. *)
Lemma only_index_error_edmonds_karp fuel cap s t :
  only_index_error (EK.edmonds_karp fuel cap s t).
Proof.
  unfold EK.edmonds_karp. apply only_index_error_bind; [| done].
  generalize (EK.initial_state cap). generalize fuel at 2.
  induction fuel as [| fuel' IH]; intros inner st; simpl; [done |].
  apply only_index_error_bind; [apply only_index_error_iteration |].
  intros [st' |] _; [apply IH | done].
Qed.

(** * The claims *)

(** C1: for every capacity matrix of non-negative integers and every
    in-range source and sink with source ≠ sink, the flow value returned by
    [edmonds_karp] equals the capacity of a minimum cut separating source and
    sink: some cut has exactly that capacity and no cut has less.  It is the
    maximum achievable flow: no feasible flow has a larger value and the
    units shipped by the returned matrix are a feasible flow of that value. *)
Theorem edmonds_karp_max_flow_min_cut (n : nat) (cap : Matrix) (s t : Z) :
  valid_input n cap s t →
  ∃ max_flow flow_matrix path_history,
    (∀ fuel, (enough_fuel n cap s ≤ fuel)%nat →
       EK.edmonds_karp fuel cap s t = Ok (max_flow, flow_matrix, path_history))
    ∧ (∃ S, separates s t S ∧ cut_capacity n cap S = max_flow)
    ∧ (∀ S, separates s t S → max_flow ≤ cut_capacity n cap S)
    ∧ (∀ f, feasible_flow n cap s t f → flow_value n f s ≤ max_flow)
    ∧ (∃ f, feasible_flow n cap s t f ∧ flow_value n f s = max_flow).
Proof.
  intros Hvalid.
  destruct (edmonds_karp_total n cap s t Hvalid) as (st & Hrun & Hinv & Hexit).
  destruct (inv_saturated_cut n cap s t Hvalid st Hinv Hexit) as (S & HS & Hcap).
  exists (EK.max_flow st), (EK.flow_matrix st), (EK.path_history st).
  split; [done |]. split; [by exists S |]. split; [| split].
  - intros S' HS'. by apply (inv_value_le_cut n cap s t).
  - intros f Hf. rewrite <- Hcap. by apply (feasible_value_le_cut n cap s t).
  - exists (positive_part (EK.flow_matrix st)).
    by apply (positive_part_feasible n cap s t).
Qed.

Lemma edmonds_karp_max_flow_min_cut_witness :
  valid_input 4 diamond 0 3
  ∧ ∃ max_flow flow_matrix path_history,
      (∀ fuel, (enough_fuel 4 diamond 0 ≤ fuel)%nat →
         EK.edmonds_karp fuel diamond 0 3 = Ok (max_flow, flow_matrix, path_history))
      ∧ (∃ S, separates 0 3 S ∧ cut_capacity 4 diamond S = max_flow)
      ∧ (∀ S, separates 0 3 S → max_flow ≤ cut_capacity 4 diamond S)
      ∧ (∀ f, feasible_flow 4 diamond 0 3 f → flow_value 4 f 0 ≤ max_flow)
      ∧ (∃ f, feasible_flow 4 diamond 0 3 f ∧ flow_value 4 f 0 = max_flow).
Proof.
  split; [by_decide |].
  apply (edmonds_karp_max_flow_min_cut 4 diamond 0 3). by_decide.
Defined.




(** C3: for every valid input, in the flow matrix returned by
    [edmonds_karp] every node other than the source and the sink conserves
    flow: the units entering it equal the units leaving it, and likewise the
    signed column sum equals the signed row sum. *)
Theorem edmonds_karp_conserves_flow (n : nat) (cap : Matrix) (s t : Z) :
  valid_input n cap s t →
  ∃ max_flow flow_matrix path_history,
    (∀ fuel, (enough_fuel n cap s ≤ fuel)%nat →
       EK.edmonds_karp fuel cap s t = Ok (max_flow, flow_matrix, path_history))
    ∧ ∀ v, node n v → v ≠ s → v ≠ t →
        inflow n flow_matrix v = outflow n flow_matrix v
        ∧ col_sum n flow_matrix v = row_sum n flow_matrix v.
Proof.
  intros Hvalid.
  destruct (edmonds_karp_total n cap s t Hvalid) as (st & Hrun & Hinv & _).
  exists (EK.max_flow st), (EK.flow_matrix st), (EK.path_history st).
  split; [done |]. intros v Hv Hvs Hvt.
  pose proof (outflow_minus_inflow n cap s t st v Hinv Hv) as Hd.
  pose proof (fi_conserve _ _ _ _ _ Hinv v Hv Hvs Hvt) as Hrow.
  split; [lia |]. rewrite Hrow. unfold col_sum.
  rewrite (sum_over_ext _ _ (λ i, - entry (EK.flow_matrix st) v i)).
  - rewrite sum_over_opp. unfold row_sum in Hrow. lia.
  - intros i Hi. apply (fi_antisym _ _ _ _ _ Hinv); [| done].
    by apply elem_of_py_range.
Qed.

Lemma edmonds_karp_conserves_flow_witness :
  valid_input 4 diamond 0 3
  ∧ ∃ max_flow flow_matrix path_history,
      (∀ fuel, (enough_fuel 4 diamond 0 ≤ fuel)%nat →
         EK.edmonds_karp fuel diamond 0 3 = Ok (max_flow, flow_matrix, path_history))
      ∧ ∀ v, node 4 v → v ≠ 0 → v ≠ 3 →
          inflow 4 flow_matrix v = outflow 4 flow_matrix v
          ∧ col_sum 4 flow_matrix v = row_sum 4 flow_matrix v.
Proof.
  split; [by_decide |]. apply (edmonds_karp_conserves_flow 4 diamond 0 3). by_decide.
Defined.

(** C4: for every capacity matrix of non-negative integers and valid
    source/sink pair [edmonds_karp] terminates; the loop is left only when
    [bfs] returns [False], and then no augmenting path exists; every turn of
    the loop adds to the accumulated flow the bottleneck of the recorded
    path, which is at least 1. *)
Theorem edmonds_karp_terminates (n : nat) (cap : Matrix) (s t : Z) :
  valid_input n cap s t →
  (∃ r, ∀ fuel, (enough_fuel n cap s ≤ fuel)%nat →
          EK.edmonds_karp fuel cap s t = Ok r)
  ∧ (∀ fuel inner st,
       EK.main_loop fuel inner cap s t (EK.initial_state cap) = Ok st →
       (∃ par, EK.bfs inner cap (EK.flow_matrix st) s t (EK.st_parent st)
               = Ok (false, par))
       ∧ ∀ p, ¬ augmenting_path n cap (EK.flow_matrix st) s t p)
  ∧ (∀ fuel st st',
       reachable cap s t st → EK.iteration fuel cap s t st = Ok (Some st') →
       ∃ p b,
         EK.path_history st' = EK.path_history st ++ [EK.PathRecord p b]
         ∧ is_bottleneck cap (EK.flow_matrix st) p b
         ∧ 1 ≤ b
         ∧ EK.max_flow st' = EK.max_flow st + b).
Proof.
  intros Hvalid. split; [| split].
  - destruct (edmonds_karp_total n cap s t Hvalid) as (st & Hrun & _).
    by eexists.
  - intros fuel inner st Hrun.
    pose proof (main_loop_exit _ _ _ _ _ _ _ Hrun) as Hexit.
    split; [by apply iteration_None_bfs |].
    assert (Hinv : flow_inv n cap s t st).
    { apply (reachable_inv n cap s t Hvalid).
      eapply main_loop_reachable; [done | constructor]. }
    destruct Hvalid as (Hsq & Hnn & Hs & Ht & Hst).
    destruct (iteration_spec n cap s t Hsq Hs Ht Hst st (inner `max` S n) Hinv)
      as (r & Hr & Hpost); [lia |].
    rewrite (iteration_mono _ _ _ _ _ _ _ Hexit) in Hr by lia.
    injection Hr as <-. intros p. by apply (exit_no_path n cap s t).
  - intros fuel st st' Hreach Hit.
    destruct (reachable_step_post n cap s t Hvalid st st' fuel Hreach Hit)
      as (p & b & Hhist & Hmf & Hb & Hbn & _).
    by exists p, b.
Qed.

Lemma edmonds_karp_terminates_witness :
  valid_input 4 diamond 0 3
  ∧ (∃ r, ∀ fuel, (enough_fuel 4 diamond 0 ≤ fuel)%nat →
            EK.edmonds_karp fuel diamond 0 3 = Ok r)
  ∧ (∀ fuel inner st,
       EK.main_loop fuel inner diamond 0 3 (EK.initial_state diamond) = Ok st →
       (∃ par, EK.bfs inner diamond (EK.flow_matrix st) 0 3 (EK.st_parent st)
               = Ok (false, par))
       ∧ ∀ p, ¬ augmenting_path 4 diamond (EK.flow_matrix st) 0 3 p)
  ∧ (∀ fuel st st',
       reachable diamond 0 3 st → EK.iteration fuel diamond 0 3 st = Ok (Some st') →
       ∃ p b,
         EK.path_history st' = EK.path_history st ++ [EK.PathRecord p b]
         ∧ is_bottleneck diamond (EK.flow_matrix st) p b
         ∧ 1 ≤ b
         ∧ EK.max_flow st' = EK.max_flow st + b).
Proof.
  split; [by_decide |]. apply (edmonds_karp_terminates 4 diamond 0 3). by_decide.
Defined.

(** C5: on every iteration of [edmonds_karp], the path found by [bfs] and
    recorded in the trace is an augmenting path of the current residual
    graph with the fewest edges among all source-to-sink paths of positive
    residual capacity. *)
Theorem bfs_path_is_shortest (n : nat) (cap : Matrix) (s t : Z)
    (fuel : nat) (st st' : EK.state) :
  valid_input n cap s t →
  reachable cap s t st →
  EK.iteration fuel cap s t st = Ok (Some st') →
  ∃ p b,
    EK.path_history st' = EK.path_history st ++ [EK.PathRecord p b]
    ∧ augmenting_path n cap (EK.flow_matrix st) s t p
    ∧ ∀ q, augmenting_path n cap (EK.flow_matrix st) s t q →
           (length p ≤ length q)%nat.
Proof.
  intros Hvalid Hreach Hit.
  destruct (reachable_step_post n cap s t Hvalid st st' fuel Hreach Hit)
    as (p & b & Hhist & _ & _ & _ & Hpath & Hshort).
  by exists p, b.
Qed.

Lemma bfs_path_is_shortest_witness :
  valid_input 2 single_edge 0 1
  ∧ reachable single_edge 0 1 (EK.initial_state single_edge)
  ∧ EK.iteration 5 single_edge 0 1 (EK.initial_state single_edge)
    = Ok (Some single_edge_final)
  ∧ ∃ p b,
      EK.path_history single_edge_final
      = EK.path_history (EK.initial_state single_edge) ++ [EK.PathRecord p b]
      ∧ augmenting_path 2 single_edge
          (EK.flow_matrix (EK.initial_state single_edge)) 0 1 p
      ∧ ∀ q, augmenting_path 2 single_edge
               (EK.flow_matrix (EK.initial_state single_edge)) 0 1 q →
             (length p ≤ length q)%nat.
Proof.
  split; [by_decide |]. split; [constructor |]. split; [reflexivity |].
  apply (bfs_path_is_shortest 2 single_edge 0 1 5
           (EK.initial_state single_edge) single_edge_final);
    [by_decide | constructor | reflexivity].
Defined.

(** C6: throughout the execution of [edmonds_karp], after initialization
    and after each path augmentation, the flow matrix is antisymmetric:
    [flow[i][j] == -flow[j][i]] for every pair (i,j).  Entries are non-zero
    even where [capacity[j][i] == 0]: after the augmentation on
    [single_edge], [capacity[1][0]] is 0 while [flow[0][1]] and [flow[1][0]]
    are not. *)
Theorem flow_matrix_antisymmetric (n : nat) (cap : Matrix) (s t : Z) (st : EK.state) :
  valid_input n cap s t →
  reachable cap s t st →
  (∀ i j, node n i → node n j →
     entry (EK.flow_matrix st) i j = - entry (EK.flow_matrix st) j i)
  ∧ (reachable single_edge 0 1 single_edge_final
     ∧ entry single_edge 1 0 = 0
     ∧ entry (EK.flow_matrix single_edge_final) 0 1 ≠ 0
     ∧ entry (EK.flow_matrix single_edge_final) 1 0 ≠ 0).
Proof.
  intros Hvalid Hreach. split.
  - apply (reachable_inv n cap s t Hvalid st Hreach).
  - split; [| done].
    eapply reachable_step; [constructor | apply single_edge_step].
Qed.

Lemma flow_matrix_antisymmetric_witness :
  valid_input 2 single_edge 0 1
  ∧ reachable single_edge 0 1 (EK.initial_state single_edge)
  ∧ (∀ i j, node 2 i → node 2 j →
       entry (EK.flow_matrix (EK.initial_state single_edge)) i j
       = - entry (EK.flow_matrix (EK.initial_state single_edge)) j i)
  ∧ (reachable single_edge 0 1 single_edge_final
     ∧ entry single_edge 1 0 = 0
     ∧ entry (EK.flow_matrix single_edge_final) 0 1 ≠ 0
     ∧ entry (EK.flow_matrix single_edge_final) 1 0 ≠ 0).
Proof.
  split; [by_decide |]. split; [constructor |].
  apply (flow_matrix_antisymmetric 2 single_edge 0 1 (EK.initial_state single_edge));
    [by_decide | constructor].
Defined.

(** C7, as stated, fails: the edge from the super-source to "Термінал 1"
    has capacity 100, while the edges leaving the two terminals have
    capacities summing to 115; likewise the edge from "Магазин 1" to the
    super-sink has capacity 100 and the edges entering the stores sum to
    200. *)
Lemma synthetic_capacity_counterexample :
  Task1.augment logistics_nodes logistics_indices logistics_capacity
  = Ok (logistics_extended, 20, 21)
  ∧ entry logistics_extended 20 0 = 100
  ∧ row_sum 20 logistics_capacity 0 + row_sum 20 logistics_capacity 1 = 115
  ∧ ¬ (entry logistics_extended 20 0
       > row_sum 20 logistics_capacity 0 + row_sum 20 logistics_capacity 1)
  ∧ entry logistics_extended 6 21 = 100
  ∧ sum_over (seqZ 6 14) (col_sum 20 logistics_capacity) = 200
  ∧ ¬ (entry logistics_extended 6 21
       > sum_over (seqZ 6 14) (col_sum 20 logistics_capacity)).
Proof. repeat split; vm_compute; congruence. Qed.

(** C7, amended: in the augmented capacity matrix built for the solve,
    every synthetic edge from the super-source to a terminal has capacity
    100, at least that terminal's total outgoing capacity, and every
    synthetic edge from a store to the super-sink has capacity 100, at least
    that store's total incoming capacity; in the solution no synthetic edge
    carries 100 units, so none of them is a bottleneck; all original N×N
    entries are copied unchanged. *)
Theorem synthetic_edges_never_bottleneck :
  Net.build_logistics_network
  = Ok (logistics_nodes, logistics_indices, logistics_capacity)
  ∧ Task1.augment logistics_nodes logistics_indices logistics_capacity
    = Ok (logistics_extended, 20, 21)
  ∧ (∀ i j, node 20 i → node 20 j →
       entry logistics_extended i j = entry logistics_capacity i j)
  ∧ (∀ name t_idx,
       name ∈ Net.terminals → logistics_indices !! name = Some t_idx →
       entry logistics_extended 20 t_idx = 100
       ∧ row_sum 20 logistics_capacity t_idx ≤ 100)
  ∧ (∀ name s_idx,
       name ∈ Net.stores → logistics_indices !! name = Some s_idx →
       entry logistics_extended s_idx 21 = 100
       ∧ col_sum 20 logistics_capacity s_idx ≤ 100)
  ∧ ∃ max_flow flow_matrix path_history,
      (∀ fuel, (enough_fuel 22 logistics_extended 20 ≤ fuel)%nat →
         EK.edmonds_karp fuel logistics_extended 20 21
         = Ok (max_flow, flow_matrix, path_history))
      ∧ (∀ name t_idx,
           name ∈ Net.terminals → logistics_indices !! name = Some t_idx →
           entry flow_matrix 20 t_idx < 100)
      ∧ (∀ name s_idx,
           name ∈ Net.stores → logistics_indices !! name = Some s_idx →
           entry flow_matrix s_idx 21 < 100).
Proof.
  split; [vm_compute; reflexivity |]. split; [vm_compute; reflexivity |].
  split; [| split; [| split]].
  - apply nodes_forall. by_decide.
  - intros name t_idx.
    apply (indexed_all_lookup _ _
             (λ t_idx, entry logistics_extended 20 t_idx = 100
                       ∧ row_sum 20 logistics_capacity t_idx ≤ 100)).
    by_decide.
  - intros name s_idx.
    apply (indexed_all_lookup _ _
             (λ s_idx, entry logistics_extended s_idx 21 = 100
                       ∧ col_sum 20 logistics_capacity s_idx ≤ 100)).
    by_decide.
  - exists logistics_result.1.1, logistics_result.1.2, logistics_result.2.
    split; [| split].
    + intros fuel Hfuel.
      apply (edmonds_karp_mono _ _ _ (enough_fuel 22 logistics_extended 20));
        [| done].
      vm_compute. reflexivity.
    + intros name t_idx.
      apply (indexed_all_lookup _ _ (λ t_idx, entry logistics_result.1.2 20 t_idx < 100)).
      by_decide.
    + intros name s_idx.
      apply (indexed_all_lookup _ _ (λ s_idx, entry logistics_result.1.2 s_idx 21 < 100)).
      by_decide.
Qed.

(** C8, as stated, fails: the wiring does not fail when the source and sink
    sets overlap, nor when a terminal index is outside the original nodes
    but inside the extended matrix. *)
Lemma augment_accepts_overlap_counterexample :
  overlapping_indices !! "Термінал 1" = overlapping_indices !! "Магазин 1"
  ∧ succeeds (Task1.augment logistics_nodes overlapping_indices logistics_capacity)
    = true
  ∧ stray_indices !! "Термінал 1" = Some 20
  ∧ succeeds (Task1.augment logistics_nodes stray_indices logistics_capacity) = true.
Proof. repeat split; vm_compute; reflexivity. Qed.

(** C8, amended: the wiring validates nothing.  Given the index of every
    terminal and store name, it fails, with [IndexError] and before any
    solving, exactly when one of those indices lies outside the extended
    matrix, that is outside [-(N+2), N+2); otherwise it returns the extended
    [N+2] by [N+2] matrix with super-source [N] and super-sink [N+1],
    whether or not the source and sink sets overlap. *)
Theorem augment_fails_only_out_of_range (nodes : list string)
    (ni : gmap string Z) (cap : Matrix) :
  square (length nodes) cap →
  Forall (λ name, is_Some (ni !! name)) (Net.terminals ++ Net.stores) →
  if decide (Forall (indexed_in_range (length nodes + 2) ni)
               (Net.terminals ++ Net.stores))
  then ∃ ext,
         Task1.augment nodes ni cap
         = Ok (ext, Z.of_nat (length nodes), Z.of_nat (length nodes) + 1)
         ∧ square (length nodes + 2) ext
  else Task1.augment nodes ni cap = Raise IndexError.
Proof.
  intros Hsq Hpresent. apply Forall_app in Hpresent as [Hpt Hps].
  set (n := length nodes) in *. unfold Task1.augment. fold n.
  destruct (extend_capacity_ok n cap Hsq) as (ext0 & -> & Hext0). step_ok.
  unfold Task1.connect_super_source, Task1.connect_super_sink.
  pose proof (wire_loop (n + 2) ni (λ e idx, mat_set e (Z.of_nat n) idx 100)) as Hsrc.
  specialize (Hsrc
    (λ e i He Hi, mat_set_in (n + 2) e (Z.of_nat n) i 100 He
                    ltac:(unfold in_py_range; lia) Hi)
    (λ e i He Hi, mat_set_out_col (n + 2) e (Z.of_nat n) i 100 He
                    ltac:(unfold in_py_range; lia) Hi)
    Net.terminals ext0 Hext0 Hpt).
  destruct (decide (Forall (indexed_in_range (n + 2) ni) Net.terminals))
    as [Hts | Hts].
  - destruct Hsrc as (ext1 & -> & Hext1). step_ok.
    pose proof (wire_loop (n + 2) ni (λ e idx, mat_set e idx (Z.of_nat n + 1) 100))
      as Hsnk.
    specialize (Hsnk
      (λ e i He Hi, mat_set_in (n + 2) e i (Z.of_nat n + 1) 100 He Hi
                      ltac:(unfold in_py_range; lia))
      (λ e i He Hi, mat_set_out_row (n + 2) e i (Z.of_nat n + 1) 100 He Hi)
      Net.stores ext1 Hext1 Hps).
    destruct (decide (Forall (indexed_in_range (n + 2) ni) Net.stores))
      as [Hss | Hss].
    + destruct Hsnk as (ext2 & -> & Hext2). step_ok.
      rewrite decide_True by (by apply Forall_app). by exists ext2.
    + rewrite Hsnk. rewrite decide_False; [done |].
      intros Hall. by apply Forall_app in Hall as [_ Hall].
  - rewrite Hsrc. rewrite decide_False; [done |].
    intros Hall. by apply Forall_app in Hall as [Hall _].
Qed.

Lemma augment_fails_only_out_of_range_witness :
  if decide (Forall (indexed_in_range (length logistics_nodes + 2) overlapping_indices)
               (Net.terminals ++ Net.stores))
  then ∃ ext,
         Task1.augment logistics_nodes overlapping_indices logistics_capacity
         = Ok (ext, Z.of_nat (length logistics_nodes),
               Z.of_nat (length logistics_nodes) + 1)
         ∧ square (length logistics_nodes + 2) ext
  else Task1.augment logistics_nodes overlapping_indices logistics_capacity
       = Raise IndexError.
Proof.
  apply (augment_fails_only_out_of_range logistics_nodes overlapping_indices
           logistics_capacity); by_decide.
Defined.

(** C9, as stated, fails twice: on the empty graph [visited[source] = True]
    raises [IndexError], and on a graph without edges the returned flow
    matrix is the [n] by [n] zero matrix, not an empty one. *)
Lemma unreachable_sink_counterexample :
  EK.edmonds_karp 5 [] 0 1 = Raise IndexError
  ∧ EK.edmonds_karp 5 [[0; 0]; [0; 0]] 0 1 = Ok (0, [[0; 0]; [0; 0]], [])
  ∧ [[0; 0]; [0; 0]] ≠ ([] : Matrix).
Proof. split; [reflexivity |]. split; [reflexivity | done]. Qed.

(** C9, amended: for every non-empty [n] by [n] capacity matrix and distinct
    in-range source and sink such that no path of positive-capacity edges
    leads from the source to the sink, [edmonds_karp] does not fail: it
    returns zero flow, the [n] by [n] zero flow matrix and an empty path
    trace. *)
Theorem unreachable_sink_zero_flow (n : nat) (cap : Matrix) (s t : Z) (fuel : nat) :
  square n cap → node n s → node n t → s ≠ t →
  (∀ p, ¬ capacity_path n cap s t p) →
  (n < fuel)%nat →
  EK.edmonds_karp fuel cap s t = Ok (0, zero_matrix n, []).
Proof.
  intros Hsq Hs Ht Hst Hunreach Hfuel.
  unfold EK.edmonds_karp. destruct fuel as [| fuel']; [lia |].
  set (fuel := S fuel') in *. unfold EK.initial_state.
  assert (Hlen : length cap = n) by apply Hsq. rewrite Hlen.
  change (EK.main_loop fuel fuel cap s t ?st)
    with (EK.iteration fuel cap s t st ≫= λ r,
            match r with
            | Some st' => EK.main_loop fuel' fuel cap s t st'
            | None => Ok st
            end).
  unfold EK.iteration. simpl EK.flow_matrix. simpl EK.st_parent.
  destruct (bfs_spec n cap (zero_matrix n) s t Hsq (square_zero_matrix n) Hs Ht Hst
              fuel (replicate n (-1))) as (found & par & -> & _ & Hpost);
    [by rewrite length_replicate | done |].
  destruct found; [| done]. exfalso.
  destruct Hpost as (l & Hp & _).
  destruct (tree_path_chain n cap (zero_matrix n) s par t l Hp) as (p & Heq & Hc & Hl).
  apply (Hunreach (reverse l)). exists p. split; [done |]. split; [| done].
  by apply residual_chain_zero.
Qed.

Lemma unreachable_sink_zero_flow_witness :
  EK.edmonds_karp 5 [[0; 0]; [0; 0]] 0 1 = Ok (0, zero_matrix 2, []).
Proof.
  apply (unreachable_sink_zero_flow 2 [[0; 0]; [0; 0]] 0 1 5);
    [by_decide | by_decide | by_decide | by_decide | | lia].
  intros p (p' & -> & Hc & Hl). destruct p' as [| v p']; [by vm_compute in Hl |].
  destruct Hc as ((Hv1 & Hv2) & Hcap & _).
  assert (v = 0 ∨ v = 1) as [-> | ->] by lia; vm_compute in Hcap; done.
Defined.

(** C10: what the record of a warehouse holds, for any matrices passed to
    [analyze_network]: [inflow] is the sum of the entries of the node's
    column of the flow matrix over all other nodes and [outflow] that of its
    row, the entries taken with their sign; [in_capacity] and
    [out_capacity] are the corresponding capacity sums; [in_utilization] is
    [round(inflow / in_capacity * 100)], computed in binary64, when the
    capacity sum is positive and 0 otherwise (likewise [out_utilization]).
    On the solver's matrix, where [flow[j][i] = - flow[i][j]], these sums
    are not the units that enter or leave the warehouse: the counterexample
    below shows the records of the program's own run. *)
Theorem warehouse_utilization_records (n : nat) (cap flow : Matrix)
    (nodes : list string) (ni : gmap string Z)
    (result : gmap string Net.utilization) (name : string) (w : Z) :
  length nodes = n → square n cap → square n flow →
  Net.warehouse_utilization cap flow nodes ni = Ok result →
  name ∈ Net.warehouses → ni !! name = Some w → node n w →
  ∃ r, result !! name = Some r
    ∧ Net.inflow r = sum_others n w (λ i, entry flow i w)
    ∧ Net.outflow r = sum_others n w (λ j, entry flow w j)
    ∧ Net.in_capacity r = sum_others n w (λ i, entry cap i w)
    ∧ Net.out_capacity r = sum_others n w (λ j, entry cap w j)
    ∧ (if decide (0 < Net.in_capacity r)
       then ∃ q, Float.true_div (Net.inflow r) (Net.in_capacity r) = Ok q
                 ∧ Float.round (Float.mul q (Float.of_int 100))
                   = Ok (Net.in_utilization r)
       else Net.in_utilization r = 0)
    ∧ (if decide (0 < Net.out_capacity r)
       then ∃ q, Float.true_div (Net.outflow r) (Net.out_capacity r) = Ok q
                 ∧ Float.round (Float.mul q (Float.of_int 100))
                   = Ok (Net.out_utilization r)
       else Net.out_utilization r = 0).
Proof.
  intros Hlen Hcap Hflow Hrun Hname Hw Hnode.
  unfold Net.warehouse_utilization in Hrun. rewrite Hlen in Hrun.
  assert (Hnd : NoDup Net.warehouses) by by_decide.
  destruct (warehouse_loop_lookup _ _ _ _ _ _ _ Hnd Hrun) as [Hin _].
  destruct (Hin name Hname) as (w' & r & Hw' & Hrec & Hlook).
  assert (w' = w) as -> by congruence.
  rewrite (warehouse_record_spec n cap flow Hcap Hflow w Hnode) in Hrec.
  apply bind_Ok_inv in Hrec as (in_u & Hin_u & Hrec).
  apply bind_Ok_inv in Hrec as (out_u & Hout_u & Hrec).
  injection Hrec as <-. exists (Net.Utilization
    (sum_others n w (λ i, entry flow i w)) (sum_others n w (entry flow w))
    (sum_others n w (λ i, entry cap i w)) (sum_others n w (entry cap w))
    in_u out_u).
  split; [done |]. simpl. repeat (split; [done |]).
  split; by apply utilization_percent_inv.
Qed.

Lemma warehouse_utilization_records_witness :
  ∃ r, logistics_utilization !! "Склад 1" = Some r
    ∧ Net.inflow r = sum_others 20 2 (λ i, entry logistics_flow i 2)
    ∧ Net.outflow r = sum_others 20 2 (λ j, entry logistics_flow 2 j)
    ∧ Net.in_capacity r = sum_others 20 2 (λ i, entry logistics_capacity i 2)
    ∧ Net.out_capacity r = sum_others 20 2 (λ j, entry logistics_capacity 2 j)
    ∧ (if decide (0 < Net.in_capacity r)
       then ∃ q, Float.true_div (Net.inflow r) (Net.in_capacity r) = Ok q
                 ∧ Float.round (Float.mul q (Float.of_int 100))
                   = Ok (Net.in_utilization r)
       else Net.in_utilization r = 0)
    ∧ (if decide (0 < Net.out_capacity r)
       then ∃ q, Float.true_div (Net.outflow r) (Net.out_capacity r) = Ok q
                 ∧ Float.round (Float.mul q (Float.of_int 100))
                   = Ok (Net.out_utilization r)
       else Net.out_utilization r = 0).
Proof.
  apply (warehouse_utilization_records 20 logistics_capacity logistics_flow
           logistics_nodes logistics_indices logistics_utilization "Склад 1" 2).
  - reflexivity.
  - by_decide.
  - by_decide.
  - vm_compute. reflexivity.
  - by_decide.
  - vm_compute. reflexivity.
  - by_decide.
Defined.

(** C10, counterexample: on the program's own run [analyze_network] gets the
    trimmed matrix of the solver and records inflow 0, outflow 0 and both
    utilizations 0 for each of the four warehouses, although 25, 30, 30 and
    30 units enter them and as many leave them: in the sums of lines 182 and
    185 the reverse entries towards the terminals and from the stores cancel
    the shipped units. *)
Theorem warehouse_records_zero_counterexample :
  (∃ max_flow flow_matrix path_history,
     Task1.solve 300 = Ok (max_flow, flow_matrix, path_history, logistics_flow)
     ∧ Net.build_logistics_network
       = Ok (logistics_nodes, logistics_indices, logistics_capacity)
     ∧ Net.analyze_network logistics_capacity logistics_flow logistics_nodes
         logistics_indices path_history = Ok logistics_analysis)
  ∧ Net.warehouse_records logistics_analysis !! "Склад 1"
    = Some (Net.Utilization 0 0 25 45 0 0)
  ∧ Net.warehouse_records logistics_analysis !! "Склад 2"
    = Some (Net.Utilization 0 0 30 50 0 0)
  ∧ Net.warehouse_records logistics_analysis !! "Склад 3"
    = Some (Net.Utilization 0 0 30 45 0 0)
  ∧ Net.warehouse_records logistics_analysis !! "Склад 4"
    = Some (Net.Utilization 0 0 30 60 0 0)
  ∧ (inflow 20 logistics_flow <$> indices_of logistics_indices Net.warehouses)
    = [25; 30; 30; 30]
  ∧ (outflow 20 logistics_flow <$> indices_of logistics_indices Net.warehouses)
    = [25; 30; 30; 30].
Proof.
  split.
  - exists logistics_result.1.1, logistics_result.1.2, logistics_result.2.
    repeat split; vm_compute; reflexivity.
  - repeat split; vm_compute; reflexivity.
Qed.

(** On the solver's antisymmetric matrix the entries into a hub from the
    terminals and out of it to the stores cancel: every record of the
    program's run reports zero flow. *)
Remark logistics_hub_flows_cancel :
  logistics_utilization !! "Склад 1" = Some (Net.Utilization 0 0 25 45 0 0)
  ∧ entry logistics_flow 0 2 = 25.
Proof. split; vm_compute; reflexivity. Qed.

(** * Further properties of the code *)

(** ** [bfs] for any sink whatsoever *)

Section bfs_any_sink.
  Variables (n : nat) (cap flow : Matrix) (s t : Z).
  Hypothesis cap_square : square n cap.
  Hypothesis flow_square : square n flow.

Lemma nthZ_false_lookup (vl : list bool) (w : Z) :
  0 ≤ w < Z.of_nat (length vl) → nthZ false vl w = false →
  vl !! Z.to_nat w = Some false.
Proof.
  intros Hw Hv. unfold nthZ in Hv.
  destruct (lookup_lt_is_Some_2 vl (Z.to_nat w)) as [b Hb]; [lia |].
  rewrite Hb in Hv. simpl in Hv. by subst.
Qed.

(** The neighbour loop never fails; it reports the sink only if the sink is
    one of the neighbours. *)
Lemma bfs_neighbors_runs rest : ∀ u st,
  length (EK.visited st) = n → length (EK.parent st) = n → node n u →
  (∀ v, v ∈ rest → node n v) → (∀ q, q ∈ EK.queue st → node n q) →
  ∃ found st',
    EK.bfs_neighbors cap flow t u rest st = Ok (found, st')
    ∧ length (EK.visited st') = n ∧ length (EK.parent st') = n
    ∧ (∀ q, q ∈ EK.queue st' → node n q)
    ∧ if found then t ∈ rest else bfs_measure st' = bfs_measure st.
Proof.
  induction rest as [| w rest IH]; intros u st Hlv Hlp Hu Hrest Hq.
  - exists false, st. done.
  - assert (Hw : node n w) by (apply Hrest; left).
    assert (Hrest' : ∀ v, v ∈ rest → node n v) by (intros v Hv; apply Hrest; by right).
    simpl. rewrite !(mat_get_ok n) by done. simpl.
    rewrite (py_get_ok false) by (unfold node in *; lia). simpl.
    destruct (nthZ false (EK.visited st) w) eqn:Hv; simpl.
    { destruct (IH u st) as (found & st' & Hrun & H1 & H2 & H3 & H4); try done.
      exists found, st'. repeat (split; [done |]).
      destruct found; [by right | done]. }
    case_bool_decide as Hr; simpl.
    + rewrite !py_set_ok by (unfold node in *; lia). simpl.
      case_bool_decide as Hwt.
      * exists true. eexists. split; [done |]. simpl.
        rewrite !length_insert. repeat (split; [done |]). subst w. left.
      * destruct (IH u (EK.BfsState (<[Z.to_nat w := true]> (EK.visited st))
                          (EK.queue st ++ [w]) (<[Z.to_nat w := u]> (EK.parent st))))
          as (found & st' & Hrun & H1 & H2 & H3 & H4); simpl;
          rewrite ?length_insert; try done.
        { intros q Hin. apply elem_of_app in Hin as [Hin | Hin]; [by apply Hq |].
          by apply list_elem_of_singleton in Hin as ->. }
        exists found, st'. repeat (split; [done |]).
        destruct found; [by right |]. rewrite H4.
        unfold bfs_measure. simpl. rewrite length_app. simpl.
        pose proof (count_false_insert (EK.visited st) (Z.to_nat w)
                      (nthZ_false_lookup _ w ltac:(rewrite Hlv; exact Hw) Hv)). lia.
    + destruct (IH u st) as (found & st' & Hrun & H1 & H2 & H3 & H4); try done.
      exists found, st'. repeat (split; [done |]).
      destruct found; [by right | done].
Qed.

Lemma bfs_loop_runs fuel : ∀ st,
  length (EK.visited st) = n → length (EK.parent st) = n →
  (∀ q, q ∈ EK.queue st → node n q) → (bfs_measure st < fuel)%nat →
  ∃ found st',
    EK.bfs_loop fuel cap flow t n st = Ok (found, st')
    ∧ length (EK.parent st') = n ∧ (found = true → node n t).
Proof.
  induction fuel as [| fuel IH]; intros st Hlv Hlp Hq Hfuel; [lia |].
  simpl. destruct (EK.queue st) as [| u q'] eqn:Hqueue.
  - by exists false, st.
  - destruct (bfs_neighbors_runs (py_range n) u
                (EK.BfsState (EK.visited st) q' (EK.parent st)))
      as (found & st' & Hrun & H1 & H2 & H3 & H4); simpl; try done.
    + apply Hq. left.
    + intros v Hv. by apply elem_of_py_range.
    + intros q Hin. apply Hq. by right.
    + rewrite Hrun. simpl. destruct found.
      * exists true, st'. split; [done |]. split; [done |]. intros _.
        by apply elem_of_py_range.
      * apply IH; try done. rewrite H4. unfold bfs_measure in *. simpl.
        rewrite Hqueue in Hfuel. simpl in Hfuel. lia.
Qed.

(** On square matrices and a source in range [bfs] returns, within [n] turns
    of its loop, whatever the sink is; it returns [True] only for a sink that
    is a node other than the source. *)
Lemma bfs_runs fuel par :
  node n s → length par = n → (n < fuel)%nat →
  ∃ found par',
    EK.bfs fuel cap flow s t par = Ok (found, par')
    ∧ length par' = n ∧ (found = true → node n t ∧ t ≠ s).
Proof.
  intros Hs Hpar Hfuel.
  destruct (bfs_loop_runs fuel
              (EK.BfsState (<[Z.to_nat s := true]> (replicate n false)) [s] par))
    as (found & st' & Hrun & Hlen & Hfound); simpl.
  - by rewrite length_insert, length_replicate.
  - done.
  - intros q Hq. by apply list_elem_of_singleton in Hq as ->.
  - unfold bfs_measure. simpl.
    assert (S (count_false (<[Z.to_nat s := true]> (replicate n false))) = n); [| lia].
    rewrite count_false_insert; [apply count_false_replicate |].
    apply lookup_replicate_2. unfold node in *. lia.
  - assert (Hbfs : EK.bfs fuel cap flow s t par = Ok (found, EK.parent st')).
    { unfold EK.bfs, EK.bfs_run.
      assert (Hl : length cap = n) by apply cap_square. rewrite Hl.
      rewrite py_set_ok by (rewrite length_replicate; apply Hs). simpl.
      by rewrite Hrun. }
    exists found, (EK.parent st'). split; [done |]. split; [done |].
    intros ->. split; [by apply Hfound |].
    by eapply bfs_true_sink_ne_source.
Qed.

End bfs_any_sink.

(** X1: for a square capacity matrix and a source in range, a sink that
    the search cannot reach by construction, because it equals the source or
    is no index in 0..n-1 (a negative index included), is not an error:
    [edmonds_karp] returns zero flow, the zero matrix and an empty trace. *)
Theorem edmonds_karp_hidden_sink (n : nat) (cap : Matrix) (s t : Z) (fuel : nat) :
  square n cap → node n s → t = s ∨ ¬ node n t → (n < fuel)%nat →
  EK.edmonds_karp fuel cap s t = Ok (0, zero_matrix n, []).
Proof.
  intros Hsq Hs Ht Hfuel.
  unfold EK.edmonds_karp. destruct fuel as [| fuel']; [lia |].
  set (fuel := S fuel') in *. unfold EK.initial_state.
  assert (Hlen : length cap = n) by apply Hsq. rewrite Hlen.
  change (EK.main_loop fuel fuel cap s t ?st)
    with (EK.iteration fuel cap s t st ≫= λ r,
            match r with
            | Some st' => EK.main_loop fuel' fuel cap s t st'
            | None => Ok st
            end).
  unfold EK.iteration. simpl EK.flow_matrix. simpl EK.st_parent.
  destruct (bfs_runs n cap (zero_matrix n) s t Hsq (square_zero_matrix n)
              fuel (replicate n (-1)) Hs) as (found & par & -> & _ & Hfound);
    [by rewrite length_replicate | done |].
  destruct found; [| done]. exfalso.
  destruct Hfound as [Hnode Hne]; [done |]. by destruct Ht.
Qed.

Lemma edmonds_karp_hidden_sink_witness :
  EK.edmonds_karp 5 diamond 0 0 = Ok (0, zero_matrix 4, [])
  ∧ EK.edmonds_karp 5 diamond 0 (-1) = Ok (0, zero_matrix 4, []).
Proof.
  split.
  - apply (edmonds_karp_hidden_sink 4 diamond 0 0 5); [by_decide | by_decide | by left | lia].
  - apply (edmonds_karp_hidden_sink 4 diamond 0 (-1) 5);
      [by_decide | by_decide | right; unfold node; lia | lia].
Defined.

(** X2: whatever the capacity matrix and the sink, a source outside
    [-len, len) makes [edmonds_karp] raise [IndexError], at
    [visited[source] = True] of the first search. *)
Theorem edmonds_karp_source_out_of_range (cap : Matrix) (s t : Z) (fuel : nat) :
  ¬ in_py_range (length cap) s → (0 < fuel)%nat →
  EK.edmonds_karp fuel cap s t = Raise IndexError.
Proof.
  intros Hs Hfuel. destruct fuel as [| fuel']; [lia |].
  unfold EK.edmonds_karp. simpl EK.main_loop.
  unfold EK.iteration, EK.bfs, EK.bfs_run.
  by rewrite py_set_out by (by rewrite length_replicate).
Qed.

Lemma edmonds_karp_source_out_of_range_witness :
  EK.edmonds_karp 1 diamond 4 0 = Raise IndexError.
Proof.
  apply (edmonds_karp_source_out_of_range diamond 4 0 1); [| lia].
  unfold in_py_range. simpl. lia.
Defined.

(** ** [bfs] decides reachability in the residual graph *)

(** X3: on square matrices and distinct source and sink in range, [bfs]
    returns within [n] turns of its loop, and it returns [True] exactly when
    the residual graph of the given flow matrix has a path of positive
    residual capacity from the source to the sink. *)
Theorem bfs_finds_path_iff (n : nat) (cap flow : Matrix) (s t : Z)
    (fuel : nat) (par : list Z) :
  square n cap → square n flow → node n s → node n t → s ≠ t →
  length par = n → (n < fuel)%nat →
  ∃ found par',
    EK.bfs fuel cap flow s t par = Ok (found, par')
    ∧ (found = true ↔ ∃ p, augmenting_path n cap flow s t p).
Proof.
  intros Hcap Hflow Hs Ht Hst Hpar Hfuel.
  destruct (bfs_spec n cap flow s t Hcap Hflow Hs Ht Hst fuel par Hpar Hfuel)
    as (found & par' & Hrun & _ & Hpost).
  exists found, par'. split; [done |]. destruct found.
  - split; [intros _ | done]. destruct Hpost as (l & Hl & _).
    destruct (tree_path_chain n cap flow s par' t l Hl) as (p & Heq & Hc & Hlast).
    exists (reverse l), p. done.
  - split; [done |]. intros (p & p' & -> & _ & Hc & Hlast). exfalso.
    destruct Hpost as (visited & Hpost).
    pose proof Hpost as (_ & Hvs & Hvt & _). apply Hvt.
    by apply (chain_closed n cap s t flow visited p' s).
Qed.

Lemma bfs_finds_path_iff_witness :
  ∃ found par',
    EK.bfs 5 diamond (zero_matrix 4) 0 3 (replicate 4 (-1)) = Ok (found, par')
    ∧ (found = true ↔ ∃ p, augmenting_path 4 diamond (zero_matrix 4) 0 3 p).
Proof.
  apply (bfs_finds_path_iff 4 diamond (zero_matrix 4) 0 3 5 (replicate 4 (-1)));
    [by_decide | by_decide | by_decide | by_decide | done | done | lia].
Defined.

(** ** The trace of augmenting paths *)

Lemma trace_flow_app (h1 h2 : list EK.path_record) :
  trace_flow (h1 ++ h2) = trace_flow h1 + trace_flow h2.
Proof. induction h1 as [| r h1 IH]; simpl; lia. Qed.

Section trace_proof.
  Variables (n : nat) (cap : Matrix) (s t : Z).
  Hypothesis valid : valid_input n cap s t.

(** The record that one turn of the main loop appends. *)
Lemma iteration_record st st' fuel :
  flow_inv n cap s t st → EK.iteration fuel cap s t st = Ok (Some st') →
  ∃ p b, EK.path_history st' = EK.path_history st ++ [EK.PathRecord p b]
    ∧ EK.max_flow st' = EK.max_flow st + b
    ∧ simple_path n s t p ∧ 1 ≤ b.
Proof.
  destruct valid as (Hsq & Hnn & Hs & Ht & Hst). intros Hinv Hit.
  apply (iteration_mono _ _ _ _ (Nat.max fuel (S n))) in Hit; [| lia].
  revert Hit. generalize (Nat.max fuel (S n)) (Nat.le_max_r fuel (S n)).
  clear fuel. intros fuel Hfuel. unfold EK.iteration.
  pose proof (fi_square _ _ _ _ _ Hinv) as Hfsq.
  destruct (bfs_spec n cap (EK.flow_matrix st) s t Hsq Hfsq Hs Ht Hst
              fuel (EK.st_parent st) (fi_parent _ _ _ _ _ Hinv))
    as (found & par & -> & Hpar & Hpost); [lia |].
  simpl. destruct found; [| done].
  destruct Hpost as (l & Hp & Hnd & _).
  pose proof (tree_path_nodes n cap (EK.flow_matrix st) s Hs par t l Hp) as Hnodes.
  assert (Hlen : (length l ≤ S fuel)%nat).
  { pose proof (path_length_le n l Hnd Hnodes). lia. }
  rewrite (find_bottleneck_spec n cap (EK.flow_matrix st) s Hsq Hfsq Hs
             par t l Hpar Hp) by done.
  simpl.
  destruct (min_residual_Inf n cap (EK.flow_matrix st) s par t l Hp)
    as (b & -> & Hb & _); [done |].
  destruct (update_flow_spec n cap (EK.flow_matrix st) s Hsq Hfsq Hs
              par t l b Hpar Hp fuel (EK.flow_matrix st) Hlen Hfsq)
    as (g' & -> & _). simpl. intros [= <-]. simpl.
  destruct (tree_path_head _ _ _ _ _ _ _ Hp) as [l' ->]. simpl tail.
  exists (reverse (t :: l')), b. split; [done |]. split; [done |].
  split; [| lia].
  destruct (tree_path_chain n cap (EK.flow_matrix st) s par t (t :: l') Hp)
    as (p & Heq & _ & Hlast).
  split; [by rewrite Heq |]. split; [done |].
  split; [by rewrite reverse_Permutation |].
  apply Forall_forall. intros x Hx. apply Hnodes. by rewrite elem_of_reverse in Hx.
Qed.

(** At the head of the loop the accumulated flow is the flow recorded in the
    trace. *)
Lemma reachable_trace st :
  reachable cap s t st →
  EK.max_flow st = trace_flow (EK.path_history st)
  ∧ Forall (λ r, simple_path n s t (EK.path r) ∧ 1 ≤ EK.flow r) (EK.path_history st).
Proof.
  induction 1 as [| fuel st st' Hreach [IHsum IHall] Hit].
  - split; [done | constructor].
  - destruct (iteration_record st st' fuel (reachable_inv n cap s t valid st Hreach) Hit)
      as (p & b & -> & -> & Hp & Hb).
    split.
    + rewrite trace_flow_app. simpl. lia.
    + apply Forall_app. split; [done |]. by apply Forall_singleton.
Qed.

End trace_proof.

Lemma trace_flow_length (hist : list EK.path_record) :
  Forall (λ r, 1 ≤ EK.flow r) hist → Z.of_nat (length hist) ≤ trace_flow hist.
Proof. induction 1 as [| r hist Hr _ IH]; simpl; lia. Qed.

(** A run that returned went through reachable states only. *)
Lemma edmonds_karp_reachable (fuel : nat) (cap : Matrix) (s t : Z)
    (max_flow : Z) (flow_matrix : Matrix) (path_history : list EK.path_record) :
  EK.edmonds_karp fuel cap s t = Ok (max_flow, flow_matrix, path_history) →
  ∃ st, reachable cap s t st ∧ EK.max_flow st = max_flow
        ∧ EK.flow_matrix st = flow_matrix ∧ EK.path_history st = path_history.
Proof.
  unfold EK.edmonds_karp. intros Hrun.
  apply bind_Ok_inv in Hrun as (st & Hloop & [= <- <- <-]).
  exists st. split; [| done].
  eapply main_loop_reachable; [done | constructor].
Qed.

(** The solver's final state, reachable and with the loop's exit condition. *)
Lemma edmonds_karp_final (n : nat) (cap : Matrix) (s t : Z) :
  valid_input n cap s t →
  ∃ st, (∀ fuel, (enough_fuel n cap s ≤ fuel)%nat →
           EK.edmonds_karp fuel cap s t
           = Ok (EK.max_flow st, EK.flow_matrix st, EK.path_history st))
        ∧ reachable cap s t st ∧ flow_inv n cap s t st ∧ exit_post n cap s t st.
Proof.
  intros Hvalid.
  destruct (edmonds_karp_total n cap s t Hvalid) as (st & Hrun & Hinv & Hexit).
  destruct (edmonds_karp_reachable _ _ _ _ _ _ _ (Hrun _ (le_n _)))
    as (st' & Hreach & Hmf & Hg & Hhist).
  exists st'. rewrite Hmf, Hg, Hhist. split; [done |]. split; [done |].
  split.
  - by apply (reachable_inv n cap s t).
  - unfold exit_post in *. by rewrite Hg.
Qed.

(** X4: for every valid input the returned flow value is the sum of the
    [flow] fields of the returned trace; every record holds a flow of at
    least 1 and a path of distinct nodes that starts at the source and ends
    at the sink; so the trace has at most [max_flow] records. *)
Theorem edmonds_karp_trace (n : nat) (cap : Matrix) (s t : Z) :
  valid_input n cap s t →
  ∃ max_flow flow_matrix path_history,
    (∀ fuel, (enough_fuel n cap s ≤ fuel)%nat →
       EK.edmonds_karp fuel cap s t = Ok (max_flow, flow_matrix, path_history))
    ∧ max_flow = trace_flow path_history
    ∧ Forall (λ r, simple_path n s t (EK.path r) ∧ 1 ≤ EK.flow r) path_history
    ∧ Z.of_nat (length path_history) ≤ max_flow.
Proof.
  intros Hvalid.
  destruct (edmonds_karp_final n cap s t Hvalid) as (st & Hrun & Hreach & _).
  destruct (reachable_trace n cap s t Hvalid st Hreach) as [Hsum Hall].
  exists (EK.max_flow st), (EK.flow_matrix st), (EK.path_history st).
  split; [done |]. split; [done |]. split; [done |].
  rewrite Hsum. apply trace_flow_length.
  eapply Forall_impl; [done |]. by intros r [_ Hr].
Qed.

Lemma edmonds_karp_trace_witness :
  valid_input 4 diamond 0 3
  ∧ ∃ max_flow flow_matrix path_history,
      (∀ fuel, (enough_fuel 4 diamond 0 ≤ fuel)%nat →
         EK.edmonds_karp fuel diamond 0 3 = Ok (max_flow, flow_matrix, path_history))
      ∧ max_flow = trace_flow path_history
      ∧ Forall (λ r, simple_path 4 0 3 (EK.path r) ∧ 1 ≤ EK.flow r) path_history
      ∧ Z.of_nat (length path_history) ≤ max_flow.
Proof.
  split; [by_decide |]. apply (edmonds_karp_trace 4 diamond 0 3). by_decide.
Defined.

(** ** The value of the returned flow *)

Lemma sum_others_split (n : nat) (w : Z) (f : Z → Z) :
  node n w → sum_over (py_range n) f = sum_others n w f + f w.
Proof.
  intros Hw. unfold sum_others.
  rewrite <- (sum_over_single (py_range n) w (f w))
    by (apply NoDup_py_range || by apply elem_of_py_range).
  rewrite <- sum_over_add. apply sum_over_ext. intros i _.
  case_decide; [subst; lia | lia].
Qed.

(** The cut that isolates the sink, and the cut that holds the source only. *)
Lemma across_sink (n : nat) (t : Z) (h : Z → Z → Z) :
  node n t →
  across (py_range n) (λ v, bool_decide (v ≠ t)) h = sum_others n t (λ i, h i t).
Proof.
  intros Ht. unfold across, sum_others. apply sum_over_ext. intros i Hi.
  case_bool_decide as Hit.
  - rewrite decide_False by done.
    rewrite (sum_over_single_at (py_range n) t
               (λ j, if bool_decide (j ≠ t) then 0 else h i j)).
    + by rewrite bool_decide_eq_false_2 by (intros H; by apply H).
    + apply NoDup_py_range.
    + by apply elem_of_py_range.
    + intros v _ Hv. by rewrite bool_decide_eq_true_2.
  - rewrite decide_True; [done |]. by destruct (decide (i = t)).
Qed.

Lemma across_source (n : nat) (s : Z) (h : Z → Z → Z) :
  node n s →
  across (py_range n) (λ v, bool_decide (v = s)) h = sum_others n s (h s).
Proof.
  intros Hs. unfold across, sum_others.
  rewrite (sum_over_single_at (py_range n) s
             (λ i, if bool_decide (i = s)
                   then sum_over (py_range n) (λ j, if bool_decide (j = s) then 0 else h i j)
                   else 0)).
  - rewrite bool_decide_eq_true_2 by done. apply sum_over_ext. intros j _.
    case_bool_decide; case_decide; done.
  - apply NoDup_py_range.
  - by apply elem_of_py_range.
  - intros v _ Hv. by rewrite bool_decide_eq_false_2.
Qed.

Section value_proof.
  Variables (n : nat) (cap : Matrix) (s t : Z) (st : EK.state).
  Hypothesis valid : valid_input n cap s t.
  Hypothesis inv : flow_inv n cap s t st.

(** What leaves the source arrives at the sink. *)
Lemma value_at_sink : col_sum n (EK.flow_matrix st) t = EK.max_flow st.
Proof.
  destruct valid as (Hsq & Hnn & Hs & Ht & Hst).
  rewrite <- (fi_value _ _ _ _ _ inv). unfold row_sum, col_sum.
  rewrite (value_across (py_range n) (entry (EK.flow_matrix st)) s t)
    with (S := λ v, bool_decide (v ≠ t)).
  - rewrite across_sink by done.
    rewrite (sum_others_split n t (λ i, entry (EK.flow_matrix st) i t)) by done.
    pose proof (fi_antisym _ _ _ _ _ inv t t Ht Ht). lia.
  - apply NoDup_py_range.
  - by apply elem_of_py_range.
  - intros i j Hi Hj. apply (fi_antisym _ _ _ _ _ inv); by apply elem_of_py_range.
  - intros i Hi His Hit. apply (fi_conserve _ _ _ _ _ inv); [| done | done].
    by apply elem_of_py_range.
  - by rewrite bool_decide_eq_true_2.
  - by rewrite bool_decide_eq_false_2 by (intros H; by apply H).
Qed.

Lemma value_le_source_capacity : EK.max_flow st ≤ row_sum n cap s.
Proof.
  destruct valid as (Hsq & Hnn & Hs & Ht & Hst).
  rewrite <- (fi_value _ _ _ _ _ inv). apply sum_over_le.
  intros j Hj. apply (fi_bounded _ _ _ _ _ inv); [done |].
  by apply elem_of_py_range.
Qed.

Lemma value_le_sink_capacity : EK.max_flow st ≤ col_sum n cap t.
Proof.
  destruct valid as (Hsq & Hnn & Hs & Ht & Hst).
  rewrite <- value_at_sink. apply sum_over_le.
  intros i Hi. apply (fi_bounded _ _ _ _ _ inv); [| done].
  by apply elem_of_py_range.
Qed.

End value_proof.

(** X5: for every valid input the returned flow value is the sum of the
    source's row of the returned matrix and also the sum of the sink's
    column: what leaves the source arrives at the sink.  It lies between 0
    and the smaller of the capacity leaving the source and the capacity
    entering the sink. *)
Theorem edmonds_karp_value (n : nat) (cap : Matrix) (s t : Z) :
  valid_input n cap s t →
  ∃ max_flow flow_matrix path_history,
    (∀ fuel, (enough_fuel n cap s ≤ fuel)%nat →
       EK.edmonds_karp fuel cap s t = Ok (max_flow, flow_matrix, path_history))
    ∧ row_sum n flow_matrix s = max_flow
    ∧ col_sum n flow_matrix t = max_flow
    ∧ 0 ≤ max_flow ≤ Z.min (row_sum n cap s) (col_sum n cap t).
Proof.
  intros Hvalid.
  destruct (edmonds_karp_final n cap s t Hvalid) as (st & Hrun & Hreach & Hinv & _).
  destruct (reachable_trace n cap s t Hvalid st Hreach) as [Hsum Hall].
  exists (EK.max_flow st), (EK.flow_matrix st), (EK.path_history st).
  split; [done |]. split; [apply Hinv |].
  split; [by apply (value_at_sink n cap s t) |].
  pose proof (value_le_source_capacity n cap s t st Hvalid Hinv).
  pose proof (value_le_sink_capacity n cap s t st Hvalid Hinv).
  assert (Z.of_nat (length (EK.path_history st)) ≤ trace_flow (EK.path_history st)).
  { apply trace_flow_length. eapply Forall_impl; [done |]. by intros r [_ Hr]. }
  lia.
Qed.

Lemma edmonds_karp_value_witness :
  valid_input 4 diamond 0 3
  ∧ ∃ max_flow flow_matrix path_history,
      (∀ fuel, (enough_fuel 4 diamond 0 ≤ fuel)%nat →
         EK.edmonds_karp fuel diamond 0 3 = Ok (max_flow, flow_matrix, path_history))
      ∧ row_sum 4 flow_matrix 0 = max_flow
      ∧ col_sum 4 flow_matrix 3 = max_flow
      ∧ 0 ≤ max_flow ≤ Z.min (row_sum 4 diamond 0) (col_sum 4 diamond 3).
Proof.
  split; [by_decide |]. apply (edmonds_karp_value 4 diamond 0 3). by_decide.
Defined.

(** X6: raising capacities never lowers the result: if every entry of
    [cap] is at most the entry of [cap'], the flow value returned for [cap]
    is at most the one returned for [cap']. *)
Theorem edmonds_karp_monotone (n : nat) (cap cap' : Matrix) (s t : Z) :
  valid_input n cap s t → valid_input n cap' s t →
  (∀ i j, node n i → node n j → entry cap i j ≤ entry cap' i j) →
  ∃ max_flow flow_matrix path_history max_flow' flow_matrix' path_history',
    (∀ fuel, (enough_fuel n cap s ≤ fuel)%nat →
       EK.edmonds_karp fuel cap s t = Ok (max_flow, flow_matrix, path_history))
    ∧ (∀ fuel, (enough_fuel n cap' s ≤ fuel)%nat →
         EK.edmonds_karp fuel cap' s t = Ok (max_flow', flow_matrix', path_history'))
    ∧ max_flow ≤ max_flow'.
Proof.
  intros Hvalid Hvalid' Hle.
  destruct (edmonds_karp_total n cap s t Hvalid) as (st & Hrun & Hinv & _).
  destruct (edmonds_karp_total n cap' s t Hvalid') as (st' & Hrun' & Hinv' & Hexit').
  eexists _, _, _, _, _, _. split; [exact Hrun |]. split; [exact Hrun' |].
  destruct (positive_part_feasible n cap s t Hvalid st Hinv)
    as [(Hsq & Hbd & Hcons) Hval].
  destruct (inv_saturated_cut n cap' s t Hvalid' st' Hinv' Hexit') as (S & HS & <-).
  rewrite <- Hval. apply (feasible_value_le_cut n cap' s t Hvalid'); [| done].
  split; [done |]. split; [| done]. intros i j Hi Hj.
  pose proof (Hbd i j Hi Hj). pose proof (Hle i j Hi Hj). lia.
Qed.

Lemma edmonds_karp_monotone_witness :
  ∃ max_flow flow_matrix path_history max_flow' flow_matrix' path_history',
    (∀ fuel, (enough_fuel 2 (zero_matrix 2) 0 ≤ fuel)%nat →
       EK.edmonds_karp fuel (zero_matrix 2) 0 1
       = Ok (max_flow, flow_matrix, path_history))
    ∧ (∀ fuel, (enough_fuel 2 single_edge 0 ≤ fuel)%nat →
         EK.edmonds_karp fuel single_edge 0 1
         = Ok (max_flow', flow_matrix', path_history'))
    ∧ max_flow ≤ max_flow'.
Proof.
  apply (edmonds_karp_monotone 2 (zero_matrix 2) single_edge 0 1);
    [by_decide | by_decide |].
  apply nodes_forall. by_decide.
Defined.

(** X7: whatever its arguments, [edmonds_karp] raises no exception other
    than [IndexError]; in particular [float('Inf')] never reaches the flow
    matrix. *)
Theorem edmonds_karp_raises_only_index_error (fuel : nat) (cap : Matrix)
    (s t : Z) (e : exn) :
  EK.edmonds_karp fuel cap s t = Raise e → e = IndexError.
Proof. apply only_index_error_edmonds_karp. Qed.

Lemma edmonds_karp_raises_only_index_error_witness :
  EK.edmonds_karp 5 [] 0 1 = Raise IndexError ∧ IndexError = IndexError.
Proof.
  split; [reflexivity |].
  apply (edmonds_karp_raises_only_index_error 5 [] 0 1 IndexError). reflexivity.
Defined.

(** ** Loops that collect into a list *)

Lemma py_for_app {A S} (l1 l2 : list A) (body : A → S → res S) (st : S) :
  py_for (l1 ++ l2) body st = py_for l1 body st ≫= py_for l2 body.
Proof.
  revert st. induction l1 as [| x l1 IH]; intros st; simpl; [done |].
  destruct (body x st) as [st' | e |]; simpl; [apply IH | done | done].
Qed.

(** A loop whose every turn appends [g x] to the list. *)
Lemma py_for_collect {A B} (l : list A) (body : A → list B → res (list B))
    (g : A → list B) :
  (∀ x acc, x ∈ l → body x acc = Ok (acc ++ g x)) →
  ∀ acc, py_for l body acc = Ok (acc ++ l ≫= g).
Proof.
  induction l as [| a l IH]; intros Hbody acc; simpl.
  - by rewrite app_nil_r.
  - rewrite Hbody by left. simpl. rewrite IH by (intros x acc' Hx; apply Hbody; by right).
    by rewrite app_assoc.
Qed.

Lemma lookup_nthZ {A} (d : A) (l : list A) (i : Z) :
  0 ≤ i < Z.of_nat (length l) → l !! Z.to_nat i = Some (nthZ d l i).
Proof.
  intros Hi. unfold nthZ.
  destruct (lookup_lt_is_Some_2 l (Z.to_nat i)) as [x ->]; [lia | done].
Qed.

(** ** The edge list and the bottleneck list *)

Section edge_lists.
  Variables (n : nat) (cap flow : Matrix) (nodes : list string).
  Hypothesis nodes_length : length nodes = n.
  Hypothesis cap_square : square n cap.
  Hypothesis flow_square : square n flow.

Local Abbreviation selected := (selected n cap nodes).

Lemma elem_of_selected keep e :
  e ∈ selected keep
  ↔ ∃ i j, node n i ∧ node n j ∧ keep i j = true
           ∧ e = (nthZ "" nodes i, nthZ "" nodes j, entry cap i j).
Proof.
  unfold selected. rewrite list_elem_of_bind. split.
  - intros (i & He & Hi). apply list_elem_of_bind in He as (j & He & Hj).
    apply elem_of_py_range in Hi, Hj. exists i, j.
    destruct (keep i j); [| by apply elem_of_nil in He].
    by apply list_elem_of_singleton in He.
  - intros (i & j & Hi & Hj & Hk & ->). exists i.
    split; [| by apply elem_of_py_range]. apply list_elem_of_bind. exists j.
    split; [| by apply elem_of_py_range]. rewrite Hk. left.
Qed.

Lemma get_edges_selected :
  Net.get_edges_from_matrix cap nodes
  = Ok (selected (λ i j, bool_decide (entry cap i j > 0))).
Proof.
  unfold Net.get_edges_from_matrix, selected. rewrite nodes_length.
  rewrite (py_for_collect _ _
             (λ i, j ← py_range n;
                   if bool_decide (entry cap i j > 0)
                   then [(nthZ "" nodes i, nthZ "" nodes j, entry cap i j)] else []));
    [done |].
  intros i acc Hi. apply elem_of_py_range in Hi.
  apply py_for_collect. intros j acc' Hj. apply elem_of_py_range in Hj.
  rewrite !(mat_get_ok n) by done. simpl.
  case_bool_decide; [| by rewrite app_nil_r].
  rewrite !(py_get_ok "") by lia. done.
Qed.

Lemma find_bottlenecks_selected :
  Net.find_bottlenecks cap flow nodes
  = Ok (selected (λ i j, bool_decide (entry cap i j > 0)
                         && bool_decide (entry flow i j = entry cap i j))).
Proof.
  unfold Net.find_bottlenecks, selected. rewrite nodes_length.
  rewrite (py_for_collect _ _
             (λ i, j ← py_range n;
                   if bool_decide (entry cap i j > 0)
                      && bool_decide (entry flow i j = entry cap i j)
                   then [(nthZ "" nodes i, nthZ "" nodes j, entry cap i j)] else []));
    [done |].
  intros i acc Hi. apply elem_of_py_range in Hi.
  apply py_for_collect. intros j acc' Hj. apply elem_of_py_range in Hj.
  rewrite !(mat_get_ok n) by done. simpl.
  case_bool_decide; simpl; [| by rewrite app_nil_r].
  case_bool_decide; simpl; [| by rewrite app_nil_r].
  rewrite !(py_get_ok "") by lia. done.
Qed.

End edge_lists.

(** X8: for an [n] by [n] matrix and [n] node names,
    [get_edges_from_matrix] never fails; it lists, in row-major order,
    exactly the entries that are positive, each with the names of its row
    and column and its capacity. *)
Theorem get_edges_from_matrix_positive_entries (n : nat) (cap : Matrix)
    (nodes : list string) :
  length nodes = n → square n cap →
  ∃ edges,
    Net.get_edges_from_matrix cap nodes = Ok edges
    ∧ edges = selected n cap nodes (λ i j, bool_decide (entry cap i j > 0))
    ∧ ∀ a b c, (a, b, c) ∈ edges
        ↔ ∃ i j, node n i ∧ node n j
                 ∧ nodes !! Z.to_nat i = Some a ∧ nodes !! Z.to_nat j = Some b
                 ∧ entry cap i j = c ∧ 0 < c.
Proof.
  intros Hlen Hsq. eexists. split; [by apply get_edges_selected |].
  split; [done |]. intros a b c. rewrite elem_of_selected. split.
  - intros (i & j & Hi & Hj & Hk & [= -> -> ->]).
    apply bool_decide_eq_true in Hk. exists i, j.
    split; [done |]. split; [done |].
    split; [apply lookup_nthZ; unfold node in Hi; lia |].
    split; [apply lookup_nthZ; unfold node in Hj; lia |]. split; [done | lia].
  - intros (i & j & Hi & Hj & Ha & Hb & Hc & Hpos). exists i, j.
    split; [done |]. split; [done |].
    split; [apply bool_decide_eq_true; lia |].
    unfold nthZ. by rewrite Ha, Hb, Hc.
Qed.

Lemma get_edges_from_matrix_positive_entries_witness :
  ∃ edges,
    Net.get_edges_from_matrix diamond ["S"; "A"; "B"; "T"] = Ok edges
    ∧ edges = selected 4 diamond ["S"; "A"; "B"; "T"]
                (λ i j, bool_decide (entry diamond i j > 0))
    ∧ ∀ a b c, (a, b, c) ∈ edges
        ↔ ∃ i j, node 4 i ∧ node 4 j
                 ∧ ["S"; "A"; "B"; "T"] !! Z.to_nat i = Some a
                 ∧ ["S"; "A"; "B"; "T"] !! Z.to_nat j = Some b
                 ∧ entry diamond i j = c ∧ 0 < c.
Proof.
  apply (get_edges_from_matrix_positive_entries 4 diamond ["S"; "A"; "B"; "T"]);
    [done | by_decide].
Defined.

(** X9: for [n] by [n] matrices and [n] node names, the bottleneck list of
    [analyze_network] holds exactly the edges of positive capacity whose flow
    equals their capacity; every one of them is an edge that
    [get_edges_from_matrix] lists. *)
Theorem find_bottlenecks_saturated_edges (n : nat) (cap flow : Matrix)
    (nodes : list string) :
  length nodes = n → square n cap → square n flow →
  ∃ bottlenecks edges,
    Net.find_bottlenecks cap flow nodes = Ok bottlenecks
    ∧ (∀ ni path_history a,
         Net.analyze_network cap flow nodes ni path_history = Ok a →
         Net.bottlenecks a = bottlenecks)
    ∧ Net.get_edges_from_matrix cap nodes = Ok edges
    ∧ (∀ a b c, (a, b, c) ∈ bottlenecks
         ↔ ∃ i j, node n i ∧ node n j
                  ∧ nodes !! Z.to_nat i = Some a ∧ nodes !! Z.to_nat j = Some b
                  ∧ entry cap i j = c ∧ 0 < c ∧ entry flow i j = c)
    ∧ (∀ e, e ∈ bottlenecks → e ∈ edges).
Proof.
  intros Hlen Hcap Hflow. eexists _, _.
  split; [by apply find_bottlenecks_selected |]. split.
  { intros ni hist a. unfold Net.analyze_network.
    rewrite (find_bottlenecks_selected n) by done. step_ok. intros Hrun.
    apply bind_Ok_inv in Hrun as (o & _ & Hrun).
    apply bind_Ok_inv in Hrun as (i & _ & Hrun).
    apply bind_Ok_inv in Hrun as (r & _ & [= <-]). done. }
  split; [by apply get_edges_selected |]. split.
  - intros a b c. rewrite elem_of_selected. split.
    + intros (i & j & Hi & Hj & Hk & [= -> -> ->]).
      apply andb_true_iff in Hk as [Hk1 Hk2].
      apply bool_decide_eq_true in Hk1, Hk2. exists i, j.
      split; [done |]. split; [done |].
      split; [apply lookup_nthZ; unfold node in Hi; lia |].
      split; [apply lookup_nthZ; unfold node in Hj; lia |].
      split; [done |]. split; [lia | done].
    + intros (i & j & Hi & Hj & Ha & Hb & Hc & Hpos & Hf). exists i, j.
      split; [done |]. split; [done |]. split.
      * apply andb_true_iff. split; apply bool_decide_eq_true; lia.
      * unfold nthZ. by rewrite Ha, Hb, Hc.
  - intros e. rewrite !elem_of_selected.
    intros (i & j & Hi & Hj & Hk & ->). exists i, j.
    apply andb_true_iff in Hk as [Hk _]. done.
Qed.

Lemma find_bottlenecks_saturated_edges_witness :
  ∃ bottlenecks edges,
    Net.find_bottlenecks single_edge (EK.flow_matrix single_edge_final) ["S"; "T"]
    = Ok bottlenecks
    ∧ (∀ ni path_history a,
         Net.analyze_network single_edge (EK.flow_matrix single_edge_final)
           ["S"; "T"] ni path_history = Ok a →
         Net.bottlenecks a = bottlenecks)
    ∧ Net.get_edges_from_matrix single_edge ["S"; "T"] = Ok edges
    ∧ (∀ a b c, (a, b, c) ∈ bottlenecks
         ↔ ∃ i j, node 2 i ∧ node 2 j
                  ∧ ["S"; "T"] !! Z.to_nat i = Some a
                  ∧ ["S"; "T"] !! Z.to_nat j = Some b
                  ∧ entry single_edge i j = c ∧ 0 < c
                  ∧ entry (EK.flow_matrix single_edge_final) i j = c)
    ∧ (∀ e, e ∈ bottlenecks → e ∈ edges).
Proof.
  apply (find_bottlenecks_saturated_edges 2 single_edge
           (EK.flow_matrix single_edge_final) ["S"; "T"]);
    [done | by_decide | by_decide].
Defined.

(** ** A matrix smaller than the node list *)

Lemma mat_get_out_col (N : nat) (m : Matrix) (i j : Z) :
  square N m → ¬ in_py_range N j → mat_get m i j = Raise IndexError.
Proof.
  intros [Hlen Hrows] Hj. unfold mat_get.
  destruct (decide (in_py_range (length m) i)) as [Hi | Hi].
  - destruct (py_get_in m i Hi) as (row & -> & Hrow). simpl.
    rewrite Forall_forall in Hrows. apply py_get_out. by rewrite (Hrows row).
  - by rewrite py_get_out.
Qed.

(** The first row of the scan already reaches a column the matrix lacks. *)
Lemma edge_row_short (k : nat) (cap : Matrix) (nodes : list string)
    (acc : list (string * string * Z)) :
  square k cap → (k < length nodes)%nat →
  py_for (py_range (length nodes)) (λ j edges,
    c ← mat_get cap 0 j;
    if bool_decide (c > 0) then
      from_node ← py_get nodes 0;
      to_node ← py_get nodes j;
      c ← mat_get cap 0 j;
      Ok (edges ++ [(from_node, to_node, c)])
    else Ok edges) acc
  = Raise IndexError.
Proof.
  intros Hsq Hk. set (L := length nodes) in *. unfold py_range.
  replace (Z.of_nat L) with (Z.of_nat k + (Z.of_nat L - Z.of_nat k)) by lia.
  rewrite seqZ_app by lia. rewrite py_for_app.
  match goal with
  | |- py_for _ ?body _ ≫= _ = _ =>
      destruct (py_for_inv (λ _, True) (seqZ 0 (Z.of_nat k)) body) with (st := acc)
        as (acc' & -> & _); [| done |]
  end.
  - intros j st Hj _. apply elem_of_seqZ in Hj. cbv beta.
    rewrite !(mat_get_ok k) by (done || lia). simpl.
    case_bool_decide; [| by eexists].
    rewrite !(py_get_ok "") by (fold L; lia). simpl. by eexists.
  - simpl. rewrite Z.add_0_l.
    destruct (Z.to_nat (Z.of_nat L - Z.of_nat k)) as [| len] eqn:Hlen; [lia |].
    replace (Z.of_nat L - Z.of_nat k) with (Z.of_nat (S len)) by lia.
    rewrite seqZ_cons by lia. rewrite py_for_cons.
    rewrite (mat_get_out_col k) by (done || unfold in_py_range; lia). done.
Qed.

(** X10: when the matrix is [k] by [k] and there are more than [k] node
    names, [get_edges_from_matrix] raises [IndexError]: the scan of the first
    row reaches a column that the matrix lacks. *)
Theorem get_edges_from_matrix_short_matrix (k : nat) (cap : Matrix)
    (nodes : list string) :
  square k cap → (k < length nodes)%nat →
  Net.get_edges_from_matrix cap nodes = Raise IndexError.
Proof.
  intros Hsq Hk. unfold Net.get_edges_from_matrix.
  pose proof (edge_row_short k cap nodes [] Hsq Hk) as Hrow.
  unfold py_range at 1.
  destruct (length nodes) as [| L'] eqn:HL; [lia |].
  rewrite seqZ_cons by lia. rewrite py_for_cons. by rewrite Hrow.
Qed.

Lemma get_edges_from_matrix_short_matrix_witness :
  Net.get_edges_from_matrix single_edge ["S"; "A"; "T"] = Raise IndexError.
Proof.
  apply (get_edges_from_matrix_short_matrix 2 single_edge ["S"; "A"; "T"]);
    [by_decide | simpl; lia].
Defined.

(** ** Dictionaries in insertion order, sums and sorting *)

Section odicts.
  Context `{EqDecision K} {V : Type}.
  Implicit Types (d : list (K * V)) (k : K) (v : V).

Lemma odict_set_fresh d k v : k ∉ d.*1 → odict_set d k v = d ++ [(k, v)].
Proof.
  induction d as [| [k' v'] d IH]; intros Hk; simpl; [done |].
  rewrite fmap_cons in Hk. apply not_elem_of_cons in Hk as [Hne Hk].
  rewrite decide_False by done. by rewrite IH.
Qed.

Lemma odict_set_keys d k v : k ∈ d.*1 → (odict_set d k v).*1 = d.*1.
Proof.
  induction d as [| [k' v'] d IH]; intros Hk; simpl; [by apply elem_of_nil in Hk |].
  case_decide as Hkk; [done |]. simpl. f_equal. apply IH.
  rewrite fmap_cons in Hk. apply elem_of_cons in Hk as [-> | Hk]; done.
Qed.

Lemma odict_get_Ok d k v : odict_get d k = Ok v → (k, v) ∈ d.
Proof.
  induction d as [| [k' v'] d IH]; simpl; [done |].
  case_decide as Hkk; [intros [= ->]; subst; left | intros H; right; by apply IH].
Qed.

Lemma odict_get_elem d k : k ∈ d.*1 → ∃ v, odict_get d k = Ok v.
Proof.
  induction d as [| [k' v'] d IH]; intros Hk; simpl; [by apply elem_of_nil in Hk |].
  case_decide as Hkk; [by eexists |]. apply IH.
  rewrite fmap_cons in Hk. apply elem_of_cons in Hk as [-> | Hk]; done.
Qed.

Lemma odict_get_missing d k : k ∉ d.*1 → odict_get d k = Raise KeyError.
Proof.
  induction d as [| [k' v'] d IH]; intros Hk; simpl; [done |].
  rewrite fmap_cons in Hk. apply not_elem_of_cons in Hk as [Hne Hk].
  rewrite decide_False by done. by apply IH.
Qed.

(** An item of the updated dictionary is the new one or an old one. *)
Lemma elem_of_odict_set d k v k' v' :
  (k', v') ∈ odict_set d k v → (k' = k ∧ v' = v) ∨ (k', v') ∈ d.
Proof.
  induction d as [| [k0 v0] d IH]; simpl.
  - intros H. apply list_elem_of_singleton in H as [= -> ->]. by left.
  - case_decide as Hk.
    + intros H. apply elem_of_cons in H as [[= -> ->] | H]; [by left |].
      right. by right.
    + intros H. apply elem_of_cons in H as [[= -> ->] | H]; [right; left |].
      destruct (IH H) as [? | ?]; [by left | right; by right].
Qed.

Lemma dict_of_items_fresh (items : list (K * V)) : ∀ d,
  NoDup (d.*1 ++ items.*1) →
  foldl (λ d p, odict_set d p.1 p.2) d items = d ++ items.
Proof.
  induction items as [| [k v] items IH]; intros d Hnd; simpl.
  - by rewrite app_nil_r.
  - rewrite fmap_cons in Hnd.
    rewrite odict_set_fresh.
    + rewrite IH; [by rewrite <- app_assoc |].
      rewrite fmap_app, <- app_assoc. done.
    + apply NoDup_app in Hnd as (_ & Hdisj & _). intros Hk.
      apply (Hdisj k Hk). left.
Qed.

Lemma dict_of_items_NoDup (items : list (K * V)) :
  NoDup items.*1 → dict_of_items items = items.
Proof. intros Hnd. unfold dict_of_items. by rewrite dict_of_items_fresh. Qed.

End odicts.

(** A loop that stores one computed value per name. *)
Lemma py_for_dict {V} (names : list string)
    (body : string → list (string * V) → res (list (string * V))) (f : string → V) :
  NoDup names →
  (∀ name d, name ∈ names → body name d = Ok (odict_set d name (f name))) →
  ∀ d, (∀ name, name ∈ names → name ∉ d.*1) →
  py_for names body d = Ok (d ++ ((λ name, (name, f name)) <$> names)).
Proof.
  induction names as [| a names IH]; intros Hnd Hc d Hfresh; simpl.
  - by rewrite app_nil_r.
  - apply NoDup_cons in Hnd as [Ha Hnd].
    rewrite Hc by left. simpl. rewrite odict_set_fresh by (apply Hfresh; left).
    rewrite IH; [by rewrite <- app_assoc | done | |].
    + intros name d' Hname. apply Hc. by right.
    + intros name Hname. rewrite fmap_app. simpl. intros Hin.
      apply elem_of_app in Hin as [Hin | Hin].
      * by apply (Hfresh name); [right |].
      * apply list_elem_of_singleton in Hin as ->. done.
Qed.

(** A loop that looks every name up: it raises [KeyError] at the first
    missing name, provided the turns before it return. *)
Lemma py_for_lookup {S} (P : S → Prop) (ni : gmap string Z) (names : list string)
    (k : string → Z → S → res S) :
  (∀ name idx st, name ∈ names → ni !! name = Some idx → P st →
     ∃ st', k name idx st = Ok st' ∧ P st') →
  ∀ st, P st →
    if decide (Forall (λ name, is_Some (ni !! name)) names)
    then ∃ st', py_for names (λ name st, idx ← dict_get ni name; k name idx st) st
                = Ok st' ∧ P st'
    else py_for names (λ name st, idx ← dict_get ni name; k name idx st) st
         = Raise KeyError.
Proof.
  induction names as [| a names IH]; intros Hk st Hst.
  - rewrite decide_True by constructor. by exists st.
  - destruct (ni !! a) as [idx |] eqn:Ha.
    + assert (Hget : dict_get ni a = Ok idx) by (unfold dict_get; by rewrite Ha).
      rewrite py_for_cons, Hget. step_ok.
      destruct (Hk a idx st) as (st1 & -> & Hst1); [left | done | done |]. step_ok.
      specialize (IH (λ name idx st Hname,
                        Hk name idx st (list_elem_of_further _ _ _ Hname)) st1 Hst1).
      destruct (decide (Forall (λ name, is_Some (ni !! name)) names)) as [Hall | Hnot].
      * rewrite decide_True; [done |]. constructor; [by rewrite Ha | done].
      * rewrite decide_False; [done |]. intros Hall.
        by apply Forall_cons in Hall as [_ Hall].
    + assert (Hget : dict_get ni a = Raise KeyError) by (unfold dict_get; by rewrite Ha).
      rewrite py_for_cons, Hget. simpl. rewrite decide_False; [done |]. intros Hall.
      apply Forall_cons in Hall as [[x Hx] _]. congruence.
Qed.

Lemma foldl_add (l : list Z) (a : Z) : foldl Z.add a l = a + foldr Z.add 0 l.
Proof. revert a. induction l as [| x l IH]; intros a; simpl; [lia |]. rewrite IH. lia. Qed.

Lemma sum_over_seqZ_list (l : list Z) : ∀ m,
  sum_over (seqZ m (Z.of_nat (length l))) (λ i, nthZ 0 l (i - m)) = foldr Z.add 0 l.
Proof.
  induction l as [| x l IH]; intros m; [done |].
  rewrite seqZ_cons by (simpl; lia). simpl sum_over. simpl foldr.
  replace (Z.pred (Z.of_nat (S (length l)))) with (Z.of_nat (length l)) by lia.
  rewrite <- (IH (Z.succ m)). rewrite Z.sub_diag. f_equal.
  apply sum_over_ext. intros i Hi. apply elem_of_seqZ in Hi.
  unfold nthZ. replace (Z.to_nat (i - m)) with (S (Z.to_nat (i - Z.succ m))) by lia.
  done.
Qed.

(** [sum(row)] is the sum of the entries of the row. *)
Lemma py_sum_row (n : nat) (m : Matrix) (i : Z) :
  square n m → node n i → py_sum (nthZ [] m i) = row_sum n m i.
Proof.
  intros Hsq Hi. unfold py_sum, row_sum, entry, py_range.
  rewrite foldl_add, <- (sum_over_seqZ_list _ 0), (square_row n) by done.
  rewrite Z.add_0_l. apply sum_over_ext. intros j _. by rewrite Z.sub_0_r.
Qed.

(** The accumulating loop of a column sum. *)
Lemma py_for_col_sum (n : nat) (m : Matrix) (j : Z) (l : list Z) :
  square n m → node n j → (∀ i, i ∈ l → node n i) →
  ∀ acc, py_for l (λ i acc, x ← mat_get m i j; Ok (acc + x)) acc
         = Ok (acc + sum_over l (λ i, entry m i j)).
Proof.
  intros Hsq Hj. induction l as [| a l IH]; intros Hl acc; simpl.
  - by rewrite Z.add_0_r.
  - rewrite (mat_get_ok n) by (done || apply Hl; left). simpl.
    rewrite IH by (intros i Hi; apply Hl; by right). f_equal. lia.
Qed.

Section sorting.
  Context {A : Type} (key : A → Z).
  Implicit Types (x : A) (l : list A).

Lemma insert_sorted_perm x l : insert_sorted key x l ≡ₚ x :: l.
Proof.
  induction l as [| y l IH]; simpl; [done |].
  case_bool_decide; [| done]. rewrite IH. apply Permutation_swap.
Qed.

Lemma py_sorted_perm l : py_sorted key l ≡ₚ l.
Proof.
  induction l as [| x l IH]; simpl; [done |].
  rewrite insert_sorted_perm. by rewrite IH.
Qed.

Lemma insert_sorted_sorted x l :
  StronglySorted (λ a b, key a ≤ key b) l →
  StronglySorted (λ a b, key a ≤ key b) (insert_sorted key x l).
Proof.
  induction 1 as [| y l Hl IH Hy]; simpl; [repeat constructor |].
  case_bool_decide as Hlt.
  - constructor; [done |]. rewrite Forall_forall in Hy |- *. intros z Hz.
    rewrite insert_sorted_perm in Hz. apply elem_of_cons in Hz as [-> | Hz];
      [lia | by apply Hy].
  - constructor; [by constructor |]. constructor; [lia |].
    eapply Forall_impl; [done |]. intros z Hz. simpl in *. lia.
Qed.

Lemma py_sorted_sorted l : StronglySorted (λ a b, key a ≤ key b) (py_sorted key l).
Proof.
  induction l as [| x l IH]; simpl; [constructor | by apply insert_sorted_sorted].
Qed.

(** Stability: items of equal key stay in their original order. *)
Lemma insert_sorted_stable x l (v : Z) :
  filter (λ a, key a = v) (insert_sorted key x l)
  = filter (λ a, key a = v) (x :: l).
Proof.
  induction l as [| y l IH]; simpl; [done |].
  case_bool_decide as Hlt; [| done].
  rewrite !filter_cons. rewrite filter_cons in IH. rewrite IH.
  repeat case_decide; (done || lia).
Qed.

Lemma py_sorted_stable l (v : Z) :
  filter (λ a, key a = v) (py_sorted key l) = filter (λ a, key a = v) l.
Proof.
  induction l as [| x l IH]; simpl; [done |].
  rewrite insert_sorted_stable, !filter_cons. by rewrite IH.
Qed.

End sorting.

(** ** The flows that [analyze_network] reports *)

Lemma indexed_all_get ni names (Q : Z → Prop) name :
  indexed_all ni names Q → name ∈ names →
  ∃ idx, ni !! name = Some idx ∧ dict_get ni name = Ok idx
         ∧ index_of ni name = idx ∧ Q idx.
Proof.
  unfold indexed_all. rewrite Forall_forall. intros Hall Hname.
  specialize (Hall name Hname). unfold dict_get, index_of.
  destruct (ni !! name) as [idx |]; [by exists idx | done].
Qed.

Lemma fmap_fst_pair {A B} (f : A → B) (l : list A) :
  ((λ a, (a, f a)) <$> l).*1 = l.
Proof. induction l as [| a l IH]; [done |]. rewrite !fmap_cons. simpl. by f_equal. Qed.

Section analysis_proof.
  Variables (n : nat) (cap flow : Matrix) (nodes : list string) (ni : gmap string Z).
  Hypothesis nodes_length : length nodes = n.
  Hypothesis cap_square : square n cap.
  Hypothesis flow_square : square n flow.

Lemma terminal_outflows_spec :
  indexed_all ni Net.terminals (node n) →
  Net.sum_terminal_outflows flow ni
  = Ok ((λ t, (t, row_sum n flow (index_of ni t))) <$> Net.terminals).
Proof.
  intros Hidx. unfold Net.sum_terminal_outflows.
  rewrite (py_for_dict _ _ (λ t, row_sum n flow (index_of ni t))); [done | by_decide | |].
  - intros t d Ht.
    destruct (indexed_all_get _ _ _ _ Hidx Ht) as (idx & _ & -> & -> & Hnode). simpl.
    rewrite (py_get_ok []) by (destruct flow_square as [-> _]; done). simpl.
    by rewrite (py_sum_row n).
  - intros name _ Hin. by apply elem_of_nil in Hin.
Qed.

Lemma store_inflows_spec :
  indexed_all ni Net.stores (node n) →
  Net.sum_store_inflows flow nodes ni
  = Ok ((λ s, (s, col_sum n flow (index_of ni s))) <$> Net.stores).
Proof.
  intros Hidx. unfold Net.sum_store_inflows. rewrite nodes_length.
  rewrite (py_for_dict _ _ (λ s, col_sum n flow (index_of ni s))); [done | by_decide | |].
  - intros s d Hs.
    destruct (indexed_all_get _ _ _ _ Hidx Hs) as (idx & _ & -> & -> & Hnode). simpl.
    rewrite (py_for_col_sum n) by (done || intros i Hi; by apply elem_of_py_range).
    simpl. by rewrite Z.add_0_l.
  - intros name _ Hin. by apply elem_of_nil in Hin.
Qed.

End analysis_proof.

(** Everything in [analyze_network] but the hub records returns, with these
    values. *)
Lemma analyze_network_run (n : nat) (cap flow : Matrix) (nodes : list string)
    (ni : gmap string Z) (path_history : list EK.path_record) :
  length nodes = n → square n cap → square n flow →
  indexed_all ni (Net.terminals ++ Net.stores) (node n) →
  Net.analyze_network cap flow nodes ni path_history
  = (records ← Net.warehouse_utilization cap flow nodes ni;
     Ok (Net.Analysis
           (selected n cap nodes
              (λ i j, bool_decide (entry cap i j > 0)
                      && bool_decide (entry flow i j = entry cap i j)))
           ((λ t, (t, row_sum n flow (index_of ni t))) <$> Net.terminals)
           (py_sorted snd ((λ s, (s, col_sum n flow (index_of ni s))) <$> Net.stores))
           records path_history)).
Proof.
  intros Hlen Hcap Hflow Hidx. apply Forall_app in Hidx as [Ht Hs].
  set (raw := (λ s, (s, col_sum n flow (index_of ni s))) <$> Net.stores).
  assert (Hkeys : NoDup (py_sorted snd raw).*1).
  { rewrite (py_sorted_perm snd raw). unfold raw. rewrite fmap_fst_pair. by_decide. }
  unfold Net.analyze_network.
  rewrite (find_bottlenecks_selected n) by done. simpl.
  rewrite (terminal_outflows_spec n) by done. simpl.
  rewrite (store_inflows_spec n) by done. simpl. fold raw.
  by rewrite dict_of_items_NoDup.
Qed.

(** X11: on [n] by [n] matrices and an index that gives every terminal and
    store a node, the blocks of [analyze_network] before the hub records never
    fail.  The reported outflow of a terminal is the sum of its row of the
    flow matrix; the reported inflows of the stores are the sums of their
    columns, arranged in ascending order of inflow, stores of equal inflow in
    their original order. *)
Theorem analyze_network_flows (n : nat) (cap flow : Matrix) (nodes : list string)
    (ni : gmap string Z) :
  length nodes = n → square n cap → square n flow →
  indexed_all ni (Net.terminals ++ Net.stores) (node n) →
  ∃ bottlenecks outflows inflows,
    (∀ path_history,
       Net.analyze_network cap flow nodes ni path_history
       = (records ← Net.warehouse_utilization cap flow nodes ni;
          Ok (Net.Analysis bottlenecks outflows inflows records path_history)))
    ∧ outflows = (λ t, (t, row_sum n flow (index_of ni t))) <$> Net.terminals
    ∧ inflows ≡ₚ (λ s, (s, col_sum n flow (index_of ni s))) <$> Net.stores
    ∧ StronglySorted (λ p q, p.2 ≤ q.2) inflows
    ∧ ∀ v, filter (λ p, p.2 = v) inflows
           = filter (λ p, p.2 = v)
               ((λ s, (s, col_sum n flow (index_of ni s))) <$> Net.stores).
Proof.
  intros Hlen Hcap Hflow Hidx. eexists _, _, _.
  split; [intros hist; by apply (analyze_network_run n) |].
  split; [done |]. split; [apply py_sorted_perm |].
  split; [apply py_sorted_sorted |]. intros v. apply (py_sorted_stable snd).
Qed.

Lemma analyze_network_flows_witness :
  ∃ bottlenecks outflows inflows,
    (∀ path_history,
       Net.analyze_network logistics_capacity logistics_flow logistics_nodes
         logistics_indices path_history
       = (records ← Net.warehouse_utilization logistics_capacity logistics_flow
                      logistics_nodes logistics_indices;
          Ok (Net.Analysis bottlenecks outflows inflows records path_history)))
    ∧ outflows = (λ t, (t, row_sum 20 logistics_flow (index_of logistics_indices t)))
                 <$> Net.terminals
    ∧ inflows ≡ₚ (λ s, (s, col_sum 20 logistics_flow (index_of logistics_indices s)))
                 <$> Net.stores
    ∧ StronglySorted (λ p q, p.2 ≤ q.2) inflows
    ∧ ∀ v, filter (λ p, p.2 = v) inflows
           = filter (λ p, p.2 = v)
               ((λ s, (s, col_sum 20 logistics_flow (index_of logistics_indices s)))
                <$> Net.stores).
Proof.
  apply (analyze_network_flows 20 logistics_capacity logistics_flow logistics_nodes
           logistics_indices); [reflexivity | by_decide | by_decide | by_decide].
Defined.

(** ** Names that [node_indices] lacks *)

Lemma missing_name (ni : gmap string Z) (names : list string) (name : string) :
  name ∈ names → ni !! name = None →
  ¬ Forall (λ name, is_Some (ni !! name)) names.
Proof.
  intros Hname Hnone Hall. rewrite Forall_forall in Hall.
  destruct (Hall name Hname) as [x Hx]. congruence.
Qed.

Lemma present_index (ni : gmap string Z) (names : list string) (Q : Z → Prop)
    (name : string) (idx : Z) :
  indexed_present ni names Q → name ∈ names → ni !! name = Some idx → Q idx.
Proof.
  unfold indexed_present. rewrite Forall_forall. intros Hall Hname Hidx.
  specialize (Hall name Hname). by rewrite Hidx in Hall.
Qed.

(** X12: on [n] by [n] matrices, when [node_indices] lacks the name of a
    terminal or of a store, and gives the terminals and stores it does hold
    indices in range, [analyze_network] raises [KeyError]. *)
Theorem analyze_network_missing_name (n : nat) (cap flow : Matrix)
    (nodes : list string) (ni : gmap string Z) (name : string)
    (path_history : list EK.path_record) :
  length nodes = n → square n cap → square n flow →
  indexed_present ni (Net.terminals ++ Net.stores) (node n) →
  name ∈ Net.terminals ++ Net.stores → ni !! name = None →
  Net.analyze_network cap flow nodes ni path_history = Raise KeyError.
Proof.
  intros Hlen Hcap Hflow Hidx Hname Hnone.
  apply Forall_app in Hidx as [Hti Hsi].
  unfold Net.analyze_network.
  rewrite (find_bottlenecks_selected n) by done. step_ok.
  pose proof (py_for_lookup (λ _, True) ni Net.terminals
                (λ t t_idx d, row ← py_get flow t_idx; Ok (odict_set d t (py_sum row))))
    as Hterm.
  cbv beta in Hterm. specialize (Hterm) with (2 := I) (st := []).
  fold (Net.sum_terminal_outflows flow ni) in Hterm.
  assert (Hk1 : ∀ t idx (d : list (string * Z)),
            t ∈ Net.terminals → ni !! t = Some idx → True →
            ∃ d', (row ← py_get flow idx; Ok (odict_set d t (py_sum row))) = Ok d' ∧ True).
  { intros t idx d Ht Hi _.
    rewrite (py_get_ok []) by
      (destruct Hflow as [-> _]; exact (present_index _ _ _ _ _ Hti Ht Hi)).
    by eexists. }
  specialize (Hterm Hk1).
  fold (Net.sum_terminal_outflows flow ni) in Hterm.
  destruct (decide (Forall (λ name, is_Some (ni !! name)) Net.terminals))
    as [Hall | Hnot]; [| by rewrite Hterm].
  destruct Hterm as (outflows & -> & _). step_ok.
  pose proof (py_for_lookup (λ _, True) ni Net.stores
                (λ s s_idx d,
                   inflow ← py_for (py_range (length nodes))
                              (λ i acc, x ← mat_get flow i s_idx; Ok (acc + x)) 0;
                   Ok (odict_set d s inflow))) as Hstore.
  cbv beta in Hstore. specialize (Hstore) with (2 := I) (st := []).
  assert (Hk2 : ∀ s idx (d : list (string * Z)),
            s ∈ Net.stores → ni !! s = Some idx → True →
            ∃ d', (inflow ← py_for (py_range (length nodes))
                              (λ i acc, x ← mat_get flow i idx; Ok (acc + x)) 0;
                   Ok (odict_set d s inflow)) = Ok d' ∧ True).
  { intros s idx d Hs Hi _.
    rewrite Hlen, (py_for_col_sum n) by
      (done || (exact (present_index _ _ _ _ _ Hsi Hs Hi))
       || (intros i Hin; by apply elem_of_py_range)).
    by eexists. }
  specialize (Hstore Hk2).
  fold (Net.sum_store_inflows flow nodes ni) in Hstore.
  rewrite decide_False in Hstore; [by rewrite Hstore |].
  apply elem_of_app in Hname as [Hname | Hname].
  - exfalso. by apply (missing_name ni Net.terminals name).
  - by apply (missing_name ni Net.stores name).
Qed.

Lemma analyze_network_missing_name_witness :
  Net.analyze_network logistics_capacity logistics_flow logistics_nodes
    (delete "Магазин 14" logistics_indices) []
  = Raise KeyError.
Proof.
  apply (analyze_network_missing_name 20 logistics_capacity logistics_flow
           logistics_nodes (delete "Магазин 14" logistics_indices) "Магазин 14" []);
    [reflexivity | by_decide | by_decide | by_decide | by_decide | by_decide].
Defined.

(** ** The table of flows between terminals and stores *)

(** What a loop preserves whenever it returns. *)
Lemma py_for_post {A S} (P : S → Prop) (l : list A) (body : A → S → res S) :
  (∀ x st st', x ∈ l → P st → body x st = Ok st' → P st') →
  ∀ st st', P st → py_for l body st = Ok st' → P st'.
Proof.
  induction l as [| a l IH]; intros Hbody st st' Hst Hrun.
  - simpl in Hrun. by injection Hrun as <-.
  - rewrite py_for_cons in Hrun. apply bind_Ok_inv in Hrun as (st1 & Ha & Hrun).
    apply (IH (λ x s s' Hx, Hbody x s s' (list_elem_of_further _ _ _ Hx)) st1);
      [| done].
    by apply (Hbody a st); [left | |].
Qed.

Lemma dict_get_Ok {V} (d : gmap string V) (k : string) (v : V) :
  dict_get d k = Ok v → d !! k = Some v.
Proof. unfold dict_get. destruct (d !! k); [by intros [= ->] | done]. Qed.

Section table.
  Variables (flow : Matrix) (ni : gmap string Z).

Local Abbreviation inflows_sound := (inflows_sound flow ni).
Local Abbreviation table_sound := (table_sound flow ni).

Lemma warehouse_inflows_sound wi :
  Net.warehouse_inflows flow ni = Ok wi → inflows_sound wi.
Proof.
  unfold Net.warehouse_inflows.
  apply (py_for_post inflows_sound).
  - intros w wi0 wi1 _ Hwi0 Hrun.
    apply bind_Ok_inv in Hrun as (w_idx & Hw & Hrun). apply dict_get_Ok in Hw.
    revert Hrun. apply (py_for_post inflows_sound).
    + intros t wi2 wi3 _ Hwi2 Hrun.
      apply bind_Ok_inv in Hrun as (t_idx & Ht & Hrun). apply dict_get_Ok in Ht.
      apply bind_Ok_inv in Hrun as (x & Hx & Hrun).
      case_bool_decide as Hpos; [| by injection Hrun as <-].
      rewrite Hx in Hrun. simpl in Hrun.
      apply bind_Ok_inv in Hrun as (inflows & Hget & [= <-]).
      apply odict_get_Ok in Hget.
      intros w' inflows' t' x' Hin Hin'.
      apply elem_of_odict_set in Hin as [[-> ->] | Hin]; [| by eapply Hwi2].
      apply elem_of_odict_set in Hin' as [[-> ->] | Hin']; [| by eapply Hwi2].
      exists t_idx, w_idx. repeat (split; [done |]). lia.
    + intros w' inflows' t' x' Hin Hin'.
      apply elem_of_odict_set in Hin as [[-> ->] | Hin]; [| by eapply Hwi0].
      by apply elem_of_nil in Hin'.
  - intros w inflows t x Hin. by apply elem_of_nil in Hin.
Qed.

Lemma attribute_sound w w_idx s s_idx store_flow total_outflow inflows wi :
  inflows_sound wi → (w, inflows) ∈ wi → w ∈ Net.warehouses →
  ni !! w = Some w_idx → ni !! s = Some s_idx →
  mat_get flow w_idx s_idx = Ok store_flow → 0 < store_flow →
  ∀ items tsf tsf', (∀ item, item ∈ items → item ∈ inflows) →
    table_sound tsf →
    py_for items (Net.attribute s store_flow total_outflow) tsf = Ok tsf' →
    table_sound tsf'.
Proof.
  intros Hwi Hin Hw Hwidx Hsidx Hstore Hpos items tsf tsf' Hitems.
  apply (py_for_post table_sound).
  intros [t terminal_flow] tsf0 tsf1 Hitem [Hkeys Hsound] Hrun.
  unfold Net.attribute in Hrun.
  apply bind_Ok_inv in Hrun as (proportion & _ & Hrun).
  apply bind_Ok_inv in Hrun as (tf & _ & Hrun).
  apply bind_Ok_inv in Hrun as (x & _ & Hrun).
  case_bool_decide as Hx; [| by injection Hrun as <-].
  apply bind_Ok_inv in Hrun as (old & Hold & [= <-]).
  apply odict_get_Ok in Hold. split.
  - rewrite odict_set_keys; [done |].
    apply list_elem_of_fmap. by exists (t, s, old).
  - intros t' s' f' Hin'.
    apply elem_of_odict_set in Hin' as [[[= -> ->] ->] | Hin']; [| by apply Hsound].
    destruct (Hsound t s old Hold) as [Hold0 _]. split; [lia |]. intros _.
    destruct (Hwi w inflows t terminal_flow Hin (Hitems _ Hitem))
      as (t_idx & w_idx' & Ht & Hw' & Hget & Hpos').
    assert (w_idx' = w_idx) as -> by congruence.
    by exists w, t_idx, w_idx, s_idx, terminal_flow, store_flow.
Qed.

Lemma distribute_sound wi tsf tsf' :
  inflows_sound wi → table_sound tsf →
  Net.distribute flow ni wi tsf = Ok tsf' → table_sound tsf'.
Proof.
  intros Hwi. unfold Net.distribute. apply (py_for_post table_sound).
  intros w tsf0 tsf1 Hw Htsf0 Hrun.
  apply bind_Ok_inv in Hrun as (w_idx & Hwidx & Hrun). apply dict_get_Ok in Hwidx.
  apply bind_Ok_inv in Hrun as (total_outflow & _ & Hrun).
  case_bool_decide as Htotal; [| by injection Hrun as <-].
  revert Hrun. apply (py_for_post table_sound); [| done].
  intros s tsf2 tsf3 _ Htsf2 Hrun.
  apply bind_Ok_inv in Hrun as (s_idx & Hsidx & Hrun). apply dict_get_Ok in Hsidx.
  apply bind_Ok_inv in Hrun as (store_flow & Hstore & Hrun).
  case_bool_decide as Hpos; [| by injection Hrun as <-].
  apply bind_Ok_inv in Hrun as (inflows & Hget & Hrun).
  apply odict_get_Ok in Hget.
  eapply (attribute_sound w w_idx s s_idx store_flow total_outflow inflows wi);
    try done. lia.
Qed.

End table.

Lemma zero_flows_sound (flow : Matrix) (ni : gmap string Z) :
  table_sound flow ni Net.zero_flows.
Proof.
  split; [by vm_compute |]. intros t s f Hin.
  assert (Hall : Forall (λ item : string * string * Z, item.2 = 0) Net.zero_flows)
    by by_decide.
  rewrite Forall_forall in Hall. specialize (Hall _ Hin). simpl in Hall. lia.
Qed.

(** X13: whenever [calculate_terminal_to_store_flow] returns, its rows
    are in the order of the pairs (terminal, store), no pair occurs twice,
    every row names a terminal and a store and holds a positive flow, and
    behind every row there is a warehouse with a positive flow-matrix entry
    from that terminal and a positive entry to that store. *)
Theorem terminal_to_store_flows_routed (flow : Matrix) (ni : gmap string Z)
    (results : list (string * string * Z)) :
  Net.calculate_terminal_to_store_flow flow ni = Ok results →
  results.*1 `sublist_of` list_prod Net.terminals Net.stores
  ∧ NoDup results.*1
  ∧ ∀ t s f, (t, s, f) ∈ results →
      t ∈ Net.terminals ∧ s ∈ Net.stores ∧ 0 < f ∧ routed flow ni t s.
Proof.
  unfold Net.calculate_terminal_to_store_flow. intros Hrun.
  apply bind_Ok_inv in Hrun as (wi & Hwi & Hrun).
  apply bind_Ok_inv in Hrun as (tsf & Htsf & [= <-]).
  apply warehouse_inflows_sound in Hwi.
  pose proof (distribute_sound flow ni wi _ _ Hwi (zero_flows_sound flow ni) Htsf)
    as [Hkeys Hsound].
  assert (Hsub : (filter (λ item : string * string * Z, item.2 > 0) tsf).*1
                 `sublist_of` list_prod Net.terminals Net.stores).
  { rewrite <- Hkeys. apply fmap_sublist, sublist_filter. }
  split; [done |]. split.
  - eapply sublist_NoDup; [| done]. by_decide.
  - intros t s f Hin. apply list_elem_of_filter in Hin as [Hpos Hin]. simpl in Hpos.
    destruct (Hsound t s f Hin) as [_ Hroute].
    assert (Hkey : (t, s) ∈ list_prod Net.terminals Net.stores).
    { rewrite <- Hkeys. apply list_elem_of_fmap. by exists (t, s, f). }
    apply list_elem_of_In, in_prod_iff in Hkey as [Ht Hs].
    apply list_elem_of_In in Ht, Hs.
    split; [done |]. split; [done |]. split; [lia |]. apply Hroute. lia.
Qed.

Lemma terminal_to_store_flows_routed_witness :
  Net.calculate_terminal_to_store_flow logistics_flow logistics_indices
  = Ok logistics_table
  ∧ logistics_table.*1 `sublist_of` list_prod Net.terminals Net.stores
  ∧ NoDup logistics_table.*1
  ∧ ∀ t s f, (t, s, f) ∈ logistics_table →
      t ∈ Net.terminals ∧ s ∈ Net.stores ∧ 0 < f
      ∧ routed logistics_flow logistics_indices t s.
Proof.
  split; [vm_compute; reflexivity |].
  apply (terminal_to_store_flows_routed logistics_flow logistics_indices
           logistics_table).
  vm_compute. reflexivity.
Defined.

(** ** The index of node names *)

Lemma index_nodes_snoc (l : list string) (x : string) :
  Net.index_nodes (l ++ [x]) = <[x := Z.of_nat (length l)]> (Net.index_nodes l).
Proof.
  unfold Net.index_nodes, py_range. rewrite length_app. simpl.
  replace (length l + 1)%nat with (S (length l)) by lia.
  rewrite seqZ_S, Z.add_0_l.
  rewrite zip_with_app by (by rewrite length_seqZ, Nat2Z.id).
  by rewrite foldl_app.
Qed.

Lemma index_nodes_lookup (nodes : list string) : ∀ name i,
  Net.index_nodes nodes !! name = Some i
  ↔ 0 ≤ i ∧ nodes !! Z.to_nat i = Some name
    ∧ ∀ j, (Z.to_nat i < j)%nat → nodes !! j ≠ Some name.
Proof.
  induction nodes as [| x l IH] using rev_ind; intros name i.
  - unfold Net.index_nodes. simpl. rewrite lookup_empty. split; [done |].
    by intros (_ & H & _).
  - rewrite index_nodes_snoc. destruct (decide (name = x)) as [-> | Hne].
    + rewrite lookup_insert_eq. split.
      * intros [= <-]. split; [lia |]. rewrite Nat2Z.id. split.
        -- by rewrite lookup_app_r, Nat.sub_diag by lia.
        -- intros j Hj. rewrite lookup_ge_None_2; [done |].
           rewrite length_app. simpl. lia.
      * intros (Hi & Hlook & Hlast).
        destruct (decide (Z.to_nat i = length l)) as [Heq | Hneq]; [f_equal; lia |].
        exfalso. apply lookup_lt_Some in Hlook as Hlt. rewrite length_app in Hlt.
        simpl in Hlt. apply (Hlast (length l)); [lia |].
        by rewrite lookup_app_r, Nat.sub_diag by lia.
    + rewrite lookup_insert_ne by done. rewrite IH. split.
      * intros (Hi & Hlook & Hlast). split; [done |]. split.
        -- by apply lookup_app_l_Some.
        -- intros j Hj Hj'. apply lookup_app_Some in Hj' as [Hj' | [_ Hj']].
           ++ by apply (Hlast j).
           ++ apply list_lookup_singleton_Some in Hj' as [_ Hx]. by subst.
      * intros (Hi & Hlook & Hlast). split; [done |].
        apply lookup_app_Some in Hlook as [Hlook | [_ Hlook]].
        -- split; [done |]. intros j Hj Hj'. apply (Hlast j Hj).
           by apply lookup_app_l_Some.
        -- apply list_lookup_singleton_Some in Hlook as [_ Hx]. by subst.
Qed.

Lemma index_nodes_NoDup (nodes : list string) (name : string) (i : Z) :
  NoDup nodes →
  Net.index_nodes nodes !! name = Some i
  ↔ 0 ≤ i ∧ nodes !! Z.to_nat i = Some name.
Proof.
  intros Hnd. rewrite index_nodes_lookup. split; [by intros (? & ? & _) |].
  intros [Hi Hlook]. split; [done |]. split; [done |]. intros j Hj Hj'.
  pose proof (NoDup_lookup _ _ _ _ Hnd Hlook Hj'). lia.
Qed.

(** X14: the index built from a list of names gives a name the position of
    its last occurrence in the list, and gives nothing to a name that does
    not occur; for a list of distinct names it is the bijection between
    names and positions. *)
Theorem index_nodes_last_position (nodes : list string) (name : string) (i : Z) :
  (Net.index_nodes nodes !! name = Some i
   ↔ 0 ≤ i ∧ nodes !! Z.to_nat i = Some name
     ∧ ∀ j, (Z.to_nat i < j)%nat → nodes !! j ≠ Some name)
  ∧ (NoDup nodes →
     (Net.index_nodes nodes !! name = Some i
      ↔ 0 ≤ i ∧ nodes !! Z.to_nat i = Some name)).
Proof. split; [apply index_nodes_lookup | apply index_nodes_NoDup]. Qed.

Lemma index_nodes_last_position_witness :
  (Net.index_nodes ["a"; "b"; "a"] !! "a" = Some 2
   ↔ 0 ≤ 2 ∧ ["a"; "b"; "a"] !! Z.to_nat 2 = Some "a"
     ∧ ∀ j, (Z.to_nat 2 < j)%nat → ["a"; "b"; "a"] !! j ≠ Some "a")
  ∧ (NoDup ["a"; "b"; "a"] →
     (Net.index_nodes ["a"; "b"; "a"] !! "a" = Some 2
      ↔ 0 ≤ 2 ∧ ["a"; "b"; "a"] !! Z.to_nat 2 = Some "a")).
Proof. apply (index_nodes_last_position ["a"; "b"; "a"] "a" 2). Defined.

(** X15: [build_logistics_network] returns twenty distinct names, the
    bijection between them and their positions, and a 20 by 20 matrix of
    non-negative capacities in which [get_edges_from_matrix] finds exactly
    the twenty declared edges; every terminal, warehouse and store has an
    index of its own. *)
Theorem build_logistics_network_edges :
  ∃ nodes node_indices capacity_matrix edges,
    Net.build_logistics_network = Ok (nodes, node_indices, capacity_matrix)
    ∧ Net.get_edges_from_matrix capacity_matrix nodes = Ok edges
    ∧ length nodes = 20%nat ∧ NoDup nodes
    ∧ (∀ name i, node_indices !! name = Some i
         ↔ 0 ≤ i ∧ nodes !! Z.to_nat i = Some name)
    ∧ square 20 capacity_matrix ∧ nonneg capacity_matrix
    ∧ edges ≡ₚ Net.edges
    ∧ indexed_all node_indices network_names (node 20)
    ∧ NoDup (indices_of node_indices network_names).
Proof.
  exists logistics_nodes, logistics_indices, logistics_capacity.
  eexists. split; [vm_compute; reflexivity |]. split; [vm_compute; reflexivity |].
  split; [done |].
  assert (Hnd : NoDup logistics_nodes) by by_decide.
  split; [done |]. split.
  { intros name i. by apply index_nodes_NoDup. }
  split; [by_decide |]. split; [by_decide |]. split; [| split; by_decide].
  apply (bool_decide_unpack _). vm_compute. exact I.
Qed.

(** ** The extended matrix, entry by entry *)

(** A loop with an invariant that knows the items already handled. *)
Lemma py_for_prefix {A S} (P : list A → S → Prop) (l : list A)
    (body : A → S → res S) :
  (∀ pre x st, x ∈ l → P pre st → ∃ st', body x st = Ok st' ∧ P (pre ++ [x]) st') →
  ∀ st, P [] st → ∃ st', py_for l body st = Ok st' ∧ P l st'.
Proof.
  intros Hbody.
  assert (Hgen : ∀ rest pre st, (∀ x, x ∈ rest → x ∈ l) → P pre st →
            ∃ st', py_for rest body st = Ok st' ∧ P (pre ++ rest) st').
  { induction rest as [| x rest IH]; intros pre st Hin Hst.
    - exists st. by rewrite app_nil_r.
    - rewrite py_for_cons.
      destruct (Hbody pre x st) as (st1 & -> & Hst1); [apply Hin; left | done |].
      step_ok. destruct (IH (pre ++ [x]) st1) as (st' & Hrun & Hst');
        [intros y Hy; apply Hin; by right | done |].
      exists st'. split; [done |]. by rewrite <- app_assoc in Hst'. }
  intros st Hst. by apply (Hgen l [] st).
Qed.

Section wiring_entries.
  Variables (n : nat) (ni : gmap string Z) (cap : Matrix).
  Hypothesis cap_square : square n cap.

Lemma extend_capacity_entries :
  ∃ ext, Task1.extend_capacity n cap = Ok ext ∧ square (n + 2) ext
    ∧ ∀ a b, node (n + 2) a → node (n + 2) b →
        entry ext a b
        = if decide (a < Z.of_nat n ∧ b < Z.of_nat n) then entry cap a b else 0.
Proof.
  unfold Task1.extend_capacity.
  destruct (py_for_prefix
    (λ pre ext, square (n + 2) ext
       ∧ ∀ a b, node (n + 2) a → node (n + 2) b →
           entry ext a b
           = if decide (a ∈ pre ∧ b < Z.of_nat n) then entry cap a b else 0)
    (py_range n)
    (λ i ext, py_for (py_range n)
       (λ j ext, x ← mat_get cap i j; mat_set ext i j x) ext))
    with (st := zero_matrix (n + 2)) as (ext & Hrun & Hsq & Hent).
  - intros pre i ext Hi [Hsq Hent]. apply elem_of_py_range in Hi.
    destruct (py_for_prefix
      (λ prej ext', square (n + 2) ext'
         ∧ ∀ a b, node (n + 2) a → node (n + 2) b →
             entry ext' a b
             = if decide ((a ∈ pre ∧ b < Z.of_nat n) ∨ (a = i ∧ b ∈ prej))
               then entry cap a b else 0)
      (py_range n) (λ j ext', x ← mat_get cap i j; mat_set ext' i j x))
      with (st := ext) as (ext' & Hrun' & Hsq' & Hent').
    + intros prej j ext' Hj [Hsq' Hent']. apply elem_of_py_range in Hj.
      rewrite (mat_get_ok n) by done. step_ok.
      rewrite (mat_set_ok (n + 2)) by (done || lia).
      eexists. split; [done |]. split; [by apply square_mat_upd |].
      intros a b Ha Hb. unfold node in Ha, Hb.
      rewrite (entry_mat_upd (n + 2)) by (done || lia).
      rewrite Hent' by done.
      destruct (decide (a = i ∧ b = j)) as [[-> ->] | Hne].
      * rewrite decide_True; [done |]. right. split; [done |].
        apply elem_of_app. right. left.
      * apply decide_ext. rewrite elem_of_app, list_elem_of_singleton. tauto.
    + split; [done |]. intros a b Ha Hb. rewrite Hent by done.
      apply decide_ext. rewrite elem_of_nil. tauto.
    + exists ext'. split; [done |]. split; [done |].
      intros a b Ha Hb. rewrite Hent' by done. unfold node in Hb.
      apply decide_ext. rewrite elem_of_app, list_elem_of_singleton, elem_of_py_range.
      split; [| tauto]. intros [[? ?] | [-> ?]]; [tauto |]. split; [by right | lia].
  - split; [apply square_zero_matrix |]. intros a b Ha Hb.
    rewrite entry_zero_matrix by done. rewrite decide_False; [done |].
    rewrite elem_of_nil. tauto.
  - exists ext. split; [done |]. split; [done |]. intros a b Ha Hb.
    rewrite Hent by done. unfold node in Ha.
    apply decide_ext. rewrite elem_of_py_range. lia.
Qed.

Lemma connect_super_source_entries (names : list string) (e0 : Matrix) :
  square (n + 2) e0 → indexed_all ni names (node n) →
  ∃ e, py_for names (λ t e, t_idx ← dict_get ni t; mat_set e (Z.of_nat n) t_idx 100) e0
       = Ok e
    ∧ square (n + 2) e
    ∧ ∀ a b, node (n + 2) a → node (n + 2) b →
        entry e a b
        = if decide (a = Z.of_nat n ∧ b ∈ indices_of ni names) then 100
          else entry e0 a b.
Proof.
  intros He0 Hidx.
  destruct (py_for_prefix
    (λ pre e, square (n + 2) e
       ∧ ∀ a b, node (n + 2) a → node (n + 2) b →
           entry e a b
           = if decide (a = Z.of_nat n ∧ b ∈ indices_of ni pre) then 100
             else entry e0 a b)
    names (λ t e, t_idx ← dict_get ni t; mat_set e (Z.of_nat n) t_idx 100))
    with (st := e0) as (e & Hrun & Hsq & Hent); [| | by exists e].
  - intros pre x e Hx [Hsq Hent].
    destruct (indexed_all_get _ _ _ _ Hidx Hx) as (idx & _ & -> & Hio & Hnode).
    step_ok. unfold node in Hnode.
    rewrite (mat_set_ok (n + 2)) by (done || lia).
    eexists. split; [done |]. split; [by apply square_mat_upd |].
    intros a b Ha Hb. unfold node in Ha, Hb.
    rewrite (entry_mat_upd (n + 2)) by (done || lia). rewrite Hent by done.
    unfold indices_of. rewrite fmap_app. simpl. rewrite Hio.
    destruct (decide (a = Z.of_nat n ∧ b = idx)) as [[-> ->] | Hne].
    + rewrite decide_True; [done |]. split; [done |]. apply elem_of_app. right. left.
    + apply decide_ext. rewrite elem_of_app, list_elem_of_singleton. tauto.
  - split; [done |]. intros a b Ha Hb. rewrite decide_False; [done |].
    unfold indices_of. simpl. rewrite elem_of_nil. tauto.
Qed.

Lemma connect_super_sink_entries (names : list string) (e0 : Matrix) :
  square (n + 2) e0 → indexed_all ni names (node n) →
  ∃ e, py_for names (λ s e, s_idx ← dict_get ni s; mat_set e s_idx (Z.of_nat n + 1) 100) e0
       = Ok e
    ∧ square (n + 2) e
    ∧ ∀ a b, node (n + 2) a → node (n + 2) b →
        entry e a b
        = if decide (b = Z.of_nat n + 1 ∧ a ∈ indices_of ni names) then 100
          else entry e0 a b.
Proof.
  intros He0 Hidx.
  destruct (py_for_prefix
    (λ pre e, square (n + 2) e
       ∧ ∀ a b, node (n + 2) a → node (n + 2) b →
           entry e a b
           = if decide (b = Z.of_nat n + 1 ∧ a ∈ indices_of ni pre) then 100
             else entry e0 a b)
    names (λ s e, s_idx ← dict_get ni s; mat_set e s_idx (Z.of_nat n + 1) 100))
    with (st := e0) as (e & Hrun & Hsq & Hent); [| | by exists e].
  - intros pre x e Hx [Hsq Hent].
    destruct (indexed_all_get _ _ _ _ Hidx Hx) as (idx & _ & -> & Hio & Hnode).
    step_ok. unfold node in Hnode.
    rewrite (mat_set_ok (n + 2)) by (done || lia).
    eexists. split; [done |]. split; [by apply square_mat_upd |].
    intros a b Ha Hb. unfold node in Ha, Hb.
    rewrite (entry_mat_upd (n + 2)) by (done || lia). rewrite Hent by done.
    unfold indices_of. rewrite fmap_app. simpl. rewrite Hio.
    destruct (decide (a = idx ∧ b = Z.of_nat n + 1)) as [[-> ->] | Hne].
    + rewrite decide_True; [done |]. split; [done |]. apply elem_of_app. right. left.
    + apply decide_ext. rewrite elem_of_app, list_elem_of_singleton. tauto.
  - split; [done |]. intros a b Ha Hb. rewrite decide_False; [done |].
    unfold indices_of. simpl. rewrite elem_of_nil. tauto.
Qed.

Lemma augment_wired (nodes : list string) :
  length nodes = n → indexed_all ni (Net.terminals ++ Net.stores) (node n) →
  ∃ ext, Task1.augment nodes ni cap = Ok (ext, Z.of_nat n, Z.of_nat n + 1)
    ∧ square (n + 2) ext
    ∧ ∀ a b, node (n + 2) a → node (n + 2) b → entry ext a b = wired_entry n ni cap a b.
Proof.
  intros Hlen Hidx. apply Forall_app in Hidx as [Hti Hsi].
  unfold Task1.augment. rewrite Hlen.
  destruct extend_capacity_entries as (e0 & -> & He0 & Hent0). step_ok.
  unfold Task1.connect_super_source, Task1.connect_super_sink.
  destruct (connect_super_source_entries Net.terminals e0 He0 Hti)
    as (e1 & -> & He1 & Hent1). step_ok.
  destruct (connect_super_sink_entries Net.stores e1 He1 Hsi)
    as (e2 & -> & He2 & Hent2). step_ok.
  exists e2. split; [done |]. split; [done |]. intros a b Ha Hb.
  rewrite Hent2, Hent1, Hent0 by done. done.
Qed.

End wiring_entries.

(** X16: when [node_indices] lacks the name of a terminal or of a store,
    and gives the terminals and stores it does hold indices inside the
    extended matrix, the wiring of [main] raises [KeyError] before any
    solving. *)
Theorem augment_missing_name (nodes : list string) (ni : gmap string Z)
    (cap : Matrix) (name : string) :
  square (length nodes) cap →
  indexed_present ni (Net.terminals ++ Net.stores) (in_py_range (length nodes + 2)) →
  name ∈ Net.terminals ++ Net.stores → ni !! name = None →
  Task1.augment nodes ni cap = Raise KeyError.
Proof.
  intros Hsq Hidx Hname Hnone. apply Forall_app in Hidx as [Hti Hsi].
  set (n := length nodes) in *. unfold Task1.augment. fold n.
  destruct (extend_capacity_ok n cap Hsq) as (ext0 & -> & Hext0). step_ok.
  pose proof (py_for_lookup (square (n + 2)) ni Net.terminals
                (λ _ t_idx e, mat_set e (Z.of_nat n) t_idx 100)) as Hsrc.
  cbv beta in Hsrc. specialize (Hsrc) with (2 := Hext0).
  fold (Task1.connect_super_source ni (Z.of_nat n) ext0) in Hsrc.
  assert (Hk1 : ∀ t idx e, t ∈ Net.terminals → ni !! t = Some idx → square (n + 2) e →
            ∃ e', mat_set e (Z.of_nat n) idx 100 = Ok e' ∧ square (n + 2) e').
  { intros t idx e Ht Hi He. apply mat_set_in; [done | |].
    - unfold in_py_range. lia.
    - exact (present_index _ _ _ _ _ Hti Ht Hi). }
  specialize (Hsrc Hk1).
  destruct (decide (Forall (λ name, is_Some (ni !! name)) Net.terminals))
    as [Hall | Hnot]; [| by rewrite Hsrc].
  destruct Hsrc as (ext1 & -> & Hext1). step_ok.
  pose proof (py_for_lookup (square (n + 2)) ni Net.stores
                (λ _ s_idx e, mat_set e s_idx (Z.of_nat n + 1) 100)) as Hsnk.
  cbv beta in Hsnk. specialize (Hsnk) with (2 := Hext1).
  fold (Task1.connect_super_sink ni (Z.of_nat n + 1) ext1) in Hsnk.
  assert (Hk2 : ∀ s idx e, s ∈ Net.stores → ni !! s = Some idx → square (n + 2) e →
            ∃ e', mat_set e idx (Z.of_nat n + 1) 100 = Ok e' ∧ square (n + 2) e').
  { intros s idx e Hs Hi He. apply mat_set_in; [done | |].
    - exact (present_index _ _ _ _ _ Hsi Hs Hi).
    - unfold in_py_range. lia. }
  specialize (Hsnk Hk2).
  rewrite decide_False in Hsnk; [by rewrite Hsnk |].
  apply elem_of_app in Hname as [Hname | Hname].
  - exfalso. by apply (missing_name ni Net.terminals name).
  - by apply (missing_name ni Net.stores name).
Qed.

Lemma augment_missing_name_witness :
  Task1.augment logistics_nodes (delete "Термінал 2" logistics_indices)
    logistics_capacity
  = Raise KeyError.
Proof.
  apply (augment_missing_name logistics_nodes (delete "Термінал 2" logistics_indices)
           logistics_capacity "Термінал 2");
    [by_decide | by_decide | by_decide | by_decide].
Defined.

(** ** The solved network, as [analyze_network] reports it *)

Lemma nonneg_from_entries (N : nat) (m : Matrix) :
  square N m → (∀ a b, node N a → node N b → 0 ≤ entry m a b) → nonneg m.
Proof.
  intros [Hlen Hrows] H. unfold nonneg. rewrite Forall_forall in Hrows.
  apply Forall_lookup. intros i row Hrow. apply Forall_lookup. intros j x Hx.
  assert (Hrl : length row = N) by (eapply Hrows, list_elem_of_lookup_2; done).
  apply lookup_lt_Some in Hrow as Hi. apply lookup_lt_Some in Hx as Hj.
  specialize (H (Z.of_nat i) (Z.of_nat j)). unfold entry, nthZ, node in H.
  rewrite !Nat2Z.id, Hrow in H. simpl in H. rewrite Hx in H. simpl in H.
  apply H; lia.
Qed.

Lemma square_trim (n N : nat) (g : Matrix) :
  square N g → (n ≤ N)%nat → square n (Task1.trim n g).
Proof.
  intros [Hlen Hrows] Hle. unfold Task1.trim. split.
  - rewrite length_fmap, length_take. lia.
  - apply Forall_fmap, Forall_take. eapply Forall_impl; [done |].
    intros row Hrow. simpl in *. rewrite length_take, Hrow. lia.
Qed.

Lemma entry_trim (n N : nat) (g : Matrix) (a b : Z) :
  square N g → (n ≤ N)%nat → node n a → node n b →
  entry (Task1.trim n g) a b = entry g a b.
Proof.
  intros [Hlen Hrows] Hle Ha Hb. unfold Task1.trim, entry, nthZ, node in *.
  rewrite list_lookup_fmap, lookup_take_lt by lia.
  destruct (g !! Z.to_nat a) as [row |]; simpl; [| done].
  by rewrite lookup_take_lt by lia.
Qed.

Lemma sum_over_app (l1 l2 : list Z) (f : Z → Z) :
  sum_over (l1 ++ l2) f = sum_over l1 f + sum_over l2 f.
Proof. induction l1 as [| a l1 IH]; simpl; lia. Qed.

Lemma sum_over_perm (l1 l2 : list Z) (f : Z → Z) :
  l1 ≡ₚ l2 → sum_over l1 f = sum_over l2 f.
Proof. induction 1; simpl; lia. Qed.

Lemma sum_over_py_range_2 (n : nat) (f : Z → Z) :
  sum_over (py_range (n + 2)) f
  = sum_over (py_range n) f + f (Z.of_nat n) + f (Z.of_nat n + 1).
Proof.
  unfold py_range. replace (n + 2)%nat with (S (S n)) by lia.
  rewrite !seqZ_S, !sum_over_app. simpl sum_over.
  replace (0 + Z.of_nat (S n)) with (Z.of_nat n + 1) by lia.
  rewrite Z.add_0_l. lia.
Qed.

(** A sum whose terms vanish outside the distinct items of [T]. *)
Lemma sum_over_support (l T : list Z) (f : Z → Z) :
  NoDup l → NoDup T → (∀ x, x ∈ T → x ∈ l) → (∀ x, x ∈ l → x ∉ T → f x = 0) →
  sum_over l f = sum_over T f.
Proof.
  intros Hl HT Hsub Hzero.
  destruct (submseteq_Permutation T l) as [k Hk]; [by apply NoDup_submseteq |].
  rewrite (sum_over_perm _ _ f Hk), sum_over_app.
  rewrite (sum_over_zero k); [lia |]. intros x Hx.
  rewrite Hk in Hl. apply NoDup_app in Hl as (_ & Hdisj & _).
  apply Hzero.
  - rewrite Hk. apply elem_of_app. by right.
  - intros HxT. by apply (Hdisj x).
Qed.

Lemma dict_total_perm (d1 d2 : list (string * Z)) :
  d1 ≡ₚ d2 → dict_total d1 = dict_total d2.
Proof. induction 1 as [| [k v] | [k1 v1] [k2 v2] |]; simpl in *; lia. Qed.

Lemma dict_total_indices (ni : gmap string Z) (names : list string) (f : Z → Z) :
  dict_total ((λ name, (name, f (index_of ni name))) <$> names)
  = sum_over (indices_of ni names) f.
Proof.
  induction names as [| a names IH]; [done |].
  unfold indices_of in *. rewrite !fmap_cons. simpl. by rewrite IH.
Qed.

Lemma utilization_percent_zero (total : Z) : Net.utilization_percent 0 total = Ok 0.
Proof.
  unfold Net.utilization_percent. case_bool_decide as Hpos; [| done].
  unfold Float.true_div. rewrite bool_decide_eq_false_2 by lia.
  destruct total as [| p | p]; [lia | | lia]. reflexivity.
Qed.

Lemma indices_node (n : nat) (ni : gmap string Z) (names : list string) (x : Z) :
  indexed_all ni names (node n) → x ∈ indices_of ni names → node n x.
Proof.
  intros Hidx Hx. apply list_elem_of_fmap in Hx as (name & -> & Hname).
  by destruct (indexed_all_get _ _ _ _ Hidx Hname) as (idx & _ & _ & -> & Hnode).
Qed.

Lemma col_sum_antisym (n : nat) (cap : Matrix) (s t : Z) (st : EK.state) (v : Z) :
  flow_inv n cap s t st → node n v →
  col_sum n (EK.flow_matrix st) v = - row_sum n (EK.flow_matrix st) v.
Proof.
  intros Hinv Hv. unfold col_sum, row_sum. rewrite <- sum_over_opp.
  apply sum_over_ext. intros i Hi. apply elem_of_py_range in Hi.
  by apply (fi_antisym _ _ _ _ _ Hinv).
Qed.

Section solved_network.
  Variables (n : nat) (nodes : list string) (ni : gmap string Z) (cap : Matrix).
  Hypothesis nodes_length : length nodes = n.
  Hypothesis cap_square : square n cap.
  Hypothesis cap_nonneg : nonneg cap.
  Hypothesis names_indexed : indexed_all ni network_names (node n).
  Hypothesis names_apart : NoDup (indices_of ni network_names).

Local Abbreviation terminal_ids := (indices_of ni Net.terminals).
Local Abbreviation warehouse_ids := (indices_of ni Net.warehouses).
Local Abbreviation store_ids := (indices_of ni Net.stores).
Local Abbreviation src := (Z.of_nat n).
Local Abbreviation snk := (Z.of_nat n + 1).
Local Abbreviation wired := (wired_entry n ni cap).

Lemma names_split :
  indexed_all ni Net.terminals (node n) ∧ indexed_all ni Net.warehouses (node n)
  ∧ indexed_all ni Net.stores (node n).
Proof.
  unfold indexed_all, network_names in *.
  apply Forall_app in names_indexed as [Ht Hws].
  by apply Forall_app in Hws as [Hw Hs].
Qed.

Lemma ids_apart :
  NoDup terminal_ids ∧ NoDup warehouse_ids ∧ NoDup store_ids
  ∧ (∀ x, x ∈ terminal_ids → (x ∉ warehouse_ids) ∧ (x ∉ store_ids))
  ∧ (∀ x, x ∈ warehouse_ids → x ∉ store_ids).
Proof.
  unfold indices_of, network_names in *. rewrite !fmap_app in names_apart.
  apply NoDup_app in names_apart as (Ht & Hdisj & Hws).
  apply NoDup_app in Hws as (Hw & Hdisj' & Hs).
  split; [done |]. split; [done |]. split; [done |]. split.
  - intros x Hx. pose proof (Hdisj x Hx) as Hnot.
    rewrite elem_of_app in Hnot. tauto.
  - intros x Hx. by apply Hdisj'.
Qed.

Lemma terminal_node x : x ∈ terminal_ids → node n x.
Proof. apply indices_node, names_split. Qed.
Lemma warehouse_node x : x ∈ warehouse_ids → node n x.
Proof. apply indices_node, names_split. Qed.
Lemma store_node x : x ∈ store_ids → node n x.
Proof. apply indices_node, names_split. Qed.

Lemma wired_original a b : node n a → node n b → wired a b = entry cap a b.
Proof.
  intros Ha Hb. unfold wired_entry, node in *.
  rewrite decide_False by lia. rewrite decide_False by lia.
  by rewrite decide_True by lia.
Qed.

Lemma wired_from_source b :
  node (n + 2) b → wired src b = if decide (b ∈ terminal_ids) then 100 else 0.
Proof.
  intros Hb. unfold wired_entry.
  rewrite decide_False.
  2: { intros [_ Hin]. apply store_node in Hin. unfold node in Hin. lia. }
  destruct (decide (b ∈ terminal_ids)) as [Hin | Hnot].
  - by rewrite decide_True by done.
  - rewrite decide_False by tauto. by rewrite decide_False by lia.
Qed.

Lemma wired_into_source a : node (n + 2) a → wired a src = 0.
Proof.
  intros Ha. unfold wired_entry.
  rewrite decide_False by lia.
  rewrite decide_False.
  2: { intros [_ Hin]. apply terminal_node in Hin. unfold node in Hin. lia. }
  by rewrite decide_False by lia.
Qed.

Lemma wired_into_sink a :
  node (n + 2) a → wired a snk = if decide (a ∈ store_ids) then 100 else 0.
Proof.
  intros Ha. unfold wired_entry.
  destruct (decide (a ∈ store_ids)) as [Hin | Hnot].
  - by rewrite decide_True by done.
  - rewrite decide_False by tauto.
    rewrite decide_False.
    2: { intros [_ Hin]. apply terminal_node in Hin. unfold node in Hin. lia. }
    by rewrite decide_False by lia.
Qed.

Lemma wired_from_sink b : node (n + 2) b → wired snk b = 0.
Proof.
  intros Hb. unfold wired_entry.
  rewrite decide_False.
  2: { intros [_ Hin]. apply store_node in Hin. unfold node in Hin. lia. }
  rewrite decide_False by lia. by rewrite decide_False by lia.
Qed.

Lemma wired_nonneg a b : node (n + 2) a → node (n + 2) b → 0 ≤ wired a b.
Proof.
  intros Ha Hb. unfold wired_entry. repeat case_decide; try lia.
  apply (nonneg_entry n); unfold node in *; (done || lia).
Qed.

Section with_solution.
  Variables (ext : Matrix) (st : EK.state).
  Hypothesis ext_square : square (n + 2) ext.
  Hypothesis ext_entries :
    ∀ a b, node (n + 2) a → node (n + 2) b → entry ext a b = wired a b.
  Hypothesis inv : flow_inv (n + 2) ext src snk st.

Local Abbreviation g := (EK.flow_matrix st).

Lemma wide a : node n a → node (n + 2) a.
Proof. unfold node. lia. Qed.

Lemma src_wide : node (n + 2) src.
Proof. unfold node. lia. Qed.

Lemma snk_wide : node (n + 2) snk.
Proof. unfold node. lia. Qed.

Lemma ext_valid : valid_input (n + 2) ext src snk.
Proof.
  split; [done |]. split.
  - apply (nonneg_from_entries (n + 2)); [done |]. intros a b Ha Hb.
    rewrite ext_entries by done. by apply wired_nonneg.
  - split; [apply src_wide |]. split; [apply snk_wide | lia].
Qed.

(** No flow where the extended matrix has no edge in either direction. *)
Lemma zero_edge a b :
  node (n + 2) a → node (n + 2) b → wired a b = 0 → wired b a = 0 → entry g a b = 0.
Proof.
  intros Ha Hb Hab Hba.
  pose proof (fi_bounded _ _ _ _ _ inv a b Ha Hb) as H1.
  pose proof (fi_bounded _ _ _ _ _ inv b a Hb Ha) as H2.
  pose proof (fi_antisym _ _ _ _ _ inv a b Ha Hb) as H3.
  rewrite ext_entries in H1, H2 by done. lia.
Qed.

Lemma no_flow_from_source b :
  node (n + 2) b → b ∉ terminal_ids → entry g src b = 0 ∧ entry g b src = 0.
Proof.
  intros Hb Hnot.
  assert (H1 : wired src b = 0) by (rewrite wired_from_source, decide_False; done).
  assert (H2 : wired b src = 0) by by apply wired_into_source.
  split; apply zero_edge; done || apply src_wide.
Qed.

Lemma no_flow_into_sink a :
  node (n + 2) a → a ∉ store_ids → entry g a snk = 0 ∧ entry g snk a = 0.
Proof.
  intros Ha Hnot.
  assert (H1 : wired a snk = 0) by (rewrite wired_into_sink, decide_False; done).
  assert (H2 : wired snk a = 0) by by apply wired_from_sink.
  split; apply zero_edge; done || apply snk_wide.
Qed.

Local Abbreviation trimmed := (Task1.trim n g).

Lemma trimmed_square : square n trimmed.
Proof. apply (square_trim n (n + 2)); [apply inv | lia]. Qed.

Lemma trimmed_row v :
  node n v →
  row_sum n trimmed v = row_sum (n + 2) g v - entry g v src - entry g v snk.
Proof.
  intros Hv. unfold row_sum. rewrite sum_over_py_range_2.
  rewrite (sum_over_ext (py_range n) (entry trimmed v) (entry g v)); [lia |].
  intros j Hj. apply elem_of_py_range in Hj.
  apply (entry_trim n (n + 2)); [apply inv | lia | done | done].
Qed.

Lemma trimmed_col v :
  node n v →
  col_sum n trimmed v = col_sum (n + 2) g v - entry g src v - entry g snk v.
Proof.
  intros Hv. unfold col_sum. rewrite sum_over_py_range_2.
  rewrite (sum_over_ext (py_range n) (λ i, entry trimmed i v) (λ i, entry g i v));
    [lia |].
  intros i Hi. apply elem_of_py_range in Hi.
  apply (entry_trim n (n + 2)); [apply inv | lia | done | done].
Qed.

Lemma inner_conserved v : node n v → row_sum (n + 2) g v = 0 ∧ col_sum (n + 2) g v = 0.
Proof.
  intros Hv.
  assert (Hrow : row_sum (n + 2) g v = 0).
  { apply (fi_conserve _ _ _ _ _ inv); [by apply wide | |]; unfold node in Hv; lia. }
  split; [done |]. rewrite (col_sum_antisym _ _ _ _ _ _ inv) by (by apply wide). lia.
Qed.

(** What a terminal sends into the network is what the super-source sends
    it ... *)
Lemma terminal_outflow t :
  t ∈ terminal_ids → row_sum n trimmed t = entry g src t.
Proof.
  intros Ht. pose proof (terminal_node t Ht) as Hnode.
  destruct ids_apart as (_ & _ & _ & Hts & _).
  destruct (no_flow_into_sink t) as [Hz _]; [by apply wide | by apply Hts |].
  rewrite trimmed_row by done. destruct (inner_conserved t Hnode) as [-> _].
  pose proof (fi_antisym _ _ _ _ _ inv t src (wide t Hnode) src_wide). lia.
Qed.

(** ... and what a store receives is what it passes to the super-sink. *)
Lemma store_inflow s :
  s ∈ store_ids → col_sum n trimmed s = entry g s snk.
Proof.
  intros Hs. pose proof (store_node s Hs) as Hnode.
  destruct ids_apart as (_ & _ & _ & Hts & _).
  destruct (no_flow_from_source s) as [Hz _]; [by apply wide | |].
  { intros Hin. by destruct (Hts s Hin). }
  rewrite trimmed_col by done. destruct (inner_conserved s Hnode) as [_ ->].
  pose proof (fi_antisym _ _ _ _ _ inv s snk (wide s Hnode) snk_wide). lia.
Qed.

(** A hub neither keeps nor creates flow: its signed row and column cancel. *)
Lemma hub_balance w :
  w ∈ warehouse_ids →
  sum_others n w (λ i, entry trimmed i w) = 0 ∧ sum_others n w (entry trimmed w) = 0.
Proof.
  intros Hw. pose proof (warehouse_node w Hw) as Hnode.
  destruct ids_apart as (_ & _ & _ & Hts & Hws).
  assert (HwT : w ∉ terminal_ids) by (intros Hin; by destruct (Hts w Hin)).
  assert (HwS : w ∉ store_ids) by by apply Hws.
  destruct (no_flow_from_source w (wide w Hnode) HwT) as [H1 H2].
  destruct (no_flow_into_sink w (wide w Hnode) HwS) as [H3 H4].
  destruct (inner_conserved w Hnode) as [Hrow Hcol].
  pose proof (trimmed_row w Hnode) as Hr. pose proof (trimmed_col w Hnode) as Hc.
  pose proof (sum_others_split n w (λ i, entry trimmed i w) Hnode) as Hsc.
  pose proof (sum_others_split n w (entry trimmed w) Hnode) as Hsr.
  fold (col_sum n trimmed w) in Hsc. fold (row_sum n trimmed w) in Hsr.
  assert (Hww : entry trimmed w w = 0).
  { rewrite (entry_trim n (n + 2)) by (apply inv || lia || done).
    pose proof (fi_antisym _ _ _ _ _ inv w w (wide w Hnode) (wide w Hnode)). lia. }
  cbv beta in Hsc. lia.
Qed.

Lemma outflows_total :
  sum_over terminal_ids (λ t, row_sum n trimmed t) = EK.max_flow st.
Proof.
  rewrite (sum_over_ext _ _ (entry g src)) by (intros t Ht; by apply terminal_outflow).
  rewrite <- (fi_value _ _ _ _ _ inv). unfold row_sum. symmetry.
  destruct ids_apart as (HT & _).
  apply sum_over_support; [apply NoDup_py_range | done | |].
  - intros x Hx. apply elem_of_py_range. by apply wide, terminal_node.
  - intros x Hx Hnot. apply elem_of_py_range in Hx.
    by destruct (no_flow_from_source x Hx Hnot).
Qed.

Lemma inflows_total :
  sum_over store_ids (λ s, col_sum n trimmed s) = EK.max_flow st.
Proof.
  rewrite (sum_over_ext _ _ (λ s, entry g s snk)) by (intros s Hs; by apply store_inflow).
  rewrite <- (value_at_sink (n + 2) ext src snk st ext_valid inv).
  unfold col_sum. symmetry.
  destruct ids_apart as (_ & _ & HS & _).
  apply sum_over_support; [apply NoDup_py_range | done | |].
  - intros x Hx. apply elem_of_py_range. by apply wide, store_node.
  - intros x Hx Hnot. apply elem_of_py_range in Hx.
    by destruct (no_flow_into_sink x Hx Hnot).
Qed.

Lemma hub_record w :
  w ∈ warehouse_ids →
  Net.warehouse_record cap trimmed n w
  = Ok (Net.Utilization 0 0 (sum_others n w (λ i, entry cap i w))
          (sum_others n w (entry cap w)) 0 0).
Proof.
  intros Hw.
  rewrite (warehouse_record_spec n cap trimmed cap_square trimmed_square w
             (warehouse_node w Hw)).
  destruct (hub_balance w Hw) as [-> ->]. by rewrite !utilization_percent_zero.
Qed.

Lemma hub_records :
  ∃ records,
    Net.warehouse_utilization cap trimmed nodes ni = Ok records
    ∧ ∀ name, name ∈ Net.warehouses →
        records !! name
        = Some (Net.Utilization 0 0
                  (sum_others n (index_of ni name) (λ i, entry cap i (index_of ni name)))
                  (sum_others n (index_of ni name) (entry cap (index_of ni name)))
                  0 0).
Proof.
  destruct names_split as (_ & Hwi & _).
  unfold Net.warehouse_utilization. rewrite nodes_length.
  match goal with
  | |- ∃ records, py_for _ ?body _ = _ ∧ _ =>
      destruct (py_for_inv (λ _, True) Net.warehouses body) with (st := (∅ : gmap string Net.utilization))
        as (records & Hrun & _); [| done |]
  end.
  - intros name m Hname _.
    destruct (indexed_all_get _ _ _ _ Hwi Hname) as (idx & _ & -> & Hio & _). step_ok.
    rewrite hub_record.
    + step_ok. by eexists.
    + rewrite <- Hio. apply list_elem_of_fmap. by exists name.
  - exists records. split; [done |]. intros name Hname.
    assert (Hnd : NoDup Net.warehouses) by by_decide.
    destruct (warehouse_loop_lookup _ _ _ _ _ _ _ Hnd Hrun) as [Hin _].
    destruct (Hin name Hname) as (w & r & Hw & Hrec & ->).
    destruct (indexed_all_get _ _ _ _ Hwi Hname) as (idx & Hidx & _ & Hio & _).
    assert (w = idx) as -> by congruence. rewrite Hio.
    rewrite hub_record in Hrec.
    + by injection Hrec as <-.
    + rewrite <- Hio. apply list_elem_of_fmap. by exists name.
Qed.

(** [analyze_network] on the trimmed flow matrix of the solved network. *)
Lemma solved_analysis (hist : list EK.path_record) :
  ∃ a, Net.analyze_network cap trimmed nodes ni hist = Ok a
    ∧ Net.paths a = hist
    ∧ Net.terminal_outflows a
      = (λ t, (t, entry g src (index_of ni t))) <$> Net.terminals
    ∧ Net.store_inflows a
      ≡ₚ (λ s, (s, entry g (index_of ni s) snk)) <$> Net.stores
    ∧ dict_total (Net.terminal_outflows a) = EK.max_flow st
    ∧ dict_total (Net.store_inflows a) = EK.max_flow st
    ∧ ∀ name, name ∈ Net.warehouses →
        ∃ r, Net.warehouse_records a !! name = Some r
          ∧ Net.inflow r = 0 ∧ Net.outflow r = 0
          ∧ Net.in_utilization r = 0 ∧ Net.out_utilization r = 0.
Proof.
  destruct names_split as (Hti & Hwi & Hsi).
  assert (Hidx : indexed_all ni (Net.terminals ++ Net.stores) (node n))
    by (unfold indexed_all in *; by apply Forall_app).
  pose proof (analyze_network_run n cap trimmed nodes ni hist nodes_length cap_square
                trimmed_square Hidx) as Hrun.
  destruct hub_records as (records & Hrec & Hlook).
  rewrite Hrec in Hrun. eexists. split; [exact Hrun |].
  cbn [Net.paths Net.terminal_outflows Net.store_inflows Net.warehouse_records].
  split; [done |].
  set (o := (λ t, (t, row_sum n trimmed (index_of ni t))) <$> Net.terminals).
  set (raw := (λ s, (s, col_sum n trimmed (index_of ni s))) <$> Net.stores).
  set (i := py_sorted snd raw).
  assert (Ho : o = (λ t, (t, row_sum n trimmed (index_of ni t))) <$> Net.terminals)
    by done.
  assert (Hi : i ≡ₚ raw) by apply py_sorted_perm. unfold raw in Hi.
  assert (Hout : o = (λ t, (t, entry g src (index_of ni t))) <$> Net.terminals).
  { rewrite Ho. apply list_fmap_ext. intros k t Ht. f_equal.
    apply terminal_outflow, list_elem_of_fmap. exists t. split; [done |].
    by eapply list_elem_of_lookup_2. }
  assert (Hin : (λ s, (s, col_sum n trimmed (index_of ni s))) <$> Net.stores
                = (λ s, (s, entry g (index_of ni s) snk)) <$> Net.stores).
  { apply list_fmap_ext. intros k s Hs. f_equal.
    apply store_inflow, list_elem_of_fmap. exists s. split; [done |].
    by eapply list_elem_of_lookup_2. }
  split; [done |]. split; [by rewrite Hi, Hin |]. split; [| split].
  - rewrite Ho, (dict_total_indices ni Net.terminals (row_sum n trimmed)).
    apply outflows_total.
  - rewrite (dict_total_perm _ _ Hi),
      (dict_total_indices ni Net.stores (col_sum n trimmed)).
    apply inflows_total.
  - intros name Hname. eexists. split; [by apply Hlook |]. done.
Qed.

End with_solution.

End solved_network.

(** X17: for every [N] by [N] capacity matrix and every index that gives
    the terminals and stores nodes of the original network, the wiring of
    [main] returns the [N+2] by [N+2] matrix whose entries are: the original
    entry inside the original block, 100 from the super-source [N] to every
    terminal and from every store to the super-sink [N+1], and 0 everywhere
    else. *)
Theorem augment_extended_entries (nodes : list string) (ni : gmap string Z)
    (cap : Matrix) :
  square (length nodes) cap →
  indexed_all ni (Net.terminals ++ Net.stores) (node (length nodes)) →
  ∃ ext,
    Task1.augment nodes ni cap
    = Ok (ext, Z.of_nat (length nodes), Z.of_nat (length nodes) + 1)
    ∧ square (length nodes + 2) ext
    ∧ (∀ a b, node (length nodes + 2) a → node (length nodes + 2) b →
         entry ext a b = wired_entry (length nodes) ni cap a b)
    ∧ (∀ a b, node (length nodes) a → node (length nodes) b →
         entry ext a b = entry cap a b).
Proof.
  intros Hsq Hidx.
  destruct (augment_wired (length nodes) ni cap Hsq nodes eq_refl Hidx)
    as (ext & Hrun & Hext & Hent).
  exists ext. split; [done |]. split; [done |]. split; [done |].
  intros a b Ha Hb. rewrite Hent by (unfold node in *; lia).
  unfold wired_entry, node in *. apply Forall_app in Hidx as [Hti Hsi].
  rewrite decide_False by lia. rewrite decide_False by lia.
  by rewrite decide_True by lia.
Qed.

Lemma augment_extended_entries_witness :
  ∃ ext,
    Task1.augment logistics_nodes logistics_indices logistics_capacity
    = Ok (ext, Z.of_nat (length logistics_nodes), Z.of_nat (length logistics_nodes) + 1)
    ∧ square (length logistics_nodes + 2) ext
    ∧ (∀ a b, node (length logistics_nodes + 2) a → node (length logistics_nodes + 2) b →
         entry ext a b = wired_entry (length logistics_nodes) logistics_indices
                           logistics_capacity a b)
    ∧ (∀ a b, node (length logistics_nodes) a → node (length logistics_nodes) b →
         entry ext a b = entry logistics_capacity a b).
Proof.
  apply (augment_extended_entries logistics_nodes logistics_indices logistics_capacity);
    by_decide.
Defined.

(** The whole chain from the wiring to the analysis. *)
Lemma solved_network (nodes : list string) (ni : gmap string Z) (cap : Matrix) :
  square (length nodes) cap → nonneg cap →
  indexed_all ni network_names (node (length nodes)) →
  NoDup (indices_of ni network_names) →
  ∃ ext st a,
    Task1.augment nodes ni cap
    = Ok (ext, Z.of_nat (length nodes), Z.of_nat (length nodes) + 1)
    ∧ (∀ fuel,
         (enough_fuel (length nodes + 2) ext (Z.of_nat (length nodes)) ≤ fuel)%nat →
         EK.edmonds_karp fuel ext (Z.of_nat (length nodes)) (Z.of_nat (length nodes) + 1)
         = Ok (EK.max_flow st, EK.flow_matrix st, EK.path_history st))
    ∧ Net.analyze_network cap (Task1.trim (length nodes) (EK.flow_matrix st)) nodes ni
        (EK.path_history st) = Ok a
    ∧ Net.paths a = EK.path_history st
    ∧ Net.terminal_outflows a
      = (λ t, (t, entry (EK.flow_matrix st) (Z.of_nat (length nodes)) (index_of ni t)))
        <$> Net.terminals
    ∧ Net.store_inflows a
      ≡ₚ (λ s, (s, entry (EK.flow_matrix st) (index_of ni s) (Z.of_nat (length nodes) + 1)))
         <$> Net.stores
    ∧ dict_total (Net.terminal_outflows a) = EK.max_flow st
    ∧ dict_total (Net.store_inflows a) = EK.max_flow st
    ∧ ∀ name, name ∈ Net.warehouses →
        ∃ r, Net.warehouse_records a !! name = Some r
          ∧ Net.inflow r = 0 ∧ Net.outflow r = 0
          ∧ Net.in_utilization r = 0 ∧ Net.out_utilization r = 0.
Proof.
  intros Hsq Hnn Hidx Hnd. set (n := length nodes) in *.
  assert (Hidx' : indexed_all ni (Net.terminals ++ Net.stores) (node n)).
  { unfold indexed_all, network_names in *.
    apply Forall_app in Hidx as [Ht Hws]. apply Forall_app in Hws as [_ Hs].
    by apply Forall_app. }
  destruct (augment_wired n ni cap Hsq nodes eq_refl Hidx')
    as (ext & Hrun & Hext & Hent).
  pose proof (ext_valid n nodes ni cap eq_refl Hsq Hnn ext Hext Hent) as Hvalid.
  destruct (edmonds_karp_final (n + 2) ext _ _ Hvalid) as (st & Hek & _ & Hinv & _).
  destruct (solved_analysis n nodes ni cap eq_refl Hsq Hnn Hidx Hnd ext st Hext Hent Hinv
              (EK.path_history st)) as (a & Ha).
  by exists ext, st, a.
Qed.

(** X18: for every network of non-negative capacities whose twenty names
    have distinct indices in range, wiring, solving, trimming and analysing
    never fail, and in the analysis the outflow reported for a terminal is
    the flow on its edge from the super-source, the inflow reported for a
    store is the flow on its edge to the super-sink, and both the terminal
    outflows and the store inflows add up to the maximum flow. *)
Theorem solved_network_flows (nodes : list string) (ni : gmap string Z)
    (cap : Matrix) :
  square (length nodes) cap → nonneg cap →
  indexed_all ni network_names (node (length nodes)) →
  NoDup (indices_of ni network_names) →
  ∃ ext max_flow flow_matrix path_history a,
    Task1.augment nodes ni cap
    = Ok (ext, Z.of_nat (length nodes), Z.of_nat (length nodes) + 1)
    ∧ (∀ fuel,
         (enough_fuel (length nodes + 2) ext (Z.of_nat (length nodes)) ≤ fuel)%nat →
         EK.edmonds_karp fuel ext (Z.of_nat (length nodes)) (Z.of_nat (length nodes) + 1)
         = Ok (max_flow, flow_matrix, path_history))
    ∧ Net.analyze_network cap (Task1.trim (length nodes) flow_matrix) nodes ni
        path_history = Ok a
    ∧ Net.paths a = path_history
    ∧ Net.terminal_outflows a
      = (λ t, (t, entry flow_matrix (Z.of_nat (length nodes)) (index_of ni t)))
        <$> Net.terminals
    ∧ Net.store_inflows a
      ≡ₚ (λ s, (s, entry flow_matrix (index_of ni s) (Z.of_nat (length nodes) + 1)))
         <$> Net.stores
    ∧ dict_total (Net.terminal_outflows a) = max_flow
    ∧ dict_total (Net.store_inflows a) = max_flow.
Proof.
  intros Hsq Hnn Hidx Hnd.
  destruct (solved_network nodes ni cap Hsq Hnn Hidx Hnd)
    as (ext & st & a & Haug & Hrun & Han & Hp & Ho & Hi & Hto & Hti & _).
  by exists ext, (EK.max_flow st), (EK.flow_matrix st), (EK.path_history st), a.
Qed.

Lemma solved_network_flows_witness :
  ∃ ext max_flow flow_matrix path_history a,
    Task1.augment logistics_nodes logistics_indices logistics_capacity
    = Ok (ext, Z.of_nat (length logistics_nodes), Z.of_nat (length logistics_nodes) + 1)
    ∧ (∀ fuel,
         (enough_fuel (length logistics_nodes + 2) ext
            (Z.of_nat (length logistics_nodes)) ≤ fuel)%nat →
         EK.edmonds_karp fuel ext (Z.of_nat (length logistics_nodes))
           (Z.of_nat (length logistics_nodes) + 1)
         = Ok (max_flow, flow_matrix, path_history))
    ∧ Net.analyze_network logistics_capacity
        (Task1.trim (length logistics_nodes) flow_matrix) logistics_nodes
        logistics_indices path_history = Ok a
    ∧ Net.paths a = path_history
    ∧ Net.terminal_outflows a
      = (λ t, (t, entry flow_matrix (Z.of_nat (length logistics_nodes))
                    (index_of logistics_indices t)))
        <$> Net.terminals
    ∧ Net.store_inflows a
      ≡ₚ (λ s, (s, entry flow_matrix (index_of logistics_indices s)
                     (Z.of_nat (length logistics_nodes) + 1)))
         <$> Net.stores
    ∧ dict_total (Net.terminal_outflows a) = max_flow
    ∧ dict_total (Net.store_inflows a) = max_flow.
Proof.
  apply (solved_network_flows logistics_nodes logistics_indices logistics_capacity);
    by_decide.
Defined.

(** X19: in the same setting the record of every warehouse reports inflow
    0, outflow 0 and both utilizations 0: the sums that [analyze_network]
    takes over the solver's antisymmetric flow matrix cancel at every node
    that conserves flow. *)
Theorem solved_network_hubs (nodes : list string) (ni : gmap string Z)
    (cap : Matrix) :
  square (length nodes) cap → nonneg cap →
  indexed_all ni network_names (node (length nodes)) →
  NoDup (indices_of ni network_names) →
  ∃ ext max_flow flow_matrix path_history a,
    Task1.augment nodes ni cap
    = Ok (ext, Z.of_nat (length nodes), Z.of_nat (length nodes) + 1)
    ∧ (∀ fuel,
         (enough_fuel (length nodes + 2) ext (Z.of_nat (length nodes)) ≤ fuel)%nat →
         EK.edmonds_karp fuel ext (Z.of_nat (length nodes)) (Z.of_nat (length nodes) + 1)
         = Ok (max_flow, flow_matrix, path_history))
    ∧ Net.analyze_network cap (Task1.trim (length nodes) flow_matrix) nodes ni
        path_history = Ok a
    ∧ ∀ name, name ∈ Net.warehouses →
        ∃ r, Net.warehouse_records a !! name = Some r
          ∧ Net.inflow r = 0 ∧ Net.outflow r = 0
          ∧ Net.in_utilization r = 0 ∧ Net.out_utilization r = 0.
Proof.
  intros Hsq Hnn Hidx Hnd.
  destruct (solved_network nodes ni cap Hsq Hnn Hidx Hnd)
    as (ext & st & a & Haug & Hrun & Han & _ & _ & _ & _ & _ & Hhubs).
  by exists ext, (EK.max_flow st), (EK.flow_matrix st), (EK.path_history st), a.
Qed.

Lemma solved_network_hubs_witness :
  ∃ ext max_flow flow_matrix path_history a,
    Task1.augment logistics_nodes logistics_indices logistics_capacity
    = Ok (ext, Z.of_nat (length logistics_nodes), Z.of_nat (length logistics_nodes) + 1)
    ∧ (∀ fuel,
         (enough_fuel (length logistics_nodes + 2) ext
            (Z.of_nat (length logistics_nodes)) ≤ fuel)%nat →
         EK.edmonds_karp fuel ext (Z.of_nat (length logistics_nodes))
           (Z.of_nat (length logistics_nodes) + 1)
         = Ok (max_flow, flow_matrix, path_history))
    ∧ Net.analyze_network logistics_capacity
        (Task1.trim (length logistics_nodes) flow_matrix) logistics_nodes
        logistics_indices path_history = Ok a
    ∧ ∀ name, name ∈ Net.warehouses →
        ∃ r, Net.warehouse_records a !! name = Some r
          ∧ Net.inflow r = 0 ∧ Net.outflow r = 0
          ∧ Net.in_utilization r = 0 ∧ Net.out_utilization r = 0.
Proof.
  apply (solved_network_hubs logistics_nodes logistics_indices logistics_capacity);
    by_decide.
Defined.

(** ** [main] as a whole *)

(** X20: for every network of non-negative capacities, of whatever size,
    whose twenty names have distinct indices in range, the edge list, the
    wiring, the solver and the analysis return, so [main] between the edge
    list and the report fails only if the table of flows between terminals
    and stores does: its values for the report are the edge list, the
    maximum flow and the analysis, and the table computed from the trimmed
    flow matrix. *)
Theorem analyse_report_inputs (nodes : list string) (ni : gmap string Z)
    (cap : Matrix) :
  square (length nodes) cap → nonneg cap →
  indexed_all ni network_names (node (length nodes)) →
  NoDup (indices_of ni network_names) →
  ∃ ext max_flow flow_matrix path_history a edges,
    Task1.augment nodes ni cap
    = Ok (ext, Z.of_nat (length nodes), Z.of_nat (length nodes) + 1)
    ∧ Net.get_edges_from_matrix cap nodes = Ok edges
    ∧ Net.analyze_network cap (Task1.trim (length nodes) flow_matrix) nodes ni
        path_history = Ok a
    ∧ ∀ fuel,
        (enough_fuel (length nodes + 2) ext (Z.of_nat (length nodes)) ≤ fuel)%nat →
        EK.edmonds_karp fuel ext (Z.of_nat (length nodes)) (Z.of_nat (length nodes) + 1)
        = Ok (max_flow, flow_matrix, path_history)
        ∧ Task1.analyse fuel nodes ni cap
          = (table ← Net.calculate_terminal_to_store_flow
                       (Task1.trim (length nodes) flow_matrix) ni;
             Ok (Task1.ReportInputs max_flow a table edges)).
Proof.
  intros Hsq Hnn Hidx Hnd.
  destruct (solved_network nodes ni cap Hsq Hnn Hidx Hnd)
    as (ext & st & a & Haug & Hrun & Han & _).
  exists ext, (EK.max_flow st), (EK.flow_matrix st), (EK.path_history st), a.
  eexists. split; [done |].
  split; [by apply (get_edges_selected (length nodes)) |]. split; [done |].
  intros fuel Hfuel. split; [by apply Hrun |].
  unfold Task1.analyse.
  rewrite (get_edges_selected (length nodes)) by done. step_ok.
  rewrite Haug. step_ok. cbv beta iota. rewrite (Hrun fuel Hfuel). step_ok.
  cbv beta iota zeta.
  destruct (Net.calculate_terminal_to_store_flow _ ni) as [table | e |]; [| done | done].
  step_ok. by rewrite Han.
Qed.

Lemma analyse_report_inputs_witness :
  ∃ ext max_flow flow_matrix path_history a edges,
    Task1.augment logistics_nodes logistics_indices logistics_capacity
    = Ok (ext, Z.of_nat (length logistics_nodes), Z.of_nat (length logistics_nodes) + 1)
    ∧ Net.get_edges_from_matrix logistics_capacity logistics_nodes = Ok edges
    ∧ Net.analyze_network logistics_capacity
        (Task1.trim (length logistics_nodes) flow_matrix) logistics_nodes
        logistics_indices path_history = Ok a
    ∧ ∀ fuel,
        (enough_fuel (length logistics_nodes + 2) ext
           (Z.of_nat (length logistics_nodes)) ≤ fuel)%nat →
        EK.edmonds_karp fuel ext (Z.of_nat (length logistics_nodes))
          (Z.of_nat (length logistics_nodes) + 1)
        = Ok (max_flow, flow_matrix, path_history)
        ∧ Task1.analyse fuel logistics_nodes logistics_indices logistics_capacity
          = (table ← Net.calculate_terminal_to_store_flow
                       (Task1.trim (length logistics_nodes) flow_matrix)
                       logistics_indices;
             Ok (Task1.ReportInputs max_flow a table edges)).
Proof.
  apply (analyse_report_inputs logistics_nodes logistics_indices logistics_capacity);
    by_decide.
Defined.

(** X21: on the network that the program builds, [main] reaches the call of
    [generate_report] whenever its loops may take 223 turns, with a maximum
    flow of 115 units, 60 of them leaving the first terminal and 55 the
    second, and this table of flows between terminals and stores, whose
    rows add up to 115 as well. *)
Theorem main_report (fuel : nat) :
  (223 ≤ fuel)%nat →
  Task1.main fuel = Ok logistics_report
  ∧ Task1.max_flow logistics_report = 115
  ∧ Net.terminal_outflows (Task1.analysis logistics_report)
    = [("Термінал 1", 60); ("Термінал 2", 55)]
  ∧ Task1.terminal_to_store_flows logistics_report
    = [("Термінал 1", "Магазин 1", 15); ("Термінал 1", "Магазин 2", 10);
       ("Термінал 1", "Магазин 4", 10); ("Термінал 1", "Магазин 5", 7);
       ("Термінал 1", "Магазин 6", 3); ("Термінал 1", "Магазин 7", 10);
       ("Термінал 1", "Магазин 8", 5); ("Термінал 2", "Магазин 4", 5);
       ("Термінал 2", "Магазин 5", 3); ("Термінал 2", "Магазин 6", 2);
       ("Термінал 2", "Магазин 7", 10); ("Термінал 2", "Магазин 8", 5);
       ("Термінал 2", "Магазин 10", 20); ("Термінал 2", "Магазин 11", 10)]
  ∧ dict_total ((λ row, (row.1.2, row.2))
                <$> Task1.terminal_to_store_flows logistics_report) = 115.
Proof.
  intros Hfuel. split; [| by vm_compute].
  unfold Task1.main.
  assert (Hbuild : Net.build_logistics_network
                   = Ok (logistics_nodes, logistics_indices, logistics_capacity))
    by (vm_compute; reflexivity).
  rewrite Hbuild. step_ok. cbv beta iota. unfold Task1.analyse.
  assert (Hedges : Net.get_edges_from_matrix logistics_capacity logistics_nodes
                   = Ok logistics_edges) by (vm_compute; reflexivity).
  rewrite Hedges. step_ok.
  assert (Haug : Task1.augment logistics_nodes logistics_indices logistics_capacity
                 = Ok (logistics_extended, 20, 21)) by (vm_compute; reflexivity).
  rewrite Haug. step_ok. cbv beta iota.
  assert (Hrun : EK.edmonds_karp fuel logistics_extended 20 21 = Ok logistics_result).
  { apply (edmonds_karp_mono _ _ _ 223); [| done]. vm_compute. reflexivity. }
  rewrite Hrun. vm_compute. reflexivity.
Qed.

Lemma main_report_witness :
  Task1.main 300 = Ok logistics_report
  ∧ Task1.max_flow logistics_report = 115
  ∧ Net.terminal_outflows (Task1.analysis logistics_report)
    = [("Термінал 1", 60); ("Термінал 2", 55)]
  ∧ Task1.terminal_to_store_flows logistics_report
    = [("Термінал 1", "Магазин 1", 15); ("Термінал 1", "Магазин 2", 10);
       ("Термінал 1", "Магазин 4", 10); ("Термінал 1", "Магазин 5", 7);
       ("Термінал 1", "Магазин 6", 3); ("Термінал 1", "Магазин 7", 10);
       ("Термінал 1", "Магазин 8", 5); ("Термінал 2", "Магазин 4", 5);
       ("Термінал 2", "Магазин 5", 3); ("Термінал 2", "Магазин 6", 2);
       ("Термінал 2", "Магазин 7", 10); ("Термінал 2", "Магазин 8", 5);
       ("Термінал 2", "Магазин 10", 20); ("Термінал 2", "Магазин 11", 10)]
  ∧ dict_total ((λ row, (row.1.2, row.2))
                <$> Task1.terminal_to_store_flows logistics_report) = 115.
Proof. apply (main_report 300). lia. Defined.

(** ** Binary64 arithmetic without overflow *)

Lemma digits2_pos_bounds (p : positive) :
  2 ^ (Z.pos (digits2_pos p) - 1) ≤ Z.pos p < 2 ^ Z.pos (digits2_pos p).
Proof.
  induction p as [p IH | p IH |]; simpl digits2_pos; [| | simpl; lia].
  all: rewrite Pos2Z.inj_succ;
    replace (Z.succ (Z.pos (digits2_pos p)) - 1)
      with (Z.succ (Z.pos (digits2_pos p) - 1)) by lia;
    rewrite !Z.pow_succ_r by lia; lia.
Qed.

Lemma Zdigits2_nonneg (m : Z) : 0 ≤ Zdigits2 m.
Proof. destruct m; simpl; lia. Qed.

Lemma Zdigits2_gt (m : Z) : 0 ≤ m → m < 2 ^ Zdigits2 m.
Proof.
  destruct m as [| p | p]; [simpl; lia | | lia]. intros _.
  apply digits2_pos_bounds.
Qed.

Lemma Zdigits2_le (m k : Z) : 0 ≤ m < 2 ^ k → 0 ≤ k → Zdigits2 m ≤ k.
Proof.
  destruct m as [| p | p]; [simpl; lia | | lia]. intros [_ Hlt] Hk.
  destruct (digits2_pos_bounds p) as [Hlo _]. simpl.
  destruct (decide (Z.pos (digits2_pos p) ≤ k)) as [| Hgt]; [done |].
  assert (2 ^ k ≤ 2 ^ (Z.pos (digits2_pos p) - 1)) by (apply Z.pow_le_mono_r; lia).
  lia.
Qed.

Lemma shr_1_digits (mrs : shr_record) :
  0 ≤ shr_m mrs →
  0 ≤ shr_m (shr_1 mrs)
  ∧ Zdigits2 (shr_m (shr_1 mrs)) = Z.max 0 (Zdigits2 (shr_m mrs) - 1).
Proof.
  destruct mrs as [m r s]. simpl shr_m at 1.
  destruct m as [| [p | p |] | p]; intros Hm; simpl; try lia.
Qed.

Lemma iter_shr_1_digits (p : positive) :
  ∀ mrs, 0 ≤ shr_m mrs →
    0 ≤ shr_m (iter_pos shr_1 p mrs)
    ∧ Zdigits2 (shr_m (iter_pos shr_1 p mrs))
      = Z.max 0 (Zdigits2 (shr_m mrs) - Z.pos p).
Proof.
  induction p as [p IH | p IH |]; intros mrs Hm; simpl iter_pos.
  - destruct (shr_1_digits mrs Hm) as [H1 E1].
    destruct (IH _ H1) as [H2 E2]. destruct (IH _ H2) as [H3 E3].
    split; [done |]. rewrite E3, E2, E1. lia.
  - destruct (IH _ Hm) as [H2 E2]. destruct (IH _ H2) as [H3 E3].
    split; [done |]. rewrite E3, E2. lia.
  - apply shr_1_digits, Hm.
Qed.

Lemma shr_digits (mrs mrs' : shr_record) (e n e' : Z) :
  shr mrs e n = (mrs', e') → 0 ≤ shr_m mrs →
  0 ≤ shr_m mrs' ∧ e' = e + Z.max 0 n
  ∧ Zdigits2 (shr_m mrs') = Z.max 0 (Zdigits2 (shr_m mrs) - Z.max 0 n).
Proof.
  intros Hshr Hm. pose proof (Zdigits2_nonneg (shr_m mrs)).
  destruct n as [| p | p]; simpl in Hshr; injection Hshr as <- <-.
  - split; [done |]. split; lia.
  - destruct (iter_shr_1_digits p mrs Hm) as [H1 E1].
    split; [done |]. split; [lia |]. rewrite E1. lia.
  - split; [done |]. split; lia.
Qed.

Lemma shr_m_of_loc (m : Z) (l : location) : shr_m (shr_record_of_loc m l) = m.
Proof. by destruct l as [| []]. Qed.

Lemma shr_fexp_digits (m e : Z) (l : location) (mrs' : shr_record) (e' D E : Z) :
  shr_fexp Float.prec Float.emax m e l = (mrs', e') → 0 ≤ m →
  Zdigits2 m + e ≤ D → e ≤ E → -1074 ≤ D → D - 53 ≤ E → -1074 ≤ E →
  0 ≤ shr_m mrs' ∧ Zdigits2 (shr_m mrs') + e' ≤ D ∧ e' ≤ E.
Proof.
  unfold shr_fexp. intros Hshr Hm HD HE HD0 HDE HE0.
  apply shr_digits in Hshr as (H1 & -> & E1); rewrite shr_m_of_loc in *; [| done].
  split; [done |]. rewrite E1.
  unfold fexp, emin, Float.prec, Float.emax.
  pose proof (Zdigits2_nonneg m). lia.
Qed.

Lemma round_nearest_even_bounds (m : Z) (l : location) :
  m ≤ round_nearest_even m l ≤ m + 1.
Proof. destruct l as [| []]; simpl; try destruct (Z.even m); lia. Qed.

Lemma Zdigits2_mono (a b : Z) : 0 ≤ a ≤ b → Zdigits2 a ≤ Zdigits2 b.
Proof.
  intros [Ha Hab]. apply Zdigits2_le; [| apply Zdigits2_nonneg].
  pose proof (Zdigits2_gt b). lia.
Qed.

Lemma Zdigits2_succ (m : Z) : 0 ≤ m → Zdigits2 (m + 1) ≤ Zdigits2 m + 1.
Proof.
  intros Hm. pose proof (Zdigits2_nonneg m). pose proof (Zdigits2_gt m Hm).
  apply Zdigits2_le; [| lia]. rewrite Z.pow_add_r by lia. lia.
Qed.

Lemma binary_round_aux_within (s : bool) (mx ex : Z) (lx : location) (D E : Z) :
  0 ≤ mx → Zdigits2 mx + ex ≤ D → ex ≤ E →
  -1074 ≤ D → D - 52 ≤ E → -1074 ≤ E → E ≤ 971 →
  float_within (D + 1) E (binary_round_aux Float.prec Float.emax s mx ex lx).
Proof.
  intros Hm HD HE HD0 HDE HE0 HE1. unfold binary_round_aux.
  destruct (shr_fexp _ _ mx ex lx) as [mrs' e'] eqn:H1.
  apply (shr_fexp_digits _ _ _ _ _ D E) in H1 as (Hm' & HD' & HE'); [| lia ..].
  pose proof (round_nearest_even_bounds (shr_m mrs') (loc_of_shr_record mrs')) as Hr.
  set (m1 := round_nearest_even _ _) in *.
  destruct (shr_fexp _ _ m1 e' loc_Exact) as [mrs'' e''] eqn:H2.
  apply (shr_fexp_digits _ _ _ _ _ (D + 1) E) in H2 as (Hm'' & HD'' & HE'');
    [| lia | | lia ..].
  - destruct (shr_m mrs'') as [| m | m] eqn:Hsm; [done | | lia].
    unfold Float.emax, Float.prec.
    destruct (Z.leb_spec e'' (1024 - 53)) as [_ | Hgt]; [| lia].
    simpl. simpl in HD''. lia.
  - pose proof (Zdigits2_mono m1 (shr_m mrs' + 1) ltac:(lia)).
    pose proof (Zdigits2_succ (shr_m mrs') Hm'). lia.
Qed.

Lemma digits2_pos_shift (m d : positive) :
  Z.pos (digits2_pos (Pos.iter xO m d)) = Z.pos (digits2_pos m) + Z.pos d.
Proof.
  induction d as [| d IH] using Pos.peano_ind.
  - simpl. lia.
  - rewrite Pos.iter_succ. simpl digits2_pos. lia.
Qed.

Lemma shl_align_digits (mx : positive) (ex ex' : Z) (mz : positive) (ez : Z) :
  shl_align mx ex ex' = (mz, ez) →
  Z.pos (digits2_pos mz) + ez = Z.pos (digits2_pos mx) + ex ∧ ez ≤ ex.
Proof.
  unfold shl_align. destruct (ex' - ex) as [| d | d] eqn:Hd; intros [= <- <-];
    [lia | lia |].
  rewrite digits2_pos_shift. lia.
Qed.

(** [float(z)] of a positive integer below [2 ^ K]. *)
Lemma of_int_within (z K : Z) :
  0 < z < 2 ^ K → 52 ≤ K → K ≤ 1022 →
  float_within (K + 1) (K - 52) (Float.of_int z).
Proof.
  intros [Hz HzK] HK HK'. destruct z as [| p | p]; [lia | | lia].
  unfold Float.of_int, binary_normalize, binary_round.
  destruct (shl_align p 0 _) as [mz ez] eqn:Hal.
  apply shl_align_digits in Hal as [Hd He].
  apply binary_round_aux_within; [lia | | lia ..].
  pose proof (Zdigits2_le (Z.pos p) K ltac:(lia) ltac:(lia)) as HdK.
  simpl in *. lia.
Qed.

Lemma div_core_digits (a b : positive) (q e : Z) (l : location) :
  SFdiv_core_binary Float.prec Float.emax (Z.pos a) 0 (Z.pos b) 0 = (q, e, l) →
  0 ≤ q ∧ e ≤ 0 ∧ Zdigits2 q + e ≤ Zdigits2 (Z.pos a).
Proof.
  unfold SFdiv_core_binary.
  set (e' := Z.min _ (0 - 0)).
  assert (He' : e' ≤ 0) by (unfold e'; lia).
  set (m' := match 0 - 0 - e' with 0 => Z.pos a | Z.pos _ => _ | Z.neg _ => 0 end).
  assert (Hm' : m' = Z.pos a * 2 ^ (- e')).
  { unfold m'. destruct (0 - 0 - e') as [| p | p] eqn:Hs; [| | lia].
    - replace (- e') with 0 by lia. lia.
    - rewrite Z.shiftl_mul_pow2 by lia. f_equal. f_equal. lia. }
  clearbody m' e'.
  pose proof (Z_div_mod m' (Z.pos b) ltac:(lia)) as Hdiv.
  destruct (Z.div_eucl m' (Z.pos b)) as [q' r]. destruct Hdiv as [Heq Hr].
  intros [= <- <- <-].
  assert (0 < 2 ^ (- e')) by (apply Z.pow_pos_nonneg; lia).
  assert (Hq0 : 0 ≤ q') by nia.
  split; [done |]. split; [done |].
  pose proof (Zdigits2_gt (Z.pos a) ltac:(lia)) as Ha.
  pose proof (Zdigits2_nonneg (Z.pos a)).
  assert (Zdigits2 q' ≤ Zdigits2 (Z.pos a) + - e'); [| lia].
  apply Zdigits2_le; [| lia]. rewrite Z.pow_add_r by lia.
  split; [done |]. nia.
Qed.

(** [a / b] for positive integers, [a] below [2 ^ K]. *)
Lemma true_div_within (a b K : Z) :
  0 < a < 2 ^ K → 0 < b → 52 ≤ K → K ≤ 1022 →
  ∃ q, Float.true_div a b = Ok q ∧ float_within (K + 1) (K - 52) q.
Proof.
  intros [Ha HaK] Hb HK HK'. unfold Float.true_div.
  rewrite bool_decide_eq_false_2 by lia.
  destruct a as [| pa | pa]; [lia | | lia]. destruct b as [| pb | pb]; [lia | | lia].
  simpl Float.operand. unfold SFdiv.
  destruct (SFdiv_core_binary _ _ _ _ _ _) as [[q e] l] eqn:Hcore.
  apply div_core_digits in Hcore as (Hq & He & Hd).
  pose proof (Zdigits2_le (Z.pos pa) K ltac:(lia) ltac:(lia)) as HdK.
  pose proof (binary_round_aux_within (xorb false false) q e l K (K - 52)
                Hq ltac:(lia) ltac:(lia) ltac:(lia) ltac:(lia) ltac:(lia) ltac:(lia))
    as Hw.
  destruct (binary_round_aux _ _ _ _ _ _) as [s | s | | s m e0]; [| done | done |];
    by eexists.
Qed.

Lemma mul_within (x y : spec_float) (D1 E1 D2 E2 D E : Z) :
  float_within D1 E1 x → float_within D2 E2 y →
  D1 + D2 ≤ D → E1 + E2 ≤ E →
  -1074 ≤ D → D - 52 ≤ E → -1074 ≤ E → E ≤ 971 →
  float_within (D + 1) E (Float.mul x y).
Proof.
  intros Hx Hy HD HE HD0 HDE HE0 HE1.
  destruct x as [sx | sx | | sx mx ex]; [| done | done |];
    destruct y as [sy | sy | | sy my ey]; try done.
  destruct Hx as [Hdx Hex], Hy as [Hdy Hey].
  unfold Float.mul, SFmul. apply binary_round_aux_within; [lia | | lia ..].
  assert (Zdigits2 (Z.pos (mx * my)) ≤ Zdigits2 (Z.pos mx) + Zdigits2 (Z.pos my));
    [| lia].
  pose proof (Zdigits2_gt (Z.pos mx) ltac:(lia)).
  pose proof (Zdigits2_gt (Z.pos my) ltac:(lia)).
  pose proof (Zdigits2_nonneg (Z.pos mx)). pose proof (Zdigits2_nonneg (Z.pos my)).
  apply Zdigits2_le; [| lia]. rewrite Z.pow_add_r by lia.
  rewrite Pos2Z.inj_mul. split; [lia | nia].
Qed.

Lemma round_within (x : spec_float) (D E : Z) :
  float_within D E x → ∃ z, Float.round x = Ok z.
Proof. destruct x; [| done | done |]; intros _; by eexists. Qed.

(** [round(a / b * c)] for positive integers [a], [b] and [c], [a] and [c]
    below [2 ^ 500]. *)
Lemma proportion_returns (a b c : Z) :
  0 < a < 2 ^ 500 → 0 < b → 0 < c < 2 ^ 500 →
  ∃ q x z, Float.true_div a b = Ok q ∧ Float.int_operand c = Ok x
           ∧ Float.round (Float.mul q x) = Ok z.
Proof.
  intros Ha Hb Hc.
  destruct (true_div_within a b 500 Ha Hb) as (q & Hq & Hwq); [lia | lia |].
  pose proof (of_int_within c 500 Hc ltac:(lia) ltac:(lia)) as Hwx.
  pose proof (mul_within _ _ _ _ _ _ 1002 950 Hwq Hwx ltac:(lia) ltac:(lia)
                ltac:(lia) ltac:(lia) ltac:(lia) ltac:(lia)) as Hw.
  apply round_within in Hw as [z Hz].
  exists q, (Float.of_int c), z. split; [done |]. split; [| done].
  unfold Float.int_operand. by destruct (Float.of_int c).
Qed.

(** ** The shares in the table of flows *)

(** The invariant of a loop may depend on where in the list the loop stands. *)
Lemma py_for_split {A S} (P : list A → S → Prop) (l : list A)
    (body : A → S → res S) :
  (∀ pre x post st, l = pre ++ x :: post → P pre st →
     ∃ st', body x st = Ok st' ∧ P (pre ++ [x]) st') →
  ∀ st, P [] st → ∃ st', py_for l body st = Ok st' ∧ P l st'.
Proof.
  intros Hbody.
  assert (Hgen : ∀ rest pre st, l = pre ++ rest → P pre st →
            ∃ st', py_for rest body st = Ok st' ∧ P l st').
  { induction rest as [| x rest IH]; intros pre st Hl Hst.
    - exists st. rewrite app_nil_r in Hl. by subst.
    - rewrite py_for_cons.
      destruct (Hbody pre x rest st) as (st1 & -> & Hst1); [done | done |].
      step_ok. apply (IH (pre ++ [x])); [by rewrite <- app_assoc | done]. }
  intros st Hst. by apply (Hgen l []).
Qed.

Section odict_tables.
  Context `{EqDecision K} {V : Type}.
  Implicit Types (d : list (K * V)) (k : K) (v : V).

Lemma odict_get_set d k v k' :
  odict_get (odict_set d k v) k' = if decide (k' = k) then Ok v else odict_get d k'.
Proof.
  induction d as [| [k0 v0] d IH]; simpl.
  - destruct (decide (k = k')), (decide (k' = k)); congruence.
  - destruct (decide (k0 = k)) as [-> | Hk0]; simpl.
    + destruct (decide (k = k')), (decide (k' = k)); congruence.
    + destruct (decide (k0 = k')) as [-> | Hk0']; [by rewrite decide_False |].
      apply IH.
Qed.

Lemma odict_get_fmap (g : K → V) (keys : list K) k :
  k ∈ keys → odict_get ((λ k, (k, g k)) <$> keys) k = Ok (g k).
Proof.
  induction keys as [| k0 keys IH]; intros Hk; [by apply elem_of_nil in Hk |].
  simpl. destruct (decide (k0 = k)) as [-> | Hne]; [done |].
  apply IH. apply elem_of_cons in Hk as [-> | Hk]; done.
Qed.

Lemma table_is_fmap (g : K → V) (keys : list K) :
  table_is keys ((λ k, (k, g k)) <$> keys) g.
Proof.
  split; [apply fmap_fst_pair | intros k; apply odict_get_fmap].
Qed.

(** Such a table is determined when no key occurs twice. *)
Lemma table_is_eq (g : K → V) (keys : list K) d :
  NoDup keys → table_is keys d g → d = (λ k, (k, g k)) <$> keys.
Proof.
  intros Hnd [Hkeys Hget]. revert d Hkeys Hget.
  induction Hnd as [| k0 keys Hk0 Hnd IH]; intros d Hkeys Hget.
  - by apply fmap_nil_inv in Hkeys.
  - destruct d as [| [k1 v1] d]; [done |]. injection Hkeys as -> Hkeys.
    pose proof (Hget k0 ltac:(left)) as H0. simpl in H0.
    rewrite decide_True in H0 by done. injection H0 as ->.
    simpl. f_equal. apply IH; [done |]. intros k Hk.
    specialize (Hget k ltac:(by right)). simpl in Hget.
    rewrite decide_False in Hget; [done |]. by intros ->.
Qed.

(** [d[k] += x] on a table. *)
Lemma table_is_add (keys : list K) d (g : K → V) k v :
  table_is keys d g → k ∈ keys →
  table_is keys (odict_set d k v) (λ k', if decide (k' = k) then v else g k').
Proof.
  intros [Hkeys Hget] Hk. split.
  - rewrite odict_set_keys; [done |]. by rewrite Hkeys.
  - intros k' Hk'. rewrite odict_get_set. case_decide; [done |]. by apply Hget.
Qed.

Lemma table_is_ext (keys : list K) d (g g' : K → V) :
  table_is keys d g → (∀ k, k ∈ keys → g k = g' k) → table_is keys d g'.
Proof.
  intros [Hkeys Hget] Hext. split; [done |]. intros k Hk.
  rewrite <- Hext by done. by apply Hget.
Qed.

End odict_tables.

Lemma rounded_share_returns (a b c : Z) :
  0 < a < 2 ^ 500 → 0 < b → 0 < c < 2 ^ 500 →
  ∃ q x z, Float.true_div a b = Ok q ∧ Float.int_operand c = Ok x
           ∧ Float.round (Float.mul q x) = Ok z
           ∧ rounded_share a b c = Z.max 0 z.
Proof.
  intros Ha Hb Hc.
  destruct (proportion_returns a b c Ha Hb Hc) as (q & x & z & Hq & Hx & Hz).
  exists q, x, z. repeat (split; [done |]).
  unfold rounded_share. rewrite Hq. step_ok. rewrite Hx. step_ok. by rewrite Hz.
Qed.

Section shares.
  Variables (n : nat) (flow : Matrix) (ni : gmap string Z).
  Hypothesis flow_square : square n flow.
  Hypothesis names_indexed : indexed_all ni network_names (node n).
  Hypothesis flow_small : ∀ a b, node n a → node n b → entry flow a b < 2 ^ 500.

Local Abbreviation idx := (index_of ni).
Local Abbreviation keys := (list_prod Net.terminals Net.stores).
Local Abbreviation store_ids := (indices_of ni Net.stores).
Local Abbreviation share_at := (share flow (indices_of ni Net.stores)).
Local Abbreviation items := (inflow_items flow ni).

Lemma name_get (name : string) :
  name ∈ network_names → dict_get ni name = Ok (idx name) ∧ node n (idx name).
Proof.
  intros Hname.
  destruct (indexed_all_get _ _ _ _ names_indexed Hname) as (i & _ & -> & -> & Hi).
  done.
Qed.

Lemma terminal_name (t : string) : t ∈ Net.terminals → t ∈ network_names.
Proof. intros Ht. unfold network_names. rewrite !elem_of_app. by left. Qed.

Lemma warehouse_name (w : string) : w ∈ Net.warehouses → w ∈ network_names.
Proof. intros Hw. unfold network_names. rewrite !elem_of_app. right. by left. Qed.

Lemma store_name (s : string) : s ∈ Net.stores → s ∈ network_names.
Proof. intros Hs. unfold network_names. rewrite !elem_of_app. right. by right. Qed.

Lemma key_names (k : string * string) :
  k ∈ keys → k.1 ∈ Net.terminals ∧ k.2 ∈ Net.stores.
Proof.
  destruct k as [t s]. intros Hk.
  apply list_elem_of_In, in_prod_iff in Hk as [Ht Hs].
  by apply list_elem_of_In in Ht, Hs.
Qed.

Lemma key_of_names (t s : string) : t ∈ Net.terminals → s ∈ Net.stores → (t, s) ∈ keys.
Proof.
  intros Ht Hs. apply list_elem_of_In, in_prod_iff. by rewrite <- !list_elem_of_In.
Qed.

(** [total_outflow = sum(flow_matrix[w_idx][node_indices[s]] for s in stores)] *)
Lemma total_outflow_sum (w_idx : Z) (names : list string) :
  node n w_idx → (∀ s, s ∈ names → s ∈ Net.stores) →
  ∀ acc, py_for names (λ s acc,
           row ← py_get flow w_idx;
           s_idx ← dict_get ni s;
           x ← py_get row s_idx;
           Ok (acc + x)) acc
         = Ok (acc + sum_over (indices_of ni names) (entry flow w_idx)).
Proof.
  intros Hw. set (body := λ (s : string) (acc : Z), _).
  assert (Hstep : ∀ s acc, s ∈ Net.stores →
            body s acc = Ok (acc + entry flow w_idx (idx s))).
  { intros s acc Hs. unfold body.
    destruct (name_get s) as [-> Hsn]; [by apply store_name |].
    destruct flow_square as [Hlen Hrows].
    rewrite (py_get_ok []) by (rewrite Hlen; done). step_ok. step_ok.
    by rewrite (py_get_ok 0) by (rewrite (square_row n) by done; done). }
  clearbody body.
  induction names as [| s names IH]; intros Hnames acc.
  - simpl. by rewrite Z.add_0_r.
  - rewrite py_for_cons, Hstep by (apply Hnames; left). step_ok.
    rewrite IH by (intros s' Hs'; apply Hnames; by right).
    unfold indices_of. rewrite fmap_cons. simpl sum_over. f_equal. lia.
Qed.

(** The first loop: every warehouse gets its terminals of positive flow. *)
Lemma warehouse_inflows_items :
  ∃ wi, Net.warehouse_inflows flow ni = Ok wi
        ∧ ∀ w, w ∈ Net.warehouses → odict_get wi w = Ok (items w).
Proof.
  unfold Net.warehouse_inflows.
  apply (py_for_prefix
           (λ pre wi, ∀ w, w ∈ pre → odict_get wi w = Ok (items w)));
    [| intros w Hw; by apply elem_of_nil in Hw].
  intros pre w wi Hw Hpre.
  destruct (name_get w) as [-> Hwi]; [by apply warehouse_name |]. step_ok.
  destruct (py_for_split
     (λ pre_t wi', odict_get wi' w
                   = Ok ((λ t, (t, entry flow (idx t) (idx w)))
                         <$> filter (λ t, 0 < entry flow (idx t) (idx w)) pre_t)
                   ∧ ∀ w', w' ≠ w → odict_get wi' w' = odict_get wi w')
     Net.terminals
     (λ t warehouse_inflows,
        t_idx ← dict_get ni t;
        x ← mat_get flow t_idx (idx w);
        if bool_decide (x > 0) then
          x ← mat_get flow t_idx (idx w);
          inflows ← odict_get warehouse_inflows w;
          Ok (odict_set warehouse_inflows w (odict_set inflows t x))
        else Ok warehouse_inflows)) with (st := odict_set wi w [])
    as (wi' & Hrun & Hw' & Hother).
  - intros pre_t t post wi0 Hsplit [Hget0 Hother0].
    assert (Ht : t ∈ Net.terminals) by (rewrite Hsplit, elem_of_app; right; left).
    assert (Hfresh : t ∉ pre_t).
    { assert (Hnd : NoDup Net.terminals) by by_decide.
      rewrite Hsplit in Hnd. apply NoDup_app in Hnd as (_ & Hdisj & _).
      intros Hin. apply (Hdisj t Hin). left. }
    destruct (name_get t) as [-> Hti]; [by apply terminal_name |]. step_ok.
    rewrite (mat_get_ok n) by done. step_ok.
    rewrite filter_app, fmap_app.
    case_bool_decide as Hpos.
    + step_ok. rewrite Hget0. step_ok. eexists. split; [done |]. split.
      * rewrite odict_get_set, decide_True by done. f_equal.
        rewrite odict_set_fresh.
        -- f_equal. rewrite filter_cons_True by lia. done.
        -- rewrite fmap_fst_pair. intros Hin.
           by apply list_elem_of_filter in Hin as [_ Hin].
      * intros w' Hne. rewrite odict_get_set, decide_False by done.
        by apply Hother0.
    + eexists. split; [done |]. split; [| done].
      rewrite filter_cons_False by lia. by rewrite app_nil_r.
  - split; [by rewrite odict_get_set, decide_True | ].
    intros w' Hne. by rewrite odict_get_set, decide_False.
  - exists wi'. split; [done |]. intros w0 Hw0.
    destruct (decide (w0 = w)) as [-> | Hne]; [done |].
    rewrite Hother by done.
    apply elem_of_app in Hw0 as [Hw0 | Hw0]; [by apply Hpre |].
    by apply list_elem_of_singleton in Hw0.
Qed.

(** The innermost loop, for a warehouse and a store with flow between them. *)
Lemma attribute_shares (w s : string) (G : string * string → Z)
    (tsf : list (string * string * Z)) :
  w ∈ Net.warehouses → s ∈ Net.stores →
  0 < sum_over store_ids (entry flow (idx w)) →
  0 < entry flow (idx w) (idx s) →
  table_is keys tsf G →
  ∃ tsf', py_for (items w)
            (Net.attribute s (entry flow (idx w) (idx s))
               (sum_over store_ids (entry flow (idx w)))) tsf = Ok tsf'
          ∧ table_is keys tsf'
              (λ k, G k + if decide (k.2 = s) then share_at (idx k.1) (idx w) (idx s)
                          else 0).
Proof.
  intros Hw Hs Htotal Hstore Htsf.
  destruct (name_get w) as [_ Hwi]; [by apply warehouse_name |].
  destruct (name_get s) as [_ Hsi]; [by apply store_name |].
  destruct (py_for_split
    (λ pre tsf', table_is keys tsf'
       (λ k, G k + if decide (k.2 = s ∧ k.1 ∈ pre.*1)
                   then share_at (idx k.1) (idx w) (idx s) else 0))
    (items w)
    (Net.attribute s (entry flow (idx w) (idx s))
       (sum_over store_ids (entry flow (idx w))))) with (st := tsf)
    as (tsf' & Hrun & Htsf').
  - intros pre [t terminal_flow] post tsf0 Hsplit Htsf0.
    assert (Hitem : (t, terminal_flow) ∈ items w)
      by (rewrite Hsplit, elem_of_app; right; left).
    apply list_elem_of_fmap in Hitem as (t' & [= <- ->] & Hitem).
    apply list_elem_of_filter in Hitem as [Hpos Ht].
    assert (Hfresh : t ∉ pre.*1).
    { assert (Hnd : NoDup (items w).*1).
      { unfold inflow_items. rewrite fmap_fst_pair.
        apply NoDup_filter. by_decide. }
      rewrite Hsplit, fmap_app, fmap_cons in Hnd.
      apply NoDup_app in Hnd as (_ & Hdisj & _).
      intros Hin. apply (Hdisj t Hin). left. }
    destruct (name_get t) as [_ Hti]; [by apply terminal_name |].
    destruct (rounded_share_returns (entry flow (idx w) (idx s))
                (sum_over store_ids (entry flow (idx w)))
                (entry flow (idx t) (idx w)))
      as (q & x & z & Hq & Hx & Hz & Hshare);
      [split; [done | by apply flow_small] | done
      | split; [done | by apply flow_small] |].
    assert (Hsh : share_at (idx t) (idx w) (idx s) = Z.max 0 z).
    { unfold share. rewrite bool_decide_eq_true_2 by done. done. }
    unfold Net.attribute. rewrite Hq. step_ok. rewrite Hx. step_ok.
    rewrite Hz. step_ok.
    assert (Hkey : (t, s) ∈ keys) by by apply key_of_names.
    case_bool_decide as Hz0.
    + pose proof Htsf0 as [Hkeys Hget]. rewrite (Hget _ Hkey). step_ok.
      eexists. split; [done |].
      eapply table_is_ext; [by apply table_is_add |].
      intros [t' s'] Hk. rewrite fmap_app, fmap_cons, fmap_nil. cbn [fst snd].
      destruct (decide ((t', s') = (t, s))) as [[= -> ->] | Hne].
      * rewrite (decide_False (P := _ ∧ t ∈ pre.*1)) by tauto.
        rewrite decide_True by (split; [done | apply elem_of_app; right; left]). lia.
      * f_equal. apply decide_ext. rewrite elem_of_app, list_elem_of_singleton.
        split; [tauto |]. intros [-> [Hin | ->]]; [tauto | done].
    + eexists. split; [done |].
      eapply table_is_ext; [done |].
      intros [t' s'] Hk. rewrite fmap_app, fmap_cons, fmap_nil. cbn [fst snd].
      destruct (decide (s' = s ∧ t' ∈ pre.*1)) as [Hin | Hout].
      * rewrite decide_True; [done |]. split; [tauto | apply elem_of_app; tauto].
      * destruct (decide (s' = s ∧ t' ∈ pre.*1 ++ [t])) as [[-> Hin] |]; [| done].
        apply elem_of_app in Hin as [Hin | Hin]; [tauto |].
        apply list_elem_of_singleton in Hin as ->. lia.
  - eapply table_is_ext; [done |]. intros k _. cbv beta.
    rewrite decide_False; [lia |]. intros [_ Hin]. by apply elem_of_nil in Hin.
  - exists tsf'. split; [done |].
    eapply table_is_ext; [done |]. intros [t' s'] Hk. cbn [fst snd].
    apply key_names in Hk as [Ht' _]. cbn [fst snd] in Ht'.
    destruct (decide (s' = s)) as [-> | Hne]; [| by rewrite decide_False by tauto].
    destruct (decide (0 < entry flow (idx t') (idx w))) as [Hpos | Hneg].
    + rewrite decide_True; [done |]. split; [done |].
      apply list_elem_of_fmap. exists (t', entry flow (idx t') (idx w)).
      split; [done |]. apply list_elem_of_fmap. exists t'. split; [done |].
      by apply list_elem_of_filter.
    + assert (share_at (idx t') (idx w) (idx s) = 0) as ->.
      { unfold share. rewrite bool_decide_eq_false_2; [done | tauto]. }
      by destruct (decide _).
Qed.

(** The loop over the stores, for a warehouse with flow to the stores. *)
Lemma stores_shares (w : string) (wi : list (string * list (string * Z)))
    (G : string * string → Z) (tsf : list (string * string * Z)) :
  w ∈ Net.warehouses → odict_get wi w = Ok (items w) →
  0 < sum_over store_ids (entry flow (idx w)) →
  table_is keys tsf G →
  ∃ tsf', py_for Net.stores (λ s terminal_store_flows,
            s_idx ← dict_get ni s;
            store_flow ← mat_get flow (idx w) s_idx;
            if bool_decide (store_flow > 0) then
              inflows ← odict_get wi w;
              py_for inflows
                (Net.attribute s store_flow (sum_over store_ids (entry flow (idx w))))
                terminal_store_flows
            else Ok terminal_store_flows) tsf = Ok tsf'
          ∧ table_is keys tsf' (λ k, G k + share_at (idx k.1) (idx w) (idx k.2)).
Proof.
  intros Hw Hwi Htotal Htsf.
  destruct (name_get w) as [_ Hwn]; [by apply warehouse_name |].
  match goal with |- ∃ tsf', py_for _ ?body _ = _ ∧ _ =>
    destruct (py_for_split
      (λ pre tsf', table_is keys tsf'
         (λ k, G k + if decide (k.2 ∈ pre) then share_at (idx k.1) (idx w) (idx k.2)
                     else 0))
      Net.stores body) with (st := tsf) as (tsf' & Hrun & Htsf')
  end.
  - intros pre s post tsf0 Hsplit Htsf0.
    assert (Hs : s ∈ Net.stores) by (rewrite Hsplit, elem_of_app; right; left).
    assert (Hfresh : s ∉ pre).
    { assert (Hnd : NoDup Net.stores) by by_decide.
      rewrite Hsplit in Hnd. apply NoDup_app in Hnd as (_ & Hdisj & _).
      intros Hin. apply (Hdisj s Hin). left. }
    destruct (name_get s) as [-> Hsn]; [by apply store_name |]. step_ok.
    rewrite (mat_get_ok n) by done. step_ok.
    case_bool_decide as Hpos.
    + rewrite Hwi. step_ok.
      destruct (attribute_shares w s _ tsf0 Hw Hs Htotal ltac:(lia) Htsf0)
        as (tsf1 & -> & Htsf1).
      exists tsf1. split; [done |].
      eapply table_is_ext; [done |]. intros [t' s'] Hk. cbn [fst snd].
      destruct (decide (s' = s)) as [-> | Hne].
      * rewrite decide_False by done. rewrite decide_True by (apply elem_of_app; right; left). lia.
      * rewrite Z.add_0_r. f_equal. apply decide_ext.
        rewrite elem_of_app, list_elem_of_singleton. tauto.
    + exists tsf0. split; [done |].
      eapply table_is_ext; [done |]. intros [t' s'] Hk. cbn [fst snd]. f_equal.
      destruct (decide (s' = s)) as [-> | Hne].
      * rewrite decide_False by done. rewrite decide_True by (apply elem_of_app; right; left).
        unfold share. rewrite bool_decide_eq_false_2; [done |]. lia.
      * apply decide_ext. rewrite elem_of_app, list_elem_of_singleton. tauto.
  - eapply table_is_ext; [done |]. intros k _. cbv beta.
    rewrite decide_False; [lia |]. apply not_elem_of_nil.
  - exists tsf'. split; [done |].
    eapply table_is_ext; [done |]. intros k Hk. cbv beta.
    apply key_names in Hk as [_ Hs]. by rewrite decide_True.
Qed.

(** The second loop adds up the shares over the warehouses. *)
Lemma distribute_shares (wi : list (string * list (string * Z))) :
  (∀ w, w ∈ Net.warehouses → odict_get wi w = Ok (items w)) →
  ∃ tsf, Net.distribute flow ni wi Net.zero_flows = Ok tsf
         ∧ table_is keys tsf
             (λ k, sum_over (indices_of ni Net.warehouses)
                     (λ w, share_at (idx k.1) w (idx k.2))).
Proof.
  intros Hwi. unfold Net.distribute.
  apply (py_for_prefix
    (λ pre tsf, table_is keys tsf
       (λ k, sum_over (indices_of ni pre) (λ w, share_at (idx k.1) w (idx k.2))))).
  - intros pre w tsf Hw Htsf.
    destruct (name_get w) as [-> Hwn]; [by apply warehouse_name |]. step_ok.
    rewrite total_outflow_sum by done. step_ok. rewrite Z.add_0_l.
    case_bool_decide as Htotal.
    + destruct (stores_shares w wi _ tsf Hw (Hwi w Hw) ltac:(lia) Htsf)
        as (tsf' & -> & Htsf').
      exists tsf'. split; [done |].
      eapply table_is_ext; [done |]. intros k _. cbv beta.
      change (indices_of ni (pre ++ [w])) with (idx <$> pre ++ [w]).
      rewrite fmap_app, sum_over_app.
      change (sum_over (idx <$> [w]) ?f) with (f (idx w) + 0). cbv beta.
      unfold indices_of at 1. lia.
    + exists tsf. split; [done |].
      eapply table_is_ext; [done |]. intros k _. cbv beta.
      change (indices_of ni (pre ++ [w])) with (idx <$> pre ++ [w]).
      rewrite fmap_app, sum_over_app.
      change (sum_over (idx <$> [w]) ?f) with (f (idx w) + 0). cbv beta.
      assert (share_at (idx k.1) (idx w) (idx k.2) = 0) as ->
        by (unfold share; rewrite bool_decide_eq_false_2; [done | lia]).
      unfold indices_of at 1. lia.
  - unfold Net.zero_flows. rewrite dict_of_items_NoDup.
    + eapply table_is_ext; [apply (table_is_fmap (λ _, 0)) |]. done.
    + rewrite fmap_fst_pair. by_decide.
Qed.

End shares.

(** The table is the table of the shares, when no rounding can overflow. *)
Lemma calculate_shares (n : nat) (flow : Matrix) (ni : gmap string Z) :
  square n flow → indexed_all ni network_names (node n) →
  (∀ a b, node n a → node n b → entry flow a b < 2 ^ 500) →
  Net.calculate_terminal_to_store_flow flow ni
  = Ok (filter (λ item, item.2 > 0) (shares_table flow ni)).
Proof.
  intros Hsq Hidx Hsmall. unfold Net.calculate_terminal_to_store_flow.
  destruct (warehouse_inflows_items n flow ni Hsq Hidx) as (wi & -> & Hwi).
  step_ok.
  destruct (distribute_shares n flow ni Hsq Hidx Hsmall wi Hwi) as (tsf & -> & Htsf).
  step_ok. f_equal. f_equal.
  apply table_is_eq in Htsf; [done | by_decide].
Qed.

Lemma entries_below (n : nat) (m : Matrix) (B : Z) :
  square n m → Forall (Forall (λ x, x < B)) m →
  ∀ a b, node n a → node n b → entry m a b < B.
Proof.
  intros Hsq Hall a b Ha Hb. unfold entry.
  pose proof (square_row n m a Hsq Ha) as Hrow. destruct Hsq as [Hlen _].
  rewrite Forall_forall in Hall.
  assert (Hin : nthZ [] m a ∈ m) by (apply nthZ_elem_of; by rewrite Hlen).
  specialize (Hall _ Hin).
  rewrite Forall_forall in Hall. apply Hall, nthZ_elem_of. by rewrite Hrow.
Qed.

(** X22: on a square flow matrix whose entries are below [2 ^ 500], with
    the twenty names indexed in range, [calculate_terminal_to_store_flow]
    returns: no lookup fails and no float operation overflows.  Its rows are
    the pairs (terminal, store), in the order of the two lists, whose sum over
    the warehouses of the rounded shares is positive, with that sum: the
    share of a warehouse is [round(store_flow / total_outflow *
    terminal_flow)] when the three flows are positive, and nothing
    otherwise. *)
Theorem terminal_to_store_flows_shares (n : nat) (flow : Matrix)
    (ni : gmap string Z) :
  square n flow → indexed_all ni network_names (node n) →
  Forall (Forall (λ x, x < 2 ^ 500)) flow →
  Net.calculate_terminal_to_store_flow flow ni
  = Ok (filter (λ item, item.2 > 0) (shares_table flow ni)).
Proof.
  intros Hsq Hidx Hsmall. apply (calculate_shares n); [done | done |].
  by apply entries_below.
Qed.

Lemma terminal_to_store_flows_shares_witness :
  Net.calculate_terminal_to_store_flow logistics_flow logistics_indices
  = Ok (filter (λ item, item.2 > 0) (shares_table logistics_flow logistics_indices)).
Proof.
  apply (terminal_to_store_flows_shares 20 logistics_flow logistics_indices);
    by_decide.
Defined.

(** ** [main] with the table of flows *)

(** The chain of [main] with the table, for capacities below [2 ^ 500]. *)
Lemma solved_network_table (nodes : list string) (ni : gmap string Z) (cap : Matrix) :
  square (length nodes) cap → nonneg cap →
  indexed_all ni network_names (node (length nodes)) →
  NoDup (indices_of ni network_names) →
  Forall (Forall (λ x, x < 2 ^ 500)) cap →
  ∃ ext st a,
    Task1.augment nodes ni cap
    = Ok (ext, Z.of_nat (length nodes), Z.of_nat (length nodes) + 1)
    ∧ (∀ fuel,
         (enough_fuel (length nodes + 2) ext (Z.of_nat (length nodes)) ≤ fuel)%nat →
         EK.edmonds_karp fuel ext (Z.of_nat (length nodes)) (Z.of_nat (length nodes) + 1)
         = Ok (EK.max_flow st, EK.flow_matrix st, EK.path_history st))
    ∧ Net.analyze_network cap (Task1.trim (length nodes) (EK.flow_matrix st)) nodes ni
        (EK.path_history st) = Ok a
    ∧ Net.calculate_terminal_to_store_flow
        (Task1.trim (length nodes) (EK.flow_matrix st)) ni
      = Ok (filter (λ item, item.2 > 0)
              (shares_table (Task1.trim (length nodes) (EK.flow_matrix st)) ni)).
Proof.
  intros Hsq Hnn Hidx Hnd Hsmall. set (n := length nodes) in *.
  assert (Hidx' : indexed_all ni (Net.terminals ++ Net.stores) (node n)).
  { unfold indexed_all, network_names in *.
    apply Forall_app in Hidx as [Ht Hws]. apply Forall_app in Hws as [_ Hs].
    by apply Forall_app. }
  destruct (augment_wired n ni cap Hsq nodes eq_refl Hidx')
    as (ext & Hrun & Hext & Hent).
  pose proof (ext_valid n nodes ni cap eq_refl Hsq Hnn ext Hext Hent) as Hvalid.
  destruct (edmonds_karp_final (n + 2) ext _ _ Hvalid) as (st & Hek & _ & Hinv & _).
  destruct (solved_analysis n nodes ni cap eq_refl Hsq Hnn Hidx Hnd ext st Hext Hent Hinv
              (EK.path_history st)) as (a & Ha & _).
  exists ext, st, a. repeat (split; [done |]).
  pose proof (fi_square _ _ _ _ _ Hinv) as Hg.
  apply (calculate_shares n); [apply (square_trim n (n + 2)); [done | lia] | done |].
  intros i j Hi Hj. rewrite (entry_trim n (n + 2)) by (done || lia).
  assert (Hi' : node (n + 2) i) by (unfold node in *; lia).
  assert (Hj' : node (n + 2) j) by (unfold node in *; lia).
  pose proof (fi_bounded _ _ _ _ _ Hinv i j Hi' Hj') as Hle.
  rewrite (Hent i j Hi' Hj'), (wired_original n nodes ni cap eq_refl i j Hi Hj) in Hle.
  pose proof (entries_below n cap _ Hsq Hsmall i j Hi Hj). lia.
Qed.

(** X23: for every network of non-negative capacities below [2 ^ 500]
    whose twenty names have distinct indices in range, [main] from the edge
    list to the analysis returns: with enough turns of the solver's loop the
    values for the report are the edge list, the maximum flow, the analysis
    and the table of the shares in the trimmed flow matrix. *)
Theorem analyse_returns (nodes : list string) (ni : gmap string Z) (cap : Matrix) :
  square (length nodes) cap → nonneg cap →
  indexed_all ni network_names (node (length nodes)) →
  NoDup (indices_of ni network_names) →
  Forall (Forall (λ x, x < 2 ^ 500)) cap →
  ∃ ext max_flow flow_matrix path_history a edges,
    Task1.augment nodes ni cap
    = Ok (ext, Z.of_nat (length nodes), Z.of_nat (length nodes) + 1)
    ∧ Net.get_edges_from_matrix cap nodes = Ok edges
    ∧ Net.analyze_network cap (Task1.trim (length nodes) flow_matrix) nodes ni
        path_history = Ok a
    ∧ ∀ fuel,
        (enough_fuel (length nodes + 2) ext (Z.of_nat (length nodes)) ≤ fuel)%nat →
        EK.edmonds_karp fuel ext (Z.of_nat (length nodes)) (Z.of_nat (length nodes) + 1)
        = Ok (max_flow, flow_matrix, path_history)
        ∧ Task1.analyse fuel nodes ni cap
          = Ok (Task1.ReportInputs max_flow a
                  (filter (λ item, item.2 > 0)
                     (shares_table (Task1.trim (length nodes) flow_matrix) ni))
                  edges).
Proof.
  intros Hsq Hnn Hidx Hnd Hsmall.
  destruct (solved_network_table nodes ni cap Hsq Hnn Hidx Hnd Hsmall)
    as (ext & st & a & Haug & Hrun & Han & Htable).
  exists ext, (EK.max_flow st), (EK.flow_matrix st), (EK.path_history st), a.
  eexists. split; [done |].
  split; [by apply (get_edges_selected (length nodes)) |]. split; [done |].
  intros fuel Hfuel. split; [by apply Hrun |].
  unfold Task1.analyse.
  rewrite (get_edges_selected (length nodes)) by done. step_ok.
  rewrite Haug. step_ok. cbv beta iota. rewrite (Hrun fuel Hfuel). step_ok.
  cbv beta iota zeta. rewrite Htable. step_ok. by rewrite Han.
Qed.

Lemma analyse_returns_witness :
  ∃ ext max_flow flow_matrix path_history a edges,
    Task1.augment logistics_nodes logistics_indices logistics_capacity
    = Ok (ext, Z.of_nat (length logistics_nodes), Z.of_nat (length logistics_nodes) + 1)
    ∧ Net.get_edges_from_matrix logistics_capacity logistics_nodes = Ok edges
    ∧ Net.analyze_network logistics_capacity
        (Task1.trim (length logistics_nodes) flow_matrix) logistics_nodes
        logistics_indices path_history = Ok a
    ∧ ∀ fuel,
        (enough_fuel (length logistics_nodes + 2) ext
           (Z.of_nat (length logistics_nodes)) ≤ fuel)%nat →
        EK.edmonds_karp fuel ext (Z.of_nat (length logistics_nodes))
          (Z.of_nat (length logistics_nodes) + 1)
        = Ok (max_flow, flow_matrix, path_history)
        ∧ Task1.analyse fuel logistics_nodes logistics_indices logistics_capacity
          = Ok (Task1.ReportInputs max_flow a
                  (filter (λ item, item.2 > 0)
                     (shares_table (Task1.trim (length logistics_nodes) flow_matrix)
                        logistics_indices))
                  edges).
Proof.
  apply (analyse_returns logistics_nodes logistics_indices logistics_capacity);
    by_decide.
Defined.
